(** * Log File Analyzer: a shallow embedding of
      [day04/python_day4_lecture/project/log_analyzer/log_analyzer.py]

    The development follows the source file top to bottom: Python text and
    the fragment of the [re] engine that the two log patterns use, the
    timestamp reader ([LogParser.parse_timestamp]), the record type
    ([LogEntry]), the line parser ([LogParser.parse_log_line]), and the
    analysis methods of [LogAnalyzer].

    Modelling conventions.
    - A Python [str] is a [list ascii]; the model covers ASCII text, so
      [\d] is 0-9 and IGNORECASE folds A-Z only; month names are those of
      the C locale.
    - A Python [int] is a [Z]; a count (the value of a [Counter] or of a
      [defaultdict(int)] that is only ever incremented) is a [nat].
    - A Python [dict] or [Counter] is an association list in insertion
      order, the order the interpreter iterates it in.
    - A call that may raise returns an [option] or an [outcome]. *)

From Stdlib Require Import Ascii String ZArith Lia Bool Arith List.
From Stdlib Require Import Permutation Sorted.
Import ListNotations.

Set Implicit Arguments.
Local Open Scope list_scope.

(* ------------------------------------------------------------------ *)
(** ** Python text *)

Module Str.

Definition str := list ascii.

(** A literal of the source. *)
Definition lit (s : string) : str := list_ascii_of_string s.

(** The double quote character. *)
Definition dq : ascii := "034"%char.

(** The line feed character. *)
Definition nl : ascii := "010"%char.

Definition code (c : ascii) : nat := nat_of_ascii c.

Definition between (lo hi : ascii) (c : ascii) : bool :=
  (code lo <=? code c) && (code c <=? code hi).

Definition is_digit : ascii -> bool := between "0" "9".
Definition is_upper : ascii -> bool := between "A" "Z".

(** [\s] on ASCII text: space, \t, \n, \v, \f, \r and the separators
    0x1c..0x1f. *)
Definition is_space (c : ascii) : bool :=
  (code c =? 32) || between "009" "013" c || between "028" "031" c.

(** [.] without DOTALL: any character but the line feed. *)
Definition not_nl (c : ascii) : bool := negb (Ascii.eqb c nl).

Definition lower (c : ascii) : ascii :=
  if is_upper c then ascii_of_nat (code c + 32) else c.

Definition upper (c : ascii) : ascii :=
  if between "a" "z" c then ascii_of_nat (code c - 32) else c.

(** [str.upper()] *)
Definition str_upper (s : str) : str := map upper s.

(** [==] on [str] *)
Fixpoint eqb (a b : str) : bool :=
  match a, b with
  | [], [] => true
  | x :: a', y :: b' => Ascii.eqb x y && eqb a' b'
  | _, _ => false
  end.

(** [<] on [str]: lexicographic on code points. *)
Fixpoint ltb (a b : str) : bool :=
  match a, b with
  | _, [] => false
  | [], _ :: _ => true
  | x :: a', y :: b' =>
      if code x <? code y then true
      else if code y <? code x then false
      else ltb a' b'
  end.

(** [s.split(' ')[0]]: the text before the first space. *)
Fixpoint before_space (s : str) : str :=
  match s with
  | [] => []
  | c :: s' => if Ascii.eqb c " " then [] else c :: before_space s'
  end.

Definition digit_val (c : ascii) : Z := Z.of_nat (code c - 48).

(** [sys.get_int_max_str_digits()]: the interpreter's limit on the
    length of a decimal numeral that [int] converts, 4300 unless it is
    configured otherwise. *)
Definition int_max_str_digits : Z := 4300.

(** [int(s)] on the text the patterns hand it, a run of decimal digits;
    [None] stands for [ValueError], which is also raised for a numeral
    of more digits than the limit, leading zeros counted. *)
Definition py_int (s : str) : option Z :=
  match s with
  | [] => None
  | _ :: _ =>
      if forallb is_digit s && (Z.of_nat (length s) <=? int_max_str_digits)%Z
      then Some (fold_left (fun acc c => 10 * acc + digit_val c)%Z s 0%Z)
      else None
  end.

End Str.
Import Str.

(* ------------------------------------------------------------------ *)
(** ** The fragment of [re] used by the source

    Every quantifier of the source patterns ranges over a single
    character class, so repetition is defined on classes.  The matcher is
    a backtracking matcher in continuation-passing style: alternatives are
    tried left to right, a greedy repetition tries the longest run first,
    a lazy one the shortest, and the first complete match wins. *)

Module Re.

Inductive regex : Type :=
| Eps
| Chr (p : ascii -> bool)
| Seq (r1 r2 : regex)
| Alt (r1 r2 : regex)
| Star (p : ascii -> bool)
| Plus (p : ascii -> bool)
| LazyStar (p : ascii -> bool)
| Group (r : regex).

Declare Scope re_scope.
Delimit Scope re_scope with re.
Bind Scope re_scope with regex.
Infix ";;" := Seq (at level 61, right associativity) : re_scope.
Infix "<|>" := Alt (at level 62, right associativity) : re_scope.

Fixpoint Lit (s : string) : regex :=
  match s with
  | EmptyString => Eps
  | String c s' => Seq (Chr (Ascii.eqb c)) (Lit s')
  end.

(** A literal under [re.IGNORECASE]. *)
Fixpoint ILit (s : string) : regex :=
  match s with
  | EmptyString => Eps
  | String c s' => Seq (Chr (fun x => Ascii.eqb (lower x) (lower c))) (ILit s')
  end.

Section Matcher.
Variable A : Type.

(** [p*] then [k], longest run first. *)
Fixpoint star_greedy (p : ascii -> bool) (s : str) (k : str -> option A)
  : option A :=
  match s with
  | c :: s' =>
      if p c then
        match star_greedy p s' k with
        | Some x => Some x
        | None => k s
        end
      else k s
  | [] => k []
  end.

(** [p*?] then [k], shortest run first. *)
Fixpoint star_lazy (p : ascii -> bool) (s : str) (k : str -> option A)
  : option A :=
  match k s with
  | Some x => Some x
  | None =>
      match s with
      | c :: s' => if p c then star_lazy p s' k else None
      | [] => None
      end
  end.

(** The text consumed between [s] and its suffix [s']. *)
Definition consumed (s s' : str) : str := firstn (length s - length s') s.

(** [m r s caps k]: match [r] at the start of [s], then continue with [k]
    on the rest of the text; [caps] collects the groups closed so far. *)
Fixpoint m (r : regex) (s : str) (caps : list str)
  (k : str -> list str -> option A) : option A :=
  match r with
  | Eps => k s caps
  | Chr p =>
      match s with
      | c :: s' => if p c then k s' caps else None
      | [] => None
      end
  | Seq r1 r2 => m r1 s caps (fun s' caps' => m r2 s' caps' k)
  | Alt r1 r2 =>
      match m r1 s caps k with
      | Some x => Some x
      | None => m r2 s caps k
      end
  | Star p => star_greedy p s (fun s' => k s' caps)
  | Plus p =>
      match s with
      | c :: s' =>
          if p c then star_greedy p s' (fun s'' => k s'' caps) else None
      | [] => None
      end
  | LazyStar p => star_lazy p s (fun s' => k s' caps)
  | Group r1 => m r1 s caps (fun s' caps' => k s' (caps' ++ [consumed s s']))
  end.

End Matcher.

(** [pattern.match(s)]: anchored at the start only.  The result is
    [match.groups()] together with the text after [match.end()]. *)
Definition re_match (r : regex) (s : str) : option (list str * str) :=
  m r s [] (fun s' caps => Some (caps, s')).

(** [pattern.search(s)] as a truth value: a match at some position. *)
Fixpoint re_search (r : regex) (s : str) : bool :=
  match re_match r s with
  | Some _ => true
  | None =>
      match s with
      | [] => false
      | _ :: s' => re_search r s'
      end
  end.

End Re.
Import Re.
Local Open Scope re_scope.

(* ------------------------------------------------------------------ *)
(** ** [datetime.datetime] and [LogParser.parse_timestamp] *)

Module Datetime.

Local Open Scope Z_scope.

Record datetime : Type := mk_datetime {
  year : Z; month : Z; day : Z; hour : Z; minute : Z; second : Z
}.

Definition is_leap (y : Z) : bool :=
  (y mod 4 =? 0) && (negb (y mod 100 =? 0) || (y mod 400 =? 0)).

Definition days_in_month (y mo : Z) : Z :=
  if mo =? 2 then (if is_leap y then 29 else 28)
  else if (mo =? 4) || (mo =? 6) || (mo =? 9) || (mo =? 11) then 30
  else 31.

(** The range checks of the [datetime] constructor; every [datetime]
    object satisfies them. *)
Definition valid_datetime (d : datetime) : bool :=
  (1 <=? year d) && (year d <=? 9999) &&
  (1 <=? month d) && (month d <=? 12) &&
  (1 <=? day d) && (day d <=? days_in_month (year d) (month d)) &&
  (0 <=? hour d) && (hour d <=? 23) &&
  (0 <=? minute d) && (minute d <=? 59) &&
  (0 <=? second d) && (second d <=? 59).

(** [datetime(y, mo, d, h, mi, s)]; [None] stands for [ValueError]. *)
Definition make_datetime (y mo d h mi s : Z) : option datetime :=
  let t := mk_datetime y mo d h mi s in
  if valid_datetime t then Some t else None.

(** Comparison of naive datetimes: lexicographic on the fields. *)
Definition then_cmp (c1 c2 : comparison) : comparison :=
  match c1 with Eq => c2 | _ => c1 end.

Definition dt_compare (a b : datetime) : comparison :=
  then_cmp (year a ?= year b)
  (then_cmp (month a ?= month b)
  (then_cmp (day a ?= day b)
  (then_cmp (hour a ?= hour b)
  (then_cmp (minute a ?= minute b) (second a ?= second b))))).

(** [a <= b] *)
Definition dt_leb (a b : datetime) : bool :=
  match dt_compare a b with Gt => false | _ => true end.

(** [a > b] *)
Definition dt_gtb (a b : datetime) : bool :=
  match dt_compare a b with Gt => true | _ => false end.

(** The calendar date of a datetime, [d.date()], and its order. *)
Definition date_compare (a b : datetime) : comparison :=
  then_cmp (year a ?= year b)
  (then_cmp (month a ?= month b) (day a ?= day b)).

Definition date_ltb (a b : datetime) : bool :=
  match date_compare a b with Lt => true | _ => false end.

Definition digit_char (n : Z) : ascii := ascii_of_nat (48 + Z.to_nat (n mod 10)).

Definition pad2 (n : Z) : str := [digit_char (n / 10); digit_char n].

Definition pad4 (n : Z) : str :=
  [digit_char (n / 1000); digit_char (n / 100); digit_char (n / 10);
   digit_char n].

(** [d.date().isoformat()], the text YYYY-MM-DD. *)
Definition date_isoformat (d : datetime) : str :=
  pad4 (year d) ++ lit "-" ++ pad2 (month d) ++ lit "-" ++ pad2 (day d).

(** The regular expression that [strptime] builds from the format
    [%d/%b/%Y:%H:%M:%S]; it is compiled with IGNORECASE. *)
Definition re_d : regex :=
  (Chr (Ascii.eqb "3") ;; Chr (between "0" "1")) <|>
  (Chr (between "1" "2") ;; Chr is_digit) <|>
  (Chr (Ascii.eqb "0") ;; Chr (between "1" "9")) <|>
  Chr (between "1" "9") <|>
  (Chr (Ascii.eqb " ") ;; Chr (between "1" "9")).

Definition month_abbr : list string :=
  ["jan"; "feb"; "mar"; "apr"; "may"; "jun";
   "jul"; "aug"; "sep"; "oct"; "nov"; "dec"]%string.

Definition re_b : regex :=
  fold_right (fun s r => ILit s <|> r) (ILit "dec") (removelast month_abbr).

Definition re_Y : regex :=
  Chr is_digit ;; Chr is_digit ;; Chr is_digit ;; Chr is_digit.

Definition re_H : regex :=
  (Chr (Ascii.eqb "2") ;; Chr (between "0" "3")) <|>
  (Chr (between "0" "1") ;; Chr is_digit) <|>
  Chr is_digit.

Definition re_M : regex :=
  (Chr (between "0" "5") ;; Chr is_digit) <|> Chr is_digit.

Definition re_S : regex :=
  (Chr (Ascii.eqb "6") ;; Chr (between "0" "1")) <|>
  (Chr (between "0" "5") ;; Chr is_digit) <|>
  Chr is_digit.

Definition strptime_regex : regex :=
  Group re_d ;; Lit "/" ;; Group re_b ;; Lit "/" ;; Group re_Y ;; Lit ":" ;;
  Group re_H ;; Lit ":" ;; Group re_M ;; Lit ":" ;; Group re_S.

(** The month number of an abbreviation, compared in lower case. *)
Fixpoint month_index (names : list string) (i : Z) (s : str) : option Z :=
  match names with
  | [] => None
  | n :: names' =>
      if Str.eqb (map lower s) (lit n) then Some i
      else month_index names' (i + 1) s
  end.

(** The day group may start with a blank, which [int] skips. *)
Definition skip_blank (s : str) : str :=
  match s with
  | c :: s' => if Ascii.eqb c " " then s' else s
  | [] => s
  end.

Definition group (g : list str) (i : nat) : str := nth i g [].

(** [datetime.strptime(data, fmt)] for this format: the whole text must
    match, and the fields must form a date and a time of day. *)
Definition strptime (data : str) : option datetime :=
  match re_match strptime_regex data with
  | Some (g, []) =>
      match py_int (skip_blank (group g 0)), month_index month_abbr 1 (group g 1),
            py_int (group g 2), py_int (group g 3), py_int (group g 4),
            py_int (group g 5) with
      | Some d, Some mo, Some y, Some h, Some mi, Some s =>
          make_datetime y mo d h mi s
      | _, _, _, _, _, _ => None
      end
  | _ => None
  end.

(** [LogParser.parse_timestamp]: the timezone is cut off at the first
    blank, the rest goes through [strptime]. *)
Definition parse_timestamp (timestamp_str : str) : option datetime :=
  strptime (before_space timestamp_str).

End Datetime.
Import Datetime.

(* ------------------------------------------------------------------ *)
(** ** [LogEntry] and [LogParser] *)

Record LogEntry : Type := mk_LogEntry {
  raw_log : str;
  timestamp : datetime;
  ip_address : str;
  method : str;
  path : str;
  status_code : Z;
  response_size : Z;
  user_agent : option str;
  referer : option str
}.

Module LogParser.

(** [(\d+\.\d+\.\d+\.\d+) - - \[(.*?)\] <dq>([A-Z]+) (.*?) HTTP/\d\.\d<dq> (\d+) (\d+)],
    where <dq> is the double quote. *)
Definition COMMON_LOG_PATTERN : regex :=
  Group (Plus is_digit ;; Lit "." ;; Plus is_digit ;; Lit "." ;;
         Plus is_digit ;; Lit "." ;; Plus is_digit) ;;
  Lit " - - [" ;; Group (LazyStar not_nl) ;; Lit "] " ;; Chr (Ascii.eqb dq) ;;
  Group (Plus is_upper) ;; Lit " " ;; Group (LazyStar not_nl) ;;
  Lit " HTTP/" ;; Chr is_digit ;; Lit "." ;; Chr is_digit ;;
  Chr (Ascii.eqb dq) ;; Lit " " ;;
  Group (Plus is_digit) ;; Lit " " ;; Group (Plus is_digit).

(** What the combined pattern adds to the common one:
    [ <dq>(.*?)<dq> <dq>(.*?)<dq>]. *)
Definition COMBINED_TAIL : regex :=
  Lit " " ;; Chr (Ascii.eqb dq) ;; Group (LazyStar not_nl) ;;
  Chr (Ascii.eqb dq) ;; Lit " " ;; Chr (Ascii.eqb dq) ;;
  Group (LazyStar not_nl) ;; Chr (Ascii.eqb dq).

(** The text of the combined pattern is the text of the common pattern
    followed by this tail. *)
Definition COMBINED_LOG_PATTERN : regex :=
  COMMON_LOG_PATTERN ;; COMBINED_TAIL.

(** [x if x != '-' else None] *)
Definition dash_to_None (x : str) : option str :=
  if Str.eqb x (lit "-") then None else Some x.

(** The body of the first [try]: the entry built from the eight groups
    of a combined match; [None] when a [ValueError] is caught. *)
Definition entry_of_combined (log_line : str) (g : list str) : option LogEntry :=
  match parse_timestamp (group g 1) with
  | None => None
  | Some ts =>
      match py_int (group g 4), py_int (group g 5) with
      | Some sc, Some rs =>
          Some (mk_LogEntry log_line ts (group g 0) (group g 2) (group g 3)
                  sc rs (dash_to_None (group g 7)) (dash_to_None (group g 6)))
      | _, _ => None
      end
  end.

(** The body of the second [try]: the entry built from the six groups of
    a common match, [user_agent] and [referer] left at their default. *)
Definition entry_of_common (log_line : str) (g : list str) : option LogEntry :=
  match parse_timestamp (group g 1) with
  | None => None
  | Some ts =>
      match py_int (group g 4), py_int (group g 5) with
      | Some sc, Some rs =>
          Some (mk_LogEntry log_line ts (group g 0) (group g 2) (group g 3)
                  sc rs None None)
      | _, _ => None
      end
  end.

Definition parse_log_line (log_line : str) : option LogEntry :=
  match re_match COMBINED_LOG_PATTERN log_line with
  | Some (g, _) => entry_of_combined log_line g
  | None =>
      match re_match COMMON_LOG_PATTERN log_line with
      | Some (g, _) => entry_of_common log_line g
      | None => None
      end
  end.

End LogParser.
Import LogParser.

(* ------------------------------------------------------------------ *)
(** ** Python containers used by [LogAnalyzer] *)

Module Py.

(** The value a call returns, or the exception it raises. *)
Inductive exception : Type :=
| re_error | ValueError | OverflowError | RecursionError | ZeroDivisionError.

Inductive outcome (R : Type) : Type :=
| Returned (r : R)
| Raised (exc : exception).
Arguments Raised {R} exc.

(** [[e for e in xs if cond(e)]]: a fresh list, appended to in the order
    of iteration. *)
Definition comprehension {A : Type} (cond : A -> bool) (xs : list A) : list A :=
  fold_left (fun acc e => if cond e then acc ++ [e] else acc) xs [].

(** [range(n)] *)
Definition range (n : nat) : list Z := map Z.of_nat (seq 0 n).

(** A number as Python returns it from [get_average_response_size]:
    an [int], or the [float] that the true division [num / den] yields. *)
Inductive pynum : Type :=
| PyInt (z : Z)
| TrueDiv (num den : Z).

(** The float range.  A true division of integers is rounded to the
    nearest float; the quotients from [2^1024 - 2^970] on are rounded
    beyond the largest float, and the division raises [OverflowError]. *)
Definition float_limit : Z := 2 ^ 1024 - 2 ^ 970.

(** [num / den] on integers. *)
Definition true_div (num den : Z) : outcome pynum :=
  if (den =? 0)%Z then Raised ZeroDivisionError
  else if (float_limit * Z.abs den <=? Z.abs num)%Z then Raised OverflowError
  else Returned (TrueDiv num den).

Section Counter.
Variable K : Type.
Variable keqb : K -> K -> bool.

(** [c[k] += 1] on a [Counter] or a [defaultdict(int)]: a key seen for
    the first time goes to the end, a known key keeps its place. *)
Fixpoint incr (k : K) (c : list (K * nat)) : list (K * nat) :=
  match c with
  | [] => [(k, 1)]
  | (k', n) :: c' =>
      if keqb k' k then (k', S n) :: c' else (k', n) :: incr k c'
  end.

(** [Counter(xs)] *)
Definition Counter (xs : list K) : list (K * nat) :=
  fold_left (fun c k => incr k c) xs [].

(** [c.get(k, default)] *)
Fixpoint get (c : list (K * nat)) (k : K) (default : nat) : nat :=
  match c with
  | [] => default
  | (k', n) :: c' => if keqb k' k then n else get c' k default
  end.

(** [sorted(items, key=itemgetter(1), reverse=True)].  Python's sort is
    stable, also with [reverse=True]: items of equal count keep the order
    they come in.  A stable sort has one result, computed here by
    insertion from the right. *)
Fixpoint insert_desc (x : K * nat) (l : list (K * nat)) : list (K * nat) :=
  match l with
  | [] => [x]
  | y :: l' => if snd x <? snd y then y :: insert_desc x l' else x :: l
  end.

Definition sorted_by_count_desc (items : list (K * nat)) : list (K * nat) :=
  fold_right insert_desc [] items.

(** [c.most_common(n)] is [heapq.nlargest(n, c.items(), key=itemgetter(1))],
    which is [sorted(c.items(), key=itemgetter(1), reverse=True)[:n]] for
    [n >= 0] and the empty list for [n < 0]. *)
Definition most_common (n : Z) (c : list (K * nat)) : list (K * nat) :=
  firstn (Z.to_nat n) (sorted_by_count_desc c).

End Counter.

(** [sorted(d.items())] for a dict from [str] to counts: ascending on the
    pairs, the key first. *)
Definition item_ltb (x y : str * nat) : bool :=
  Str.ltb (fst x) (fst y) || (Str.eqb (fst x) (fst y) && (snd x <? snd y)).

Fixpoint insert_asc (x : str * nat) (l : list (str * nat)) : list (str * nat) :=
  match l with
  | [] => [x]
  | y :: l' => if item_ltb y x then y :: insert_asc x l' else x :: l
  end.

Definition sorted_items (items : list (str * nat)) : list (str * nat) :=
  fold_right insert_asc [] items.

(** [d[key].append(x)] and [d[key].extend(xs)] on a [defaultdict(list)]. *)
Fixpoint dd_extend {A : Type} (key : string) (xs : list A)
  (d : list (string * list A)) : list (string * list A) :=
  match d with
  | [] => [(key, xs)]
  | (k, l) :: d' =>
      if String.eqb k key then (k, l ++ xs) :: d'
      else (k, l) :: dd_extend key xs d'
  end.

Definition dd_append {A : Type} (key : string) (x : A)
  (d : list (string * list A)) : list (string * list A) :=
  dd_extend key [x] d.


End Py.
Import Py.

(* ------------------------------------------------------------------ *)
(** ** [LogAnalyzer] *)

Record LogAnalyzer : Type := mk_LogAnalyzer { log_entries : list LogEntry }.

Module Analyzer.

(** A call of a filter method: its outcome and the analyzer object after
    the call.  No filter assigns to [self]. *)
Definition call (R : Type) : Type := (outcome R * LogAnalyzer)%type.

Definition in_date_range (start_date end_date : datetime) (entry : LogEntry) : bool :=
  dt_leb start_date (timestamp entry) && dt_leb (timestamp entry) end_date.

Definition filter_by_date_range (self : LogAnalyzer)
  (start_date end_date : datetime) : call (list LogEntry) :=
  (Returned (comprehension (in_date_range start_date end_date)
               (log_entries self)), self).

Definition filter_by_ip (self : LogAnalyzer) (ip : str) : call (list LogEntry) :=
  (Returned (comprehension (fun entry => Str.eqb (ip_address entry) ip)
               (log_entries self)), self).

Definition filter_by_method (self : LogAnalyzer) (meth : str)
  : call (list LogEntry) :=
  (Returned (comprehension (fun entry => Str.eqb (method entry) (str_upper meth))
               (log_entries self)), self).

Definition filter_by_status_code (self : LogAnalyzer) (code : Z)
  : call (list LogEntry) :=
  (Returned (comprehension (fun entry => Z.eqb (status_code entry) code)
               (log_entries self)), self).

Definition in_code_range (start_code end_code : Z) (entry : LogEntry) : bool :=
  Z.leb start_code (status_code entry) && Z.leb (status_code entry) end_code.

Definition filter_by_status_code_range (self : LogAnalyzer)
  (start_code end_code : Z) : call (list LogEntry) :=
  (Returned (comprehension (in_code_range start_code end_code)
               (log_entries self)), self).

Section PathPattern.
(** The caller's pattern goes through [re.compile], which covers the whole
    pattern language; compilation and search are taken as given.  A
    pattern that is not valid makes [re.compile] raise [re.error]; some
    patterns make it raise another exception ([OverflowError],
    [RecursionError], [ValueError]).  The method catches none of them. *)
Variable compiled : Type.
Variable re_compile : str -> outcome compiled.
Variable compiled_search : compiled -> str -> bool.

Definition filter_by_path_pattern (self : LogAnalyzer) (pattern : str)
  : call (list LogEntry) :=
  match re_compile pattern with
  | Raised exc => (Raised exc, self)
  | Returned regex =>
      (Returned (comprehension (fun entry => compiled_search regex (path entry))
                   (log_entries self)), self)
  end.

End PathPattern.

Definition get_top_ips (self : LogAnalyzer) (limit : Z) : list (str * nat) :=
  most_common limit (Counter Str.eqb (map ip_address (log_entries self))).

Definition get_top_paths (self : LogAnalyzer) (limit : Z) : list (str * nat) :=
  most_common limit (Counter Str.eqb (map path (log_entries self))).

Definition get_status_code_distribution (self : LogAnalyzer) : list (Z * nat) :=
  Counter Z.eqb (map status_code (log_entries self)).

Definition get_method_distribution (self : LogAnalyzer) : list (str * nat) :=
  Counter Str.eqb (map method (log_entries self)).

Definition get_hourly_distribution (self : LogAnalyzer) : list (Z * nat) :=
  let hour_counter :=
    Counter Z.eqb (map (fun entry => hour (timestamp entry)) (log_entries self)) in
  map (fun h => (h, get Z.eqb hour_counter h 0)) (range 24).

Definition get_daily_distribution (self : LogAnalyzer) : list (str * nat) :=
  Counter Str.eqb
    (map (fun entry => date_isoformat (timestamp entry)) (log_entries self)).

(** The rows that [LogAnalyzerCLI.display_daily_distribution] prints:
    [sorted(daily_dist.items())]. *)
Definition display_daily_distribution (self : LogAnalyzer) : list (str * nat) :=
  sorted_items (get_daily_distribution self).

Definition get_total_bandwidth (self : LogAnalyzer) : Z :=
  fold_left Z.add (map response_size (log_entries self)) 0%Z.

Definition get_average_response_size (self : LogAnalyzer) : outcome pynum :=
  match log_entries self with
  | [] => Returned (PyInt 0)
  | _ :: _ =>
      true_div (get_total_bandwidth self) (Z.of_nat (length (log_entries self)))
  end.

(** The pattern of the source, compiled with IGNORECASE: a group of eight
    alternatives, namely an apostrophe, a double quote, the words or, and,
    union between runs of [\s], the words select, drop before a run of
    [\s], and two dashes. *)
Definition sql_injection_pattern : regex :=
  Group (Chr (Ascii.eqb "'") <|> Chr (Ascii.eqb dq) <|>
         (Plus is_space ;; ILit "or" ;; Plus is_space) <|>
         (Plus is_space ;; ILit "and" ;; Plus is_space) <|>
         (Plus is_space ;; ILit "union" ;; Plus is_space) <|>
         (ILit "select" ;; Plus is_space) <|>
         (ILit "drop" ;; Plus is_space) <|>
         Lit "--").

(** Two dots followed by a slash or by a backslash. *)
Definition path_traversal_pattern : regex :=
  Group (Lit "../" <|> Lit "..\").

(** [entry.status_code == 404] *)
Definition is_404 (entry : LogEntry) : bool := Z.eqb (status_code entry) 404.

Definition detect_potential_attacks (self : LogAnalyzer)
  : list (string * list LogEntry) :=
  let entries := log_entries self in
  let d0 : list (string * list LogEntry) := [] in
  let d1 :=
    fold_left (fun d entry =>
                 if re_search sql_injection_pattern (path entry)
                 then dd_append "sql_injection" entry d else d) entries d0 in
  let d2 :=
    fold_left (fun d entry =>
                 if re_search path_traversal_pattern (path entry)
                 then dd_append "path_traversal" entry d else d) entries d1 in
  let ip_404_counts :=
    fold_left (fun c entry =>
                 if is_404 entry then incr Str.eqb (ip_address entry) c else c)
              entries [] in
  fold_left (fun d (item : str * nat) =>
               let (ip, count) := item in
               if 10 <? count
               then dd_extend "excessive_404s"
                      (comprehension
                         (fun entry => Str.eqb (ip_address entry) ip && is_404 entry)
                         entries) d
               else d) ip_404_counts d2.

End Analyzer.
Import Analyzer.

(* ------------------------------------------------------------------ *)
(** ** Vocabulary of the statements *)

Inductive subseq {A : Type} : list A -> list A -> Prop :=
| subseq_nil : subseq [] []
| subseq_skip x l1 l2 : subseq l1 l2 -> subseq l1 (x :: l2)
| subseq_take x l1 l2 : subseq l1 l2 -> subseq (x :: l1) (x :: l2).


(** What it means for a call to be the pure filter of the store by
    [pred]: it returns the records that satisfy [pred], in the order of
    the store, and leaves the analyzer as it was. *)
Definition pure_filter (self : LogAnalyzer) (pred : LogEntry -> bool)
  (c : call (list LogEntry)) : Prop :=
  c = (Returned (filter pred (log_entries self)), self) /\
  subseq (filter pred (log_entries self)) (log_entries self).

(** Lexicographic comparison of integer vectors, of which [dt_compare] is
    the instance of length six. *)
Fixpoint lex_compare (a b : list Z) : comparison :=
  match a, b with
  | x :: a', y :: b' => then_cmp (x ?= y)%Z (lex_compare a' b')
  | _, _ => Eq
  end.

Definition dt_fields (d : datetime) : list Z :=
  [year d; month d; day d; hour d; minute d; second d].

(** The line of the comment above [COMMON_LOG_PATTERN]. *)
Definition example_line : str :=
  lit "192.168.1.1 - - [19/Apr/2023:13:55:36 +0000] " ++ dq ::
  lit "GET /index.html HTTP/1.1" ++ dq :: lit " 200 2326".

Definition example_entry : LogEntry :=
  mk_LogEntry example_line (mk_datetime 2023 4 19 13 55 36)
    (lit "192.168.1.1") (lit "GET") (lit "/index.html") 200 2326 None None.

Section Frequencies.
Variable K : Type.
Variable keqb : K -> K -> bool.

(** How often [k] occurs in [xs]. *)
Definition count (k : K) (xs : list K) : nat :=
  length (filter (fun x => keqb x k) xs).

(** The distinct elements of [xs], each at its first occurrence. *)
Fixpoint distinct (xs : list K) : list K :=
  match xs with
  | [] => []
  | x :: xs' => x :: filter (fun k => negb (keqb k x)) (distinct xs')
  end.

(** [k1] is met in [xs] before [k2] is: some occurrence of [k1] has no
    [k2] in front of it. *)
Definition first_before (k1 k2 : K) (xs : list K) : Prop :=
  exists l1 l2, xs = l1 ++ k1 :: l2 /\ ~ In k2 l1 /\ k1 <> k2.

End Frequencies.

(** [x] stands before [y] in [l]: [x] occurs and [y] occurs later. *)
Inductive before {A : Type} (x y : A) : list A -> Prop :=
| before_here l : In y l -> before x y (x :: l)
| before_later z l : before x y l -> before x y (z :: l).

(** The contract of a top-N method [top] over the field values [keys]
    of the store: nothing for N = 0; every distinct value with its
    frequency once N reaches the number of records; and of two values of
    equal frequency, the one met first in the store comes first. *)
Definition top_n_spec (keys : list str) (top : Z -> list (str * nat)) : Prop :=
  top 0%Z = [] /\
  (forall n, (Z.of_nat (length keys) <= n)%Z ->
     Permutation (top n)
       (map (fun k => (k, count Str.eqb k keys)) (distinct Str.eqb keys))) /\
  (forall n k1 k2 c,
     In (k2, c) (top n) -> count Str.eqb k1 keys = c ->
     first_before k1 k2 keys ->
     before (k1, c) (k2, c) (top n)).

(** Every timestamp of the store is a [datetime] object. *)
Definition well_formed (self : LogAnalyzer) : Prop :=
  Forall (fun e => valid_datetime (timestamp e) = true) (log_entries self).

(** The number of records of the store whose hour of day is [h]. *)
Definition records_at_hour (self : LogAnalyzer) (h : Z) : nat :=
  length (filter (fun e => Z.eqb (hour (timestamp e)) h) (log_entries self)).

(** The 404 records of one client address, in the order of the store. *)
Definition records_404_of (self : LogAnalyzer) (ip : str) : list LogEntry :=
  filter (fun e => Str.eqb (ip_address e) ip && is_404 e) (log_entries self).


(** Two datetimes on the same calendar date. *)
Definition same_date (a b : datetime) : bool :=
  match date_compare a b with Eq => true | _ => false end.

(** The number of records of the store on the calendar date of [d]. *)
Definition records_on_date (self : LogAnalyzer) (d : datetime) : nat :=
  length (filter (fun e => same_date (timestamp e) d) (log_entries self)).

(** The order of two items by their keys. *)
Definition key_lt (x y : str * nat) : Prop := Str.ltb (fst x) (fst y) = true.

(** A line in the combined format: the example line followed by a quoted
    referer and a quoted user agent. *)
Definition combined_line : str :=
  example_line ++ lit " " ++ dq :: lit "http://example.com/" ++ dq ::
  lit " " ++ dq :: lit "Mozilla/5.0" ++ [dq].

Definition example_groups : list str :=
  [lit "192.168.1.1"; lit "19/Apr/2023:13:55:36 +0000"; lit "GET";
   lit "/index.html"; lit "200"; lit "2326"].


(** A second record, of another client on the next day. *)
Definition second_entry : LogEntry :=
  mk_LogEntry (lit "") (mk_datetime 2023 4 20 8 0 0)
    (lit "10.0.0.2") (lit "GET") (lit "/about.html") 404 512 None None.

Definition two_records : LogAnalyzer :=
  mk_LogAnalyzer [example_entry; second_entry].

(* ------------------------------------------------------------------ *)
(** ** Readers: what the parts of the log patterns do to a text *)

Module Reader.

(** The text after the literal [l], if the text starts with it. *)
Fixpoint expects (l : str) (w : str) : option str :=
  match l with
  | [] => Some w
  | c :: l' =>
      match w with
      | x :: w' => if Ascii.eqb c x then expects l' w' else None
      | [] => None
      end
  end.

(** The text after one character of the class [p]. *)
Definition one (p : ascii -> bool) (w : str) : option str :=
  match w with
  | x :: w' => if p x then Some w' else None
  | [] => None
  end.

(** The text after the longest run of characters of the class [p]. *)
Fixpoint skip (p : ascii -> bool) (w : str) : str :=
  match w with
  | x :: w' => if p x then skip p w' else w
  | [] => []
  end.

(** The longest run of characters of the class [p] at the start. *)
Fixpoint run (p : ascii -> bool) (w : str) : str :=
  match w with
  | x :: w' => if p x then x :: run p w' else []
  | [] => []
  end.

(** The text after a run of at least one character of the class [p]. *)
Definition run1 (p : ascii -> bool) (w : str) : option str :=
  match w with
  | x :: w' => if p x then Some (skip p w') else None
  | [] => None
  end.

End Reader.
Import Reader.

(** A continuation that fails on every text that starts in the class [p]:
    a greedy run of [p] before it never gives a character back. *)
Definition rejects {A : Type} (p : ascii -> bool)
  (k : str -> list str -> option A) : Prop :=
  forall c s caps, p c = true -> k (c :: s) caps = None.

(** [match.groups()] and the rest of the text, the last continuation of
    [re_match]. *)
Definition finish (s : str) (caps : list str) : option (list str * str) :=
  Some (caps, s).

(** The number of groups of a pattern without groups under [Alt]. *)
Fixpoint ngroups (r : regex) : nat :=
  match r with
  | Seq r1 r2 => ngroups r1 + ngroups r2
  | Group r1 => S (ngroups r1)
  | _ => 0
  end.

Fixpoint flat (r : regex) : bool :=
  match r with
  | Seq r1 r2 => flat r1 && flat r2
  | Group r1 => flat r1
  | Alt r1 r2 => (ngroups r1 =? 0) && (ngroups r2 =? 0) && flat r1 && flat r2
  | _ => true
  end.

(** The same reading on a text continued by [t]. *)
Definition ext1 (t : str) (o : option str) : option str :=
  match o with Some w => Some (w ++ t) | None => None end.

(** The text [z] lies ahead in [w]. *)
Definition ahead (z w : str) : Prop := exists u, w = u ++ z.

Notation "'let?' x ':=' e 'in' f" :=
  (match e with Some x => f | None => None end)
  (at level 10, x pattern, f at level 200).

(** The four numbers of the address. *)
Definition IP : regex :=
  Plus is_digit ;; Lit "." ;; Plus is_digit ;; Lit "." ;;
  Plus is_digit ;; Lit "." ;; Plus is_digit.

(** The common pattern from the protocol version on. *)
Definition COMMON_END : regex :=
  Lit " HTTP/" ;; Chr is_digit ;; Lit "." ;; Chr is_digit ;;
  Chr (Ascii.eqb dq) ;; Lit " " ;;
  Group (Plus is_digit) ;; Lit " " ;; Group (Plus is_digit).

(** The common pattern from the end of the timestamp on. *)
Definition COMMON_REQUEST : regex :=
  Lit "] " ;; Chr (Ascii.eqb dq) ;; Group (Plus is_upper) ;; Lit " " ;;
  Group (LazyStar not_nl) ;; COMMON_END.

(** What [COMMON_END] reads: the texts before and after the status code
    and before and after the response size. *)
Definition end_read (w : str) : option (str * str * str * str) :=
  let? w1 := expects (lit " HTTP/") w in
  let? w2 := one is_digit w1 in
  let? w3 := expects (lit ".") w2 in
  let? w4 := one is_digit w3 in
  let? w5 := one (Ascii.eqb dq) w4 in
  let? w6 := expects (lit " ") w5 in
  let? w7 := run1 is_digit w6 in
  let? w8 := expects (lit " ") w7 in
  let? w9 := run1 is_digit w8 in
  Some (w6, w7, w8, w9).

(** What [COMMON_REQUEST] reads before the path: the texts before and
    after the method, and the text from the path on. *)
Definition request_rest (w : str) : option (str * str * str) :=
  let? w1 := expects (lit " ") w in
  let? z1 := one (Ascii.eqb dq) w1 in
  let? z2 := run1 is_upper z1 in
  let? z3 := expects (lit " ") z2 in
  Some (z1, z2, z3).

Definition request_read (z : str) : option (str * str * str) :=
  let? z0 := expects (lit "]") z in request_rest z0.

(** What the common pattern reads before the timestamp: the text after
    the address and the text from the timestamp on. *)
Definition ip_read (s : str) : option (str * str) :=
  let? a1 := run1 is_digit s in
  let? a2 := expects (lit ".") a1 in
  let? a3 := run1 is_digit a2 in
  let? a4 := expects (lit ".") a3 in
  let? a5 := run1 is_digit a4 in
  let? a6 := expects (lit ".") a5 in
  let? s0 := run1 is_digit a6 in
  let? s1 := expects (lit " - - [") s0 in
  Some (s0, s1).

(** The common match of a text that is continued by [t]: the same groups
    and the rest followed by [t]; when the match ended with the text, the
    last group goes on through the digits that [t] starts with. *)
Definition continued (t : str) (r : list str * str) : list str * str :=
  let (g, rest) := r in
  match rest with
  | [] => (removelast g ++ [last g [] ++ run is_digit t], skip is_digit t)
  | _ :: _ => (g, rest ++ t)
  end.

(* ------------------------------------------------------------------ *)
(** ** Further vocabulary *)

(** An item counts at least as much as another. *)
Definition count_ge {K : Type} (a b : K * nat) : Prop := snd b <= snd a.

(** A ranking [tops] of the values [keys] cut at [n]: the counts do not
    increase along the list, the list has [n] items or all the distinct
    values if they are fewer, each item carries the number of occurrences
    of its value, and no value left out occurs more often than one that
    is listed. *)
Definition ranking (keys : list str) (n : Z) (tops : list (str * nat)) : Prop :=
  StronglySorted count_ge tops /\
  length tops = Nat.min (Z.to_nat n) (length (distinct Str.eqb keys)) /\
  (forall k c, In (k, c) tops -> c = count Str.eqb k keys /\ 0 < c) /\
  (forall k c k',
      In (k, c) tops -> In k' keys -> ~ In k' (map fst tops) ->
      count Str.eqb k' keys <= c).

(** A histogram [h] of the values [xs]: one item for each value that
    occurs, with the number of its occurrences, and the counts add up to
    the number of values. *)
Definition histogram {K : Type} (keqb : K -> K -> bool) (xs : list K)
  (h : list (K * nat)) : Prop :=
  (forall k n, In (k, n) h <-> 0 < n /\ n = count keqb k xs) /\
  NoDup (map fst h) /\
  list_sum (map snd h) = length xs.

(* ------------------------------------------------------------------ *)
(** ** More of Python text *)

Module PyText.

(** The decimal digits of a natural number, most significant first; the
    fuel bounds the number of digits. *)
Fixpoint dec (fuel : nat) (n : Z) : str :=
  match fuel with
  | 0 => []
  | S f =>
      if (n <? 10)%Z then [digit_char n]
      else dec f (n / 10) ++ [digit_char n]
  end.

(** [str(n)], the text an f-string puts for an [int]. *)
Definition py_str (n : Z) : str :=
  if (n <? 0)%Z
  then "-"%char :: dec (S (Z.to_nat (Z.log2 (- n)))) (- n)
  else dec (S (Z.to_nat (Z.log2 n))) n.

(** [s.lstrip()] and [s.strip()]: white space is cut off at the ends. *)
Fixpoint lstrip (s : str) : str :=
  match s with
  | c :: s' => if is_space c then lstrip s' else s
  | [] => []
  end.

Definition strip (s : str) : str := rev (lstrip (rev (lstrip s))).

(** [enumerate(l, start)] *)
Definition enumerate {A : Type} (start : nat) (l : list A) : list (nat * A) :=
  combine (seq start (length l)) l.

End PyText.
Import PyText.

(* ------------------------------------------------------------------ *)
(** ** [LogParser.parse_log_file]

    The loop over the lines of the opened file.  The state of the loop is
    the list [log_entries] and the lines printed so far; a file that
    cannot be opened raises before the loop starts. *)

Module LogFile.

(** The warning of the source for a line that is not parsed: the number
    of the line and its first 50 characters. *)
Definition could_not_parse (line_num : nat) (line : str) : str :=
  lit "Warning: Could not parse line " ++ py_str (Z.of_nat line_num)
  ++ lit ": " ++ firstn 50 line ++ lit "...".

Definition read_line (st : list LogEntry * list str) (numbered : nat * str)
  : list LogEntry * list str :=
  let (log_entries, printed) := st in
  let (line_num, line0) := numbered in
  let line := strip line0 in
  match line with
  | [] => st
  | _ :: _ =>
      match parse_log_line line with
      | Some log_entry => (log_entries ++ [log_entry], printed)
      | None => (log_entries, printed ++ [could_not_parse line_num line])
      end
  end.

Definition parse_log_file (lines : list str) : list LogEntry * list str :=
  fold_left read_line (enumerate 1 lines) ([], []).

End LogFile.
Import LogFile.

(** The lines of a file that count: stripped, and not blank. *)
Definition content_lines (lines : list str) : list str :=
  filter (fun l => negb (Str.eqb l [])) (map strip lines).

(** Whether a stripped line is parsed. *)
Definition parses (line : str) : bool :=
  match parse_log_line line with Some _ => true | None => false end.



(* ------------------------------------------------------------------ *)
(** ** The dictionary of [detect_potential_attacks] *)

(** The item of a category: none when nothing is listed, for a key of a
    [defaultdict] exists only once it has been written to. *)
Definition category {A : Type} (key : string) (l : list A)
  : list (string * list A) :=
  match l with
  | [] => []
  | _ :: _ => [(key, l)]
  end.

(** The records whose path is found suspicious by a pattern. *)
Definition flagged_by (r : regex) (self : LogAnalyzer) : list LogEntry :=
  filter (fun e => re_search r (path e)) (log_entries self).

(** The client addresses with a 404 record, in the order of their first
    404 record in the store. *)
Definition addresses_404 (self : LogAnalyzer) : list str :=
  distinct Str.eqb (map ip_address (filter is_404 (log_entries self))).

(** The 404 records of the addresses that have more than 10 of them,
    address after address. *)
Definition grouped_404s (self : LogAnalyzer) : list LogEntry :=
  flat_map (fun ip => if 10 <? length (records_404_of self ip)
                      then records_404_of self ip else [])
           (addresses_404 self).

(* ------------------------------------------------------------------ *)
(** ** What a pattern reads

    [reads r w g]: the pattern [r] can match the text [w] as a whole,
    closing the groups [g] on the way. *)

Fixpoint reads (r : regex) (w : str) (g : list str) : Prop :=
  match r with
  | Eps => w = [] /\ g = []
  | Chr p => (exists c, w = [c] /\ p c = true) /\ g = []
  | Seq r1 r2 =>
      exists w1 w2 g1 g2,
        w = w1 ++ w2 /\ g = g1 ++ g2 /\ reads r1 w1 g1 /\ reads r2 w2 g2
  | Alt r1 r2 => reads r1 w g \/ reads r2 w g
  | Star p => forallb p w = true /\ g = []
  | Plus p => w <> [] /\ forallb p w = true /\ g = []
  | LazyStar p => forallb p w = true /\ g = []
  | Group r1 => exists g1, reads r1 w g1 /\ g = g1 ++ [w]
  end.

(** A text that an attacker's SQL would contain, as the source pattern
    has it: a quote, two dashes, one of the words or, and, union between
    two white space characters, or one of the words select, drop before
    a white space character; the words in any mix of cases. *)
Definition sql_token (w : str) : Prop :=
  w = lit "'" \/ w = [dq] \/ w = lit "--" \/
  (exists c1 k c2,
      w = c1 :: k ++ [c2] /\ is_space c1 = true /\ is_space c2 = true /\
      In (map lower k) [lit "or"; lit "and"; lit "union"]) \/
  (exists k c,
      w = k ++ [c] /\ is_space c = true /\
      In (map lower k) [lit "select"; lit "drop"]).

(** [w] occurs in [s]. *)
Definition occurs_in (w s : str) : Prop := exists a b, s = a ++ w ++ b.

(* ------------------------------------------------------------------ *)
(** ** The text of a log line *)

(** A run of one or more characters of a class. *)
Definition run_of (p : ascii -> bool) (s : str) : Prop :=
  s <> [] /\ forallb p s = true.

(** Four runs of digits with dots between them. *)
Definition dotted_quad (ip : str) : Prop :=
  exists a b c d,
    ip = a ++ lit "." ++ b ++ lit "." ++ c ++ lit "." ++ d /\
    run_of is_digit a /\ run_of is_digit b /\
    run_of is_digit c /\ run_of is_digit d.

(** The text that the common pattern reads, put together from its six
    fields and the two digits of the protocol version. *)
Definition common_text (ip ts meth pth : str) (d1 d2 : ascii)
  (status size : str) : str :=
  ip ++ lit " - - [" ++ ts ++ lit "] " ++ dq :: meth ++ lit " " ++ pth
  ++ lit " HTTP/" ++ d1 :: lit "." ++ d2 :: dq :: lit " " ++ status
  ++ lit " " ++ size.

(** The two quoted fields that the combined pattern reads after that. *)
Definition combined_tail_text (ref ua : str) : str :=
  lit " " ++ dq :: ref ++ dq :: lit " " ++ dq :: ua ++ [dq].

(* ------------------------------------------------------------------ *)
(** ** The match that the matcher finds first *)

(** [first_choice P r w g]: before any text that satisfies [P], the
    pattern [r] reads [w] with the groups [g] and goes on, whenever what
    follows the pattern succeeds from there; no other way of matching
    [r] is tried before this one. *)
Definition first_choice (P : str -> Prop) (r : regex) (w : str)
  (g : list str) : Prop :=
  forall (A : Type) (s' : str) (caps : list str)
         (k : str -> list str -> option A) (x : A),
    P s' -> k s' (caps ++ g) = Some x -> m r (w ++ s') caps k = Some x.

(** [r] fails at the start of [s], whatever follows the pattern. *)
Definition refuses (r : regex) (s : str) : Prop :=
  forall (A : Type) (caps : list str) (k : str -> list str -> option A),
    m r s caps k = None.

(** The text does not start with a character of the class [p]. *)
Definition not_starting (p : ascii -> bool) (s : str) : Prop :=
  match s with
  | c :: _ => p c = false
  | [] => True
  end.

Definition any_text (s : str) : Prop := True.

(** The character [c] does not occur in the text. *)
Definition without (c : ascii) (s : str) : bool :=
  forallb (fun x => negb (Ascii.eqb x c)) s.

(* ------------------------------------------------------------------ *)
(** ** [generate_sample_log]

    The lines are put together from random choices; the choices are the
    arguments of [sample_line]. *)

Module Sample.

(** The abbreviated month names of [strftime], in the C locale. *)
Definition month_name (mo : Z) : str :=
  nth (Z.to_nat (mo - 1))
      (map lit ["Jan"; "Feb"; "Mar"; "Apr"; "May"; "Jun";
                "Jul"; "Aug"; "Sep"; "Oct"; "Nov"; "Dec"]%string) [].

(** [log_date.strftime(<dq>%d/%b/%Y:%H:%M:%S<dq>)], for a year of four
    digits. *)
Definition strftime (d : datetime) : str :=
  pad2 (day d) ++ lit "/" ++ month_name (month d) ++ lit "/"
  ++ pad4 (year d) ++ lit ":" ++ pad2 (hour d) ++ lit ":"
  ++ pad2 (minute d) ++ lit ":" ++ pad2 (second d).

(** The f-string of the source:
    [{ip} - - [{date_str} +0000] <dq>{method} {path} HTTP/1.1<dq> {status} {size} <dq>-<dq> <dq>{user_agent}<dq>] *)
Definition sample_line (ip : str) (log_date : datetime) (method path : str)
  (status size : Z) (user_agent : str) : str :=
  let date_str := strftime log_date in
  ip ++ lit " - - [" ++ date_str ++ lit " +0000] " ++ dq :: method
  ++ lit " " ++ path ++ lit " HTTP/1.1" ++ dq :: lit " " ++ py_str status
  ++ lit " " ++ py_str size ++ lit " " ++ dq :: lit "-" ++ dq :: lit " "
  ++ dq :: user_agent ++ [dq].

Definition ips : list str :=
  map lit ["192.168.1.1"; "192.168.1.2"; "192.168.1.3"; "10.0.0.1";
           "10.0.0.2"]%string.

Definition paths : list str :=
  map lit ["/index.html"; "/about.html"; "/contact.html";
           "/products/item1.html"; "/products/item2.html";
           "/admin/login.php"; "/images/logo.png"; "/css/style.css";
           "/js/script.js"; "/api/data"]%string.

Definition methods : list str := map lit ["GET"; "POST"; "PUT"; "DELETE"]%string.

Definition status_codes : list Z :=
  [200; 201; 301; 302; 400; 401; 403; 404; 500; 503]%Z.

Definition user_agents : list str :=
  map lit
    ["Mozilla/5.0 (Windows NT 10.0; Win64; x64) AppleWebKit/537.36 (KHTML, like Gecko) Chrome/91.0.4472.124 Safari/537.36";
     "Mozilla/5.0 (Macintosh; Intel Mac OS X 10_15_7) AppleWebKit/605.1.15 (KHTML, like Gecko) Version/14.1.1 Safari/605.1.15";
     "Mozilla/5.0 (X11; Linux x86_64) AppleWebKit/537.36 (KHTML, like Gecko) Chrome/92.0.4515.107 Safari/537.36"]%string.

Definition sql_injection_paths : list str :=
  map lit ["/search?q=1' OR '1'='1";
           "/login?username=admin'--&password=anything";
           "/products?id=1 UNION SELECT username,password FROM users";
           "/profile?id=1; DROP TABLE users";
           "/api/data?filter=name='admin' OR 1=1"]%string.

Definition path_traversal_paths : list str :=
  map lit ["/../../etc/passwd"; "/../../../etc/shadow";
           "/images/../../config.php"; "/download?file=../../../etc/passwd";
           "/theme/../../config/database.php"]%string.

(** [f<dq>/not-found-{n}.html<dq>] *)
Definition not_found_path (n : Z) : str :=
  lit "/not-found-" ++ py_str n ++ lit ".html".

End Sample.
Import Sample.

(** The number of double quotes in a text. *)
Definition quotes (s : str) : nat := length (filter (Ascii.eqb dq) s).

(** A date that the generator can draw: [start_date] plus some seconds
    up to [end_date - start_date] lies in April 2023. *)
Definition in_april_2023 (d : datetime) : Prop :=
  valid_datetime d = true /\ year d = 2023%Z /\ month d = 4%Z.

(** The choices of the four loops of [generate_sample_log]: the address,
    the date, the method, the path, the status, the size and the user
    agent of a line it can write. *)
Inductive drawn : str -> datetime -> str -> str -> Z -> Z -> str -> Prop :=
| drawn_normal ip d meth pth status size ua :
    In ip ips -> in_april_2023 d -> In meth methods -> In pth paths ->
    In status status_codes -> (100 <= size <= 10000)%Z ->
    In ua user_agents ->
    drawn ip d meth pth status size ua
| drawn_sql_injection d pth size ua :
    in_april_2023 d -> In pth sql_injection_paths ->
    (100 <= size <= 500)%Z -> In ua user_agents ->
    drawn (lit "192.168.1.100") d (lit "GET") pth 400%Z size ua
| drawn_path_traversal d pth size ua :
    in_april_2023 d -> In pth path_traversal_paths ->
    (100 <= size <= 500)%Z -> In ua user_agents ->
    drawn (lit "10.0.0.100") d (lit "GET") pth 404%Z size ua
| drawn_not_found d n size ua :
    in_april_2023 d -> (1 <= n <= 100)%Z ->
    (100 <= size <= 500)%Z -> In ua user_agents ->
    drawn (lit "192.168.1.200") d (lit "GET") (not_found_path n) 404%Z size ua.

(* ------------------------------------------------------------------ *)
(** ** [LogAnalyzer.generate_summary_report] *)

Module Report.

Local Open Scope Z_scope.

(** [a < b] on datetimes. *)
Definition dt_ltb (a b : datetime) : bool :=
  match dt_compare a b with Lt => true | _ => false end.

(** [min] and [max] of a sequence that is not empty: a later item takes
    the place of the current one when it is smaller (larger). *)
Definition py_min (first : datetime) (others : list datetime) : datetime :=
  fold_left (fun current t => if dt_ltb t current then t else current)
            others first.

Definition py_max (first : datetime) (others : list datetime) : datetime :=
  fold_left (fun current t => if dt_gtb t current then t else current)
            others first.

(** [d.isoformat()] of a naive datetime without microseconds. *)
Definition isoformat (d : datetime) : str :=
  date_isoformat d ++ lit "T" ++ pad2 (hour d) ++ lit ":"
  ++ pad2 (minute d) ++ lit ":" ++ pad2 (second d).

(** The day number of a date, as [datetime] computes it. *)
Definition DAYS_BEFORE_MONTH : list Z :=
  [-1; 0; 31; 59; 90; 120; 151; 181; 212; 243; 273; 304; 334].

Definition days_before_year (y : Z) : Z :=
  let y1 := y - 1 in y1 * 365 + y1 / 4 - y1 / 100 + y1 / 400.

Definition days_before_month (y mo : Z) : Z :=
  nth (Z.to_nat mo) DAYS_BEFORE_MONTH 0
  + (if (2 <? mo) && is_leap y then 1 else 0).

Definition toordinal (d : datetime) : Z :=
  days_before_year (year d) + days_before_month (year d) (month d) + day d.

Definition seconds_of_day (d : datetime) : Z :=
  hour d * 3600 + minute d * 60 + second d.

(** A [timedelta], normalised: the seconds lie in a day. *)
Record timedelta : Type := mk_timedelta { td_days : Z; td_seconds : Z }.

(** [a - b] on datetimes. *)
Definition dt_sub (a b : datetime) : timedelta :=
  let days := toordinal a - toordinal b in
  let secs := seconds_of_day a - seconds_of_day b in
  mk_timedelta (days + secs / 86400) (secs mod 86400).

(** The dictionary of the report.  [span_days] is the float
    [time_span.days + (time_span.seconds / 86400)], kept as its two
    terms. *)
Record summary : Type := mk_summary {
  total_requests : nat;
  date_range_start : str;
  date_range_end : str;
  span_days : Z * pynum;
  top_ips : list (str * nat);
  top_paths : list (str * nat);
  status_codes : list (Z * nat);
  methods : list (str * nat);
  total_bandwidth : Z;
  average_response_size : pynum;
  potential_attacks : list (string * nat)
}.

(** What the method returns: the dictionary with the single key
    [error], or the report. *)
Inductive report : Type :=
| No_log_entries_to_analyze
| Summary (s : summary).

(** The method catches nothing: the [OverflowError] of the average
    leaves it. *)
Definition generate_summary_report (self : LogAnalyzer) : outcome report :=
  match log_entries self with
  | [] => Returned No_log_entries_to_analyze
  | entry :: entries =>
      let start_date := py_min (timestamp entry) (map timestamp entries) in
      let end_date := py_max (timestamp entry) (map timestamp entries) in
      let time_span := dt_sub end_date start_date in
      match get_average_response_size self with
      | Raised exc => Raised exc
      | Returned average =>
          Returned (Summary (mk_summary
            (length (log_entries self))
            (isoformat start_date)
            (isoformat end_date)
            (td_days time_span, TrueDiv (td_seconds time_span) 86400)
            (get_top_ips self 5)
            (get_top_paths self 5)
            (get_status_code_distribution self)
            (get_method_distribution self)
            (get_total_bandwidth self)
            average
            (map (fun item : string * list LogEntry =>
                    (fst item, length (snd item)))
                 (detect_potential_attacks self))))
      end
  end.

End Report.
Import Report.

(** The earliest and the latest timestamp of a store. *)
Definition earliest (self : LogAnalyzer) (t : datetime) : Prop :=
  (exists e, In e (log_entries self) /\ timestamp e = t) /\
  forall e, In e (log_entries self) -> dt_leb t (timestamp e) = true.

Definition latest (self : LogAnalyzer) (t : datetime) : Prop :=
  (exists e, In e (log_entries self) /\ timestamp e = t) /\
  forall e, In e (log_entries self) -> dt_leb (timestamp e) t = true.

(* ------------------------------------------------------------------ *)
(** ** [LogAnalyzerCLI.apply_filters]

    The filters of the command line.  What is printed is left out; the
    outcome is the list handed to the new [LogAnalyzer], or the
    exception that leaves the method because no handler of it catches
    it. *)

Module CLI.

(** The attributes of [args] that [apply_filters] reads; an option that
    is not given is [None]. *)
Record Namespace : Type := mk_Namespace {
  filter_ip : option str;
  filter_method : option str;
  filter_status : option Z;
  filter_path : option str;
  start_date : option str;
  end_date : option str
}.

(** [if x:] on an optional text and on an optional number. *)
Definition given_text (o : option str) : option str :=
  match o with
  | Some (c :: s) => Some (c :: s)
  | _ => None
  end.

Definition given_number (o : option Z) : option Z :=
  match o with
  | Some z => if Z.eqb z 0 then None else Some z
  | None => None
  end.

(** The month of [%m]. *)
Definition re_m : regex :=
  (Chr (Ascii.eqb "1") ;; Chr (between "0" "2")) <|>
  (Chr (Ascii.eqb "0") ;; Chr (between "1" "9")) <|>
  Chr (between "1" "9").

(** [datetime.strptime(data, <dq>%Y-%m-%d<dq>)]; [None] stands for
    [ValueError]. *)
Definition strptime_date (data : str) : option datetime :=
  match re_match (Group re_Y ;; Lit "-" ;; Group re_m ;; Lit "-" ;; Group re_d)
                 data with
  | Some (g, []) =>
      match py_int (group g 0), py_int (group g 1),
            py_int (skip_blank (group g 2)) with
      | Some y, Some mo, Some d => make_datetime y mo d 0 0 0
      | _, _, _ => None
      end
  | _ => None
  end.

(** [d + datetime.timedelta(days=1)]; [None] stands for the
    [OverflowError] after the last day of the year 9999. *)
Definition add_one_day (d : datetime) : option datetime :=
  if (day d <? days_in_month (year d) (month d))%Z
  then Some (mk_datetime (year d) (month d) (day d + 1)
               (hour d) (minute d) (second d))
  else if (month d <? 12)%Z
  then Some (mk_datetime (year d) (month d + 1) 1
               (hour d) (minute d) (second d))
  else if (year d <? 9999)%Z
  then Some (mk_datetime (year d + 1) 1 1 (hour d) (minute d) (second d))
  else None.

Section Filters.
(** [re.compile] and the search of a compiled pattern, as for
    [filter_by_path_pattern].  The handler of the path filter catches
    [re.error] only. *)
Variable compiled : Type.
Variable re_compile : str -> outcome compiled.
Variable compiled_search : compiled -> str -> bool.

(** The path filter on the records filtered so far. *)
Definition path_filter (args : Namespace) (filtered_entries : list LogEntry)
  : outcome (list LogEntry) :=
  match given_text (filter_path args) with
  | Some pattern =>
      match re_compile pattern with
      | Returned regex =>
          Returned (comprehension
                      (fun entry => compiled_search regex (path entry))
                      filtered_entries)
      | Raised re_error => Returned filtered_entries
      | Raised exc => Raised exc
      end
  | None => Returned filtered_entries
  end.

Definition apply_filters (log_entries : list LogEntry) (args : Namespace)
  : outcome (list LogEntry) :=
  let filtered_entries := log_entries in
  let filtered_entries :=
    match given_text (filter_ip args) with
    | Some ip =>
        comprehension (fun entry => Str.eqb (ip_address entry) ip)
                      filtered_entries
    | None => filtered_entries
    end in
  let filtered_entries :=
    match given_text (filter_method args) with
    | Some meth =>
        comprehension (fun entry => Str.eqb (method entry) (str_upper meth))
                      filtered_entries
    | None => filtered_entries
    end in
  let filtered_entries :=
    match given_number (filter_status args) with
    | Some status =>
        comprehension (fun entry => Z.eqb (status_code entry) status)
                      filtered_entries
    | None => filtered_entries
    end in
  match path_filter args filtered_entries with
  | Raised exc => Raised exc
  | Returned filtered_entries =>
      let filtered_entries :=
        match given_text (start_date args) with
        | Some text =>
            match strptime_date text with
            | Some start =>
                comprehension (fun entry => dt_leb start (timestamp entry))
                              filtered_entries
            | None => filtered_entries
            end
        | None => filtered_entries
        end in
      match given_text (end_date args) with
      | Some text =>
          match strptime_date text with
          | Some day_given =>
              match add_one_day day_given with
              | Some end_ =>
                  Returned (comprehension
                              (fun entry => dt_leb (timestamp entry) end_)
                              filtered_entries)
              | None => Raised OverflowError
              end
          | None => Returned filtered_entries
          end
      | None => Returned filtered_entries
      end
  end.

End Filters.

End CLI.
Import CLI.

Section Wanted.
Variable compiled : Type.
Variable re_compile : str -> outcome compiled.
Variable compiled_search : compiled -> str -> bool.

(** What the options of the command line ask of a record: each option
    that is given and understood asks for one thing. *)
Definition wanted (args : Namespace) (e : LogEntry) : bool :=
  match given_text (filter_ip args) with
  | Some ip => Str.eqb (ip_address e) ip
  | None => true
  end &&
  match given_text (filter_method args) with
  | Some meth => Str.eqb (method e) (str_upper meth)
  | None => true
  end &&
  match given_number (filter_status args) with
  | Some status => Z.eqb (status_code e) status
  | None => true
  end &&
  match given_text (filter_path args) with
  | Some pattern =>
      match re_compile pattern with
      | Returned regex => compiled_search regex (path e)
      | Raised _ => true
      end
  | None => true
  end &&
  match given_text (start_date args) with
  | Some text =>
      match strptime_date text with
      | Some start => dt_leb start (timestamp e)
      | None => true
      end
  | None => true
  end &&
  match given_text (end_date args) with
  | Some text =>
      match strptime_date text with
      | Some day_given =>
          match add_one_day day_given with
          | Some end_ => dt_leb (timestamp e) end_
          | None => true
          end
      | None => true
      end
  | None => true
  end.

End Wanted.

(** The exception with which the path option leaves [apply_filters], if
    any: what [re.compile] raises on it, unless it is [re.error]. *)
Definition path_failure {compiled : Type}
  (re_compile : str -> outcome compiled) (args : Namespace)
  : option exception :=
  match given_text (filter_path args) with
  | Some pattern =>
      match re_compile pattern with
      | Raised re_error => None
      | Raised exc => Some exc
      | Returned _ => None
      end
  | None => None
  end.

(** No option given. *)
Definition no_filters : Namespace :=
  mk_Namespace None None None None None None.
(* ------------------------------------------------------------------ *)
(** ** Text *)

Lemma str_eqb_spec (a b : str) : reflect (a = b) (Str.eqb a b).
Proof.
  revert b; induction a as [|x a IH]; intros [|y b]; simpl;
    try (constructor; congruence).
  destruct (Ascii.eqb_spec x y) as [->|N]; simpl.
  - destruct (IH b) as [->|N]; constructor; congruence.
  - constructor; congruence.
Qed.


Lemma str_eqb_eq (a b : str) : Str.eqb a b = true <-> a = b.
Proof. destruct (str_eqb_spec a b); split; congruence. Qed.

(* ------------------------------------------------------------------ *)
(** ** List comprehensions and subsequences *)

#[local] Hint Constructors subseq : core.


Lemma comprehension_acc {A : Type} (cond : A -> bool) (xs acc : list A) :
  fold_left (fun acc e => if cond e then acc ++ [e] else acc) xs acc
  = acc ++ filter cond xs.
Proof.
  revert acc; induction xs as [|x xs IH]; intros acc; simpl.
  - now rewrite app_nil_r.
  - rewrite IH. destruct (cond x); [|reflexivity].
    now rewrite <- app_assoc.
Qed.

Lemma comprehension_filter {A : Type} (cond : A -> bool) (xs : list A) :
  comprehension cond xs = filter cond xs.
Proof. unfold comprehension. now rewrite comprehension_acc. Qed.

Lemma filter_subseq {A : Type} (cond : A -> bool) (xs : list A) :
  subseq (filter cond xs) xs.
Proof.
  induction xs as [|x xs IH]; simpl; [constructor|].
  destruct (cond x); auto.
Qed.


Lemma pure_filter_intro (self : LogAnalyzer) (pred : LogEntry -> bool) :
  pure_filter self pred
    (Returned (comprehension pred (log_entries self)), self).
Proof.
  split; [now rewrite comprehension_filter | apply filter_subseq].
Qed.

(* ------------------------------------------------------------------ *)
(** ** The order of datetimes *)

Lemma then_cmp_Gt (c1 c2 : comparison) :
  then_cmp c1 c2 = Gt <-> c1 = Gt \/ (c1 = Eq /\ c2 = Gt).
Proof. destruct c1, c2; simpl; intuition congruence. Qed.

Lemma then_cmp_Eq (c1 c2 : comparison) :
  then_cmp c1 c2 = Eq <-> c1 = Eq /\ c2 = Eq.
Proof. destruct c1, c2; simpl; intuition congruence. Qed.


Lemma dt_compare_lex (a b : datetime) :
  dt_compare a b = lex_compare (dt_fields a) (dt_fields b).
Proof.
  unfold dt_compare; simpl.
  now destruct (second a ?= second b)%Z, (minute a ?= minute b)%Z,
    (hour a ?= hour b)%Z, (day a ?= day b)%Z, (month a ?= month b)%Z,
    (year a ?= year b)%Z.
Qed.

Lemma lex_compare_trans_le (a b c : list Z) :
  length a = length b -> length b = length c ->
  lex_compare a b <> Gt -> lex_compare b c <> Gt -> lex_compare a c <> Gt.
Proof.
  revert b c; induction a as [|x a IH]; intros [|y b] [|z c]; simpl;
    try discriminate; try congruence.
  intros La Lb. injection La as La. injection Lb as Lb.
  specialize (IH b c La Lb).
  destruct (Z.compare_spec x y), (Z.compare_spec y z), (Z.compare_spec x z);
    simpl; try lia; try congruence; auto.
Qed.

Lemma dt_leb_trans (a b c : datetime) :
  dt_leb a b = true -> dt_leb b c = true -> dt_leb a c = true.
Proof.
  unfold dt_leb. rewrite !dt_compare_lex. intros H1 H2.
  assert (H : lex_compare (dt_fields a) (dt_fields c) <> Gt).
  { apply lex_compare_trans_le with (b := dt_fields b); try reflexivity.
    - destruct (lex_compare (dt_fields a) (dt_fields b)); congruence.
    - destruct (lex_compare (dt_fields b) (dt_fields c)); congruence. }
  destruct (lex_compare (dt_fields a) (dt_fields c)); congruence.
Qed.

Lemma dt_gtb_not_leb (a b : datetime) : dt_gtb a b = negb (dt_leb a b).
Proof. unfold dt_gtb, dt_leb. now destruct (dt_compare a b). Qed.

Lemma empty_date_range (start_date end_date : datetime) (l : list LogEntry) :
  dt_gtb start_date end_date = true ->
  filter (in_date_range start_date end_date) l = [].
Proof.
  intros G. induction l as [|e l IH]; simpl; [reflexivity|].
  unfold in_date_range at 1.
  destruct (dt_leb start_date (timestamp e)) eqn:E1;
    destruct (dt_leb (timestamp e) end_date) eqn:E2; simpl; auto.
  rewrite dt_gtb_not_leb, (dt_leb_trans _ _ _ E1 E2) in G. discriminate.
Qed.

(* ------------------------------------------------------------------ *)
(** ** Parsing the example line *)

(** C2: the line of the source comment,
    192.168.1.1 - - [19/Apr/2023:13:55:36 +0000] followed by the quoted
    request GET /index.html HTTP/1.1 and by 200 2326, is parsed into a
    record with client address 192.168.1.1, method GET, path /index.html,
    status code 200, response size 2326, and neither referer nor user
    agent. *)
Theorem parse_example_line :
  parse_log_line example_line = Some example_entry /\
  ip_address example_entry = lit "192.168.1.1" /\
  method example_entry = lit "GET" /\
  path example_entry = lit "/index.html" /\
  status_code example_entry = 200%Z /\
  response_size example_entry = 2326%Z /\
  referer example_entry = None /\
  user_agent example_entry = None.
Proof. repeat split; vm_compute; reflexivity. Qed.

(* ------------------------------------------------------------------ *)
(** ** Filters *)

(** C3: each of the six filters returns the records of the store that
    satisfy its predicate, in the order of the store (a subsequence of
    it), and leaves the analyzer unchanged; the path filter does so for
    every pattern that compiles, and otherwise raises what [re.compile]
    raises, [re.error] for a pattern that is not valid. *)
Theorem filters_are_pure_and_order_preserving (self : LogAnalyzer) :
  (forall start_date end_date,
      pure_filter self (in_date_range start_date end_date)
        (filter_by_date_range self start_date end_date)) /\
  (forall ip,
      pure_filter self (fun e => Str.eqb (ip_address e) ip)
        (filter_by_ip self ip)) /\
  (forall meth,
      pure_filter self (fun e => Str.eqb (method e) (str_upper meth))
        (filter_by_method self meth)) /\
  (forall code,
      pure_filter self (fun e => Z.eqb (status_code e) code)
        (filter_by_status_code self code)) /\
  (forall start_code end_code,
      pure_filter self (in_code_range start_code end_code)
        (filter_by_status_code_range self start_code end_code)) /\
  (forall (compiled : Type) (re_compile : str -> outcome compiled)
          (compiled_search : compiled -> str -> bool) (pattern : str),
      match re_compile pattern with
      | Returned regex =>
          pure_filter self (fun e => compiled_search regex (path e))
            (filter_by_path_pattern re_compile compiled_search self pattern)
      | Raised exc =>
          filter_by_path_pattern re_compile compiled_search self pattern
          = (Raised exc, self)
      end).
Proof.
  repeat split; intros; try apply pure_filter_intro;
    try apply comprehension_filter; try apply filter_subseq.
  unfold filter_by_path_pattern.
  destruct (re_compile pattern); [apply pure_filter_intro | reflexivity].
Qed.

(** C8, as the source has it: a date range whose start is after its end
    raises nothing; the filter returns the empty list and the analyzer is
    unchanged. *)
Theorem inverted_date_range_returns_empty
  (self : LogAnalyzer) (start_date end_date : datetime) :
  dt_gtb start_date end_date = true ->
  filter_by_date_range self start_date end_date = (Returned [], self).
Proof.
  intros G. unfold filter_by_date_range.
  now rewrite comprehension_filter, empty_date_range.
Qed.

Lemma inverted_date_range_witness :
  dt_gtb (mk_datetime 2023 5 1 0 0 0) (mk_datetime 2023 4 1 0 0 0) = true /\
  filter_by_date_range (mk_LogAnalyzer [example_entry])
    (mk_datetime 2023 5 1 0 0 0) (mk_datetime 2023 4 1 0 0 0)
  = (Returned [], mk_LogAnalyzer [example_entry]).
Proof.
  split; [reflexivity|].
  apply (inverted_date_range_returns_empty (mk_LogAnalyzer [example_entry])
           (mk_datetime 2023 5 1 0 0 0) (mk_datetime 2023 4 1 0 0 0)).
  reflexivity.
Defined.

(** C8 as stated fails: on a store of one record, the range from
    2023-05-01 to 2023-04-01 has its start after its end, yet the call
    raises no exception. *)
Lemma inverted_date_range_raises_nothing :
  dt_gtb (mk_datetime 2023 5 1 0 0 0) (mk_datetime 2023 4 1 0 0 0) = true /\
  ~ (exists exc,
        fst (filter_by_date_range (mk_LogAnalyzer [example_entry])
               (mk_datetime 2023 5 1 0 0 0) (mk_datetime 2023 4 1 0 0 0))
        = Raised exc).
Proof.
  split; [reflexivity|].
  intros [exc H]. vm_compute in H. discriminate H.
Qed.

(* ------------------------------------------------------------------ *)
(** ** Bandwidth *)

(** C7: on the empty store the total bandwidth is the integer 0 and the
    average response size is the integer 0: it is returned, nothing is
    raised, and no division takes place. *)
Theorem empty_store_bandwidth :
  get_total_bandwidth (mk_LogAnalyzer []) = 0%Z /\
  get_average_response_size (mk_LogAnalyzer []) = Returned (PyInt 0).
Proof. split; reflexivity. Qed.

(* ------------------------------------------------------------------ *)
(** ** Counters *)

Section CounterFacts.
Variable K : Type.
Variable keqb : K -> K -> bool.
Hypothesis keqb_spec : forall a b, reflect (a = b) (keqb a b).

Lemma keqb_refl (a : K) : keqb a a = true.
Proof. destruct (keqb_spec a a); congruence. Qed.

Lemma keqb_neq (a b : K) : a <> b -> keqb a b = false.
Proof. destruct (keqb_spec a b); congruence. Qed.

Lemma In_distinct (k : K) (xs : list K) : In k (distinct keqb xs) <-> In k xs.
Proof.
  induction xs as [|x xs IH]; simpl; [tauto|].
  rewrite filter_In, IH.
  destruct (keqb_spec k x) as [->|N]; simpl; intuition congruence.
Qed.

Lemma NoDup_distinct (xs : list K) : NoDup (distinct keqb xs).
Proof.
  induction xs as [|x xs IH]; simpl; constructor.
  - rewrite filter_In, keqb_refl. simpl. intros [_ H]; discriminate.
  - now apply NoDup_filter.
Qed.

Lemma distinct_snoc (xs : list K) (x : K) :
  distinct keqb (xs ++ [x])
  = if existsb (fun k => keqb k x) xs then distinct keqb xs
    else distinct keqb xs ++ [x].
Proof.
  induction xs as [|a xs IH]; simpl; [reflexivity|].
  rewrite IH. destruct (keqb_spec a x) as [->|N]; simpl.
  - destruct (existsb (fun k => keqb k x) xs); [reflexivity|].
    rewrite filter_app; simpl. rewrite keqb_refl; simpl.
    now rewrite app_nil_r.
  - destruct (existsb (fun k => keqb k x) xs); [reflexivity|].
    rewrite filter_app; simpl.
    rewrite (keqb_neq (a := x) (b := a)) by congruence. reflexivity.
Qed.

Lemma existsb_keqb (xs : list K) (x : K) :
  existsb (fun k => keqb k x) xs = true <-> In x xs.
Proof.
  rewrite existsb_exists. split.
  - intros [k [I E]]. destruct (keqb_spec k x); congruence.
  - intros I. exists x. split; [assumption | apply keqb_refl].
Qed.

Lemma count_snoc (k x : K) (xs : list K) :
  count keqb k (xs ++ [x])
  = count keqb k xs + (if keqb x k then 1 else 0).
Proof.
  unfold count. rewrite filter_app, length_app; simpl.
  now destruct (keqb x k).
Qed.

Lemma count_zero (k : K) (xs : list K) : ~ In k xs -> count keqb k xs = 0.
Proof.
  unfold count. induction xs as [|x xs IH]; simpl; [reflexivity|].
  intros N. destruct (keqb_spec x k) as [->|_]; [tauto|]. apply IH; tauto.
Qed.

Lemma count_pos (k : K) (xs : list K) : In k xs -> 0 < count keqb k xs.
Proof.
  unfold count. induction xs as [|x xs IH]; simpl; [tauto|].
  intros [->|I].
  - rewrite keqb_refl; simpl; lia.
  - destruct (keqb x k); simpl; [lia | auto].
Qed.

Lemma incr_known (x : K) (c : K -> nat) (keys : list K) :
  NoDup keys -> In x keys ->
  incr keqb x (map (fun k => (k, c k)) keys)
  = map (fun k => (k, c k + (if keqb x k then 1 else 0))) keys.
Proof.
  induction keys as [|a keys IH]; simpl; [tauto|].
  intros ND I. inversion ND as [|? ? Na ND']; subst.
  destruct (keqb_spec a x) as [->|N].
  - rewrite keqb_refl. f_equal; [f_equal; lia|].
    apply map_ext_in. intros k Ik.
    rewrite (keqb_neq (a := x) (b := k)) by (intros ->; tauto).
    f_equal; lia.
  - rewrite (keqb_neq (a := x) (b := a)) by congruence.
    f_equal; [f_equal; lia|]. apply IH; [assumption|].
    destruct I; [congruence | assumption].
Qed.

Lemma incr_new (x : K) (c : K -> nat) (keys : list K) :
  ~ In x keys ->
  incr keqb x (map (fun k => (k, c k)) keys)
  = map (fun k => (k, c k)) keys ++ [(x, 1)].
Proof.
  induction keys as [|a keys IH]; simpl; [reflexivity|].
  intros N. rewrite (keqb_neq (a := a) (b := x)) by tauto.
  f_equal. apply IH; tauto.
Qed.

(** A counter lists the distinct elements in the order they were first
    met, each with the number of its occurrences. *)
Lemma Counter_spec (xs : list K) :
  Counter keqb xs = map (fun k => (k, count keqb k xs)) (distinct keqb xs).
Proof.
  induction xs as [|x xs IH] using rev_ind; [reflexivity|].
  unfold Counter in *. rewrite fold_left_app; simpl. rewrite IH.
  rewrite distinct_snoc.
  destruct (existsb (fun k => keqb k x) xs) eqn:E.
  - apply existsb_keqb in E.
    rewrite incr_known; [|apply NoDup_distinct | now apply In_distinct].
    apply map_ext. intros k. now rewrite count_snoc.
  - assert (N : ~ In x xs) by (rewrite <- existsb_keqb; congruence).
    rewrite incr_new by now rewrite In_distinct.
    rewrite map_app; simpl. f_equal.
    + apply map_ext_in. intros k Ik. rewrite count_snoc.
      rewrite (keqb_neq (a := x) (b := k)); [now rewrite Nat.add_0_r|].
      intros Exk. apply N. rewrite Exk. now apply In_distinct.
    + rewrite count_snoc, count_zero by assumption.
      now rewrite keqb_refl.
Qed.

Lemma get_map (c : K -> nat) (keys : list K) (k : K) (default : nat) :
  get keqb (map (fun k => (k, c k)) keys) k default
  = if existsb (fun k' => keqb k' k) keys then c k else default.
Proof.
  induction keys as [|a keys IH]; simpl; [reflexivity|].
  destruct (keqb_spec a k) as [->|N]; simpl; [reflexivity | apply IH].
Qed.

Lemma get_Counter (xs : list K) (k : K) :
  get keqb (Counter keqb xs) k 0 = count keqb k xs.
Proof.
  rewrite Counter_spec, get_map.
  destruct (existsb (fun k' => keqb k' k) (distinct keqb xs)) eqn:E;
    [reflexivity|].
  symmetry. apply count_zero. rewrite <- In_distinct, <- existsb_keqb.
  congruence.
Qed.

End CounterFacts.

Arguments In_distinct {K keqb} keqb_spec k xs.
Arguments NoDup_distinct {K keqb} keqb_spec xs.
Arguments Counter_spec {K keqb} keqb_spec xs.
Arguments get_Counter {K keqb} keqb_spec xs k.
Arguments count_zero {K keqb} keqb_spec k xs.
Arguments count_pos {K keqb} keqb_spec k xs.
Arguments keqb_neq {K keqb} keqb_spec {a b} _.
Arguments keqb_refl {K keqb} keqb_spec a.

(* ------------------------------------------------------------------ *)
(** ** Hourly distribution *)

Lemma count_map {A K : Type} (keqb : K -> K -> bool) (f : A -> K)
  (k : K) (l : list A) :
  count keqb k (map f l) = length (filter (fun a => keqb (f a) k) l).
Proof.
  unfold count. induction l as [|a l IH]; simpl; [reflexivity|].
  destruct (keqb (f a) k); simpl; now rewrite IH.
Qed.

Lemma list_sum_map_add {A : Type} (f g : A -> nat) (l : list A) :
  list_sum (map (fun a => f a + g a) l)
  = list_sum (map f l) + list_sum (map g l).
Proof. induction l as [|a l IH]; simpl; [reflexivity | rewrite IH; lia]. Qed.

Lemma one_hour_bucket (x : Z) :
  (0 <= x <= 23)%Z ->
  list_sum (map (fun h => if Z.eqb x h then 1 else 0) (range 24)) = 1.
Proof.
  intros B.
  assert (H : exists n, n < 24 /\ x = Z.of_nat n).
  { exists (Z.to_nat x). split; lia. }
  destruct H as [n [L ->]].
  do 24 (destruct n as [|n]; [reflexivity|]). lia.
Qed.

Lemma hour_buckets_total (l : list LogEntry) :
  Forall (fun e => valid_datetime (timestamp e) = true) l ->
  list_sum
    (map (fun h => length (filter (fun e => Z.eqb (hour (timestamp e)) h) l))
       (range 24))
  = length l.
Proof.
  induction 1 as [|e l V _ IH].
  - reflexivity.
  - assert (B : (0 <= hour (timestamp e) <= 23)%Z).
    { unfold valid_datetime in V.
      repeat (apply andb_true_iff in V; destruct V as [V ?]). lia. }
    rewrite (map_ext _
      (fun h => (if Z.eqb (hour (timestamp e)) h then 1 else 0)
                + length (filter (fun e => Z.eqb (hour (timestamp e)) h) l))).
    + rewrite list_sum_map_add, IH, (one_hour_bucket B). reflexivity.
    + intros h. simpl. now destruct (Z.eqb (hour (timestamp e)) h).
Qed.

(** C4: for every store the hourly distribution has exactly the 24 keys
    0, 1, ..., 23 in this order, each with the number of records at that
    hour (0 where there is none), and, the timestamps being datetimes, the
    24 counts add up to the number of records. *)
Theorem hourly_distribution_spec (self : LogAnalyzer) :
  get_hourly_distribution self
  = map (fun h => (h, records_at_hour self h)) (range 24) /\
  map fst (get_hourly_distribution self) = range 24 /\
  length (get_hourly_distribution self) = 24 /\
  (well_formed self ->
   list_sum (map snd (get_hourly_distribution self))
   = length (log_entries self)).
Proof.
  assert (E : get_hourly_distribution self
              = map (fun h => (h, records_at_hour self h)) (range 24)).
  { unfold get_hourly_distribution. apply map_ext. intros h.
    rewrite (get_Counter Z.eqb_spec). unfold records_at_hour.
    now rewrite count_map. }
  split; [exact E|]. rewrite E.
  split; [now rewrite map_map, map_id|].
  split; [now rewrite length_map|].
  intros W. rewrite map_map. cbn [snd]. apply hour_buckets_total, W.
Qed.

(* ------------------------------------------------------------------ *)
(** ** Excessive 404 responses *)





Lemma fold_incr_filter {A K : Type} (keqb : K -> K -> bool)
  (cond : A -> bool) (f : A -> K) (l : list A) (c : list (K * nat)) :
  fold_left (fun c a => if cond a then incr keqb (f a) c else c) l c
  = fold_left (fun c k => incr keqb k c) (map f (filter cond l)) c.
Proof.
  revert c; induction l as [|a l IH]; intros c; simpl; [reflexivity|].
  destruct (cond a); simpl; apply IH.
Qed.


Lemma flat_map_nil {A B : Type} (f : A -> list B) (l : list A) :
  (forall a, In a l -> f a = []) -> flat_map f l = [].
Proof.
  induction l as [|a l IH]; simpl; intros H; [reflexivity|].
  rewrite (H a), IH; auto.
Qed.


Lemma filter_filter_and {A : Type} (p q : A -> bool) (l : list A) :
  filter p (filter q l) = filter (fun a => p a && q a) l.
Proof.
  induction l as [|a l IH]; simpl; [reflexivity|].
  destruct (q a), (p a) eqn:P; simpl; rewrite ?P, ?IH; reflexivity.
Qed.


Lemma filter_none {A : Type} (p : A -> bool) (l : list A) :
  (forall a, In a l -> p a = false) -> filter p l = [].
Proof.
  induction l as [|a l IH]; simpl; intros H; [reflexivity|].
  rewrite (H a), IH; auto.
Qed.



(* ------------------------------------------------------------------ *)
(** ** Order of occurrence *)

#[local] Hint Constructors before : core.

Lemma before_In {A : Type} (x y : A) (l : list A) :
  before x y l -> In x l /\ In y l.
Proof. induction 1; simpl; tauto. Qed.

Lemma before_app_r {A : Type} (x y : A) (l1 l2 : list A) :
  before x y l2 -> before x y (l1 ++ l2).
Proof. induction l1; simpl; auto. Qed.

Lemma before_insert_middle {A : Type} (x y z : A) (l1 l2 : list A) :
  before x y (l1 ++ l2) -> before x y (l1 ++ z :: l2).
Proof.
  induction l1 as [|a l1 IH]; simpl; intros H; [auto|].
  inversion H; subst; auto.
  apply before_here. rewrite in_app_iff in *. simpl. tauto.
Qed.

Lemma before_filter {A : Type} (f : A -> bool) (x y : A) (l : list A) :
  before x y l -> f x = true -> f y = true -> before x y (filter f l).
Proof.
  induction 1 as [l I|z l B IH]; intros Fx Fy; simpl.
  - rewrite Fx. apply before_here. apply filter_In. tauto.
  - destruct (f z); auto.
Qed.

Lemma before_map {A B : Type} (f : A -> B) (x y : A) (l : list A) :
  before x y l -> before (f x) (f y) (map f l).
Proof.
  induction 1; simpl; auto. apply before_here. now apply in_map.
Qed.

Lemma before_firstn {A : Type} (x y : A) (l : list A) (n : nat) :
  NoDup l -> before x y l -> In y (firstn n l) -> before x y (firstn n l).
Proof.
  intros ND B. revert n. induction B as [l I|z l B IH]; intros [|n]; simpl;
    try tauto; inversion ND as [|? ? Nz ND']; subst.
  - intros [->|H]; [tauto | auto].
  - intros [->|H]; [|auto].
    apply before_In in B. tauto.
Qed.

Section FirstOccurrence.
Variable K : Type.
Variable keqb : K -> K -> bool.
Hypothesis keqb_spec : forall a b, reflect (a = b) (keqb a b).

Lemma first_before_distinct (k1 k2 : K) (xs : list K) :
  first_before k1 k2 xs -> In k2 xs ->
  before k1 k2 (distinct keqb xs).
Proof.
  intros [l1 [l2 [-> [N D]]]] I.
  assert (I2 : In k2 l2).
  { rewrite in_app_iff in I. simpl in I. intuition congruence. }
  clear I. induction l1 as [|a l1 IH]; simpl.
  - apply before_here. apply filter_In. split.
    + now apply (In_distinct keqb_spec).
    + rewrite (keqb_neq keqb_spec); [reflexivity | congruence].
  - simpl in N. destruct (keqb_spec a k1) as [->|Na].
    + apply before_here. apply filter_In. split.
      * apply (In_distinct keqb_spec). rewrite in_app_iff. simpl. tauto.
      * rewrite (keqb_neq keqb_spec); [reflexivity | congruence].
    + apply before_later. apply before_filter.
      * apply IH. tauto.
      * rewrite (keqb_neq keqb_spec); [reflexivity | congruence].
      * rewrite (keqb_neq keqb_spec); [reflexivity | intros ->; tauto].
Qed.

Lemma length_distinct (xs : list K) : length (distinct keqb xs) <= length xs.
Proof.
  induction xs as [|x xs IH]; simpl; [lia|].
  pose proof (filter_length_le (fun k => negb (keqb k x)) (distinct keqb xs)).
  lia.
Qed.

(* ---------------------------------------------------------------- *)
(** *** The stable sort by decreasing count *)

Lemma insert_desc_split (x : K * nat) (l : list (K * nat)) :
  exists l1 l2,
    insert_desc x l = l1 ++ x :: l2 /\ l = l1 ++ l2 /\
    Forall (fun y => snd x < snd y) l1.
Proof.
  induction l as [|y l IH]; simpl.
  - exists [], []. auto.
  - destruct (Nat.ltb_spec (snd x) (snd y)) as [L|L].
    + destruct IH as [l1 [l2 [E1 [E2 F]]]].
      exists (y :: l1), l2. simpl. rewrite E1, E2. auto.
    + exists [], (y :: l). auto.
Qed.

Lemma sorted_by_count_desc_perm (l : list (K * nat)) :
  Permutation (sorted_by_count_desc l) l.
Proof.
  induction l as [|x l IH]; simpl; [constructor|].
  destruct (insert_desc_split x (sorted_by_count_desc l))
    as [l1 [l2 [E1 [E2 _]]]].
  rewrite E1. rewrite E2 in IH.
  symmetry. apply Permutation_cons_app. now symmetry.
Qed.

(** Stability: an item that comes earlier and counts no less stays
    earlier. *)
Lemma sorted_by_count_desc_stable (x y : K * nat) (l : list (K * nat)) :
  before x y l -> snd y <= snd x -> before x y (sorted_by_count_desc l).
Proof.
  induction 1 as [l I|z l B IH]; intros L; simpl.
  - destruct (insert_desc_split x (sorted_by_count_desc l))
      as [l1 [l2 [E1 [E2 F]]]].
    rewrite E1. apply before_app_r, before_here.
    assert (I' : In y (l1 ++ l2)).
    { rewrite <- E2. eapply Permutation_in; [|exact I].
      symmetry. apply sorted_by_count_desc_perm. }
    apply in_app_or in I'. destruct I' as [I'|I']; [|assumption].
    rewrite Forall_forall in F. specialize (F y I'). lia.
  - destruct (insert_desc_split z (sorted_by_count_desc l))
      as [l1 [l2 [E1 [E2 _]]]].
    rewrite E1. apply before_insert_middle. rewrite <- E2. auto.
Qed.

Lemma NoDup_counted (c : K -> nat) (keys : list K) :
  NoDup keys -> NoDup (map (fun k => (k, c k)) keys).
Proof.
  induction 1 as [|k keys N _ IH]; simpl; constructor; [|assumption].
  rewrite in_map_iff. intros [k' [E I]]. congruence.
Qed.

Lemma most_common_spec (keys : list K) (n : Z) :
  let items := map (fun k => (k, count keqb k keys)) (distinct keqb keys) in
  most_common n (Counter keqb keys) = firstn (Z.to_nat n) (sorted_by_count_desc items)
  /\ Permutation (sorted_by_count_desc items) items
  /\ NoDup (sorted_by_count_desc items).
Proof.
  intros items. unfold most_common. rewrite (Counter_spec keqb_spec).
  split; [reflexivity|]. split; [apply sorted_by_count_desc_perm|].
  eapply Permutation_NoDup.
  - symmetry. apply sorted_by_count_desc_perm.
  - apply NoDup_counted, (NoDup_distinct keqb_spec).
Qed.

End FirstOccurrence.

Arguments first_before_distinct {K keqb} keqb_spec k1 k2 xs.
Arguments length_distinct {K} keqb xs.
Arguments most_common_spec {K keqb} keqb_spec keys n.

Lemma most_common_top_n_spec (keys : list str) :
  top_n_spec keys (fun n => most_common n (Counter Str.eqb keys)).
Proof.
  split; [reflexivity|]. split.
  - intros n L.
    destruct (most_common_spec str_eqb_spec keys n) as [E [P _]].
    rewrite E, firstn_all2; [exact P|].
    rewrite (Permutation_length P), length_map.
    pose proof (length_distinct Str.eqb keys). lia.
  - intros n k1 k2 c I C FB.
    destruct (most_common_spec str_eqb_spec keys n) as [E [P ND]].
    rewrite E in *.
    assert (I2 : In (k2, c)
                   (map (fun k => (k, count Str.eqb k keys))
                      (distinct Str.eqb keys))).
    { eapply Permutation_in; [exact P|].
      rewrite <- (firstn_skipn (Z.to_nat n)). apply in_or_app. now left. }
    apply in_map_iff in I2. destruct I2 as [k [Ek Ik]].
    injection Ek as -> Ec.
    apply before_firstn; [assumption | | assumption].
    apply sorted_by_count_desc_stable; [|simpl; lia].
    rewrite <- C at 1. rewrite <- Ec.
    apply (before_map (fun k => (k, count Str.eqb k keys))).
    apply (first_before_distinct str_eqb_spec).
    + exact FB.
    + exact (proj1 (In_distinct str_eqb_spec k2 keys) Ik).
Qed.

(** C5: for the top IPs and for the top paths alike, N = 0 gives the
    empty list; N at least the number of records gives every distinct
    value with its frequency; and of two values of equal frequency the one
    met first in the store is ranked first. *)
Theorem top_n_ips_and_paths (self : LogAnalyzer) :
  top_n_spec (map ip_address (log_entries self)) (get_top_ips self) /\
  top_n_spec (map path (log_entries self)) (get_top_paths self).
Proof. split; apply most_common_top_n_spec. Qed.

(* ------------------------------------------------------------------ *)
(** ** The order of text and the order of dates *)

Lemma code_inj (x y : ascii) : code x = code y -> x = y.
Proof.
  unfold code. intros H.
  rewrite <- (ascii_nat_embedding x), <- (ascii_nat_embedding y).
  now rewrite H.
Qed.

Lemma str_ltb_trans (a b c : str) :
  Str.ltb a b = true -> Str.ltb b c = true -> Str.ltb a c = true.
Proof.
  revert b c; induction a as [|x a IH]; intros [|y b] [|z c]; simpl;
    try discriminate; auto.
  destruct (Nat.ltb_spec (code x) (code y)), (Nat.ltb_spec (code y) (code x)),
    (Nat.ltb_spec (code y) (code z)), (Nat.ltb_spec (code z) (code y)),
    (Nat.ltb_spec (code x) (code z)), (Nat.ltb_spec (code z) (code x));
    try discriminate; try lia; auto.
  apply IH.
Qed.

Lemma str_ltb_total (a b : str) :
  Str.ltb a b = false -> Str.ltb b a = false -> a = b.
Proof.
  revert b; induction a as [|x a IH]; intros [|y b]; simpl;
    try discriminate; auto.
  destruct (Nat.ltb_spec (code x) (code y)), (Nat.ltb_spec (code y) (code x));
    try discriminate; try lia.
  intros H1 H2. f_equal; [apply code_inj; lia | now apply IH].
Qed.

Lemma str_ltb_irrefl (a : str) : Str.ltb a a = false.
Proof.
  induction a as [|x a IH]; simpl; [reflexivity|].
  now rewrite Nat.ltb_irrefl.
Qed.

Lemma code_digit_char (n : Z) :
  code (digit_char n) = 48 + Z.to_nat (n mod 10).
Proof.
  unfold code, digit_char. apply nat_ascii_embedding.
  pose proof (Z.mod_pos_bound n 10). lia.
Qed.

Lemma date_ltb_spec (a b : datetime) :
  date_ltb a b = true <->
  (year a < year b \/
   (year a = year b /\
    (month a < month b \/ (month a = month b /\ day a < day b))))%Z.
Proof.
  unfold date_ltb, date_compare.
  destruct (Z.compare_spec (year a) (year b)),
    (Z.compare_spec (month a) (month b)),
    (Z.compare_spec (day a) (day b)); simpl; split; intros; try lia;
    try discriminate; reflexivity.
Qed.

Lemma valid_date_bounds (d : datetime) :
  valid_datetime d = true ->
  (1 <= year d <= 9999 /\ 1 <= month d <= 12 /\ 1 <= day d <= 31)%Z.
Proof.
  unfold valid_datetime. intros V.
  repeat (apply andb_true_iff in V; destruct V as [V ?]).
  assert (days_in_month (year d) (month d) <= 31)%Z.
  { unfold days_in_month.
    destruct (month d =? 2)%Z; [destruct (is_leap (year d)); lia|].
    destruct ((month d =? 4) || (month d =? 6) || (month d =? 9)
              || (month d =? 11))%Z; lia. }
  lia.
Qed.

Section Digits.
Local Open Scope Z_scope.

Lemma digits4 (x : Z) :
  (0 <= x < 10000)%Z ->
  exists x3 x2 x1 x0 : Z,
    (0 <= x3 <= 9 /\ 0 <= x2 <= 9 /\ 0 <= x1 <= 9 /\ 0 <= x0 <= 9 /\
     (x / 1000) mod 10 = x3 /\ (x / 100) mod 10 = x2 /\
     (x / 10) mod 10 = x1 /\ x mod 10 = x0 /\
     x = 1000 * x3 + 100 * x2 + 10 * x1 + x0)%Z.
Proof.
  intros B.
  exists ((x / 1000) mod 10)%Z, ((x / 100) mod 10)%Z, ((x / 10) mod 10)%Z,
    (x mod 10)%Z.
  pose proof (Z.mod_pos_bound (x / 1000) 10).
  pose proof (Z.mod_pos_bound (x / 100) 10).
  pose proof (Z.mod_pos_bound (x / 10) 10).
  pose proof (Z.mod_pos_bound x 10).
  repeat split; try lia.
  pose proof (Z.div_mod x 10).
  pose proof (Z.div_mod (x / 10) 10).
  pose proof (Z.div_mod (x / 10 / 10) 10).
  pose proof (Z.div_mod (x / 10 / 10 / 10) 10).
  assert (E4 : x / 10 / 10 / 10 / 10 = 0)
    by ((rewrite !Z.div_div by lia); apply Z.div_small; lia).
  replace (x / 100) with (x / 10 / 10) by ((rewrite Z.div_div by lia); reflexivity).
  replace (x / 1000) with (x / 10 / 10 / 10) by ((rewrite !Z.div_div by lia); reflexivity).
  lia.
Qed.
Lemma digits2 (x : Z) :
  (0 <= x < 100)%Z ->
  exists x1 x0 : Z,
    (0 <= x1 <= 9 /\ 0 <= x0 <= 9 /\
     (x / 10) mod 10 = x1 /\ x mod 10 = x0 /\ x = 10 * x1 + x0)%Z.
Proof.
  intros B. exists ((x / 10) mod 10)%Z, (x mod 10)%Z.
  pose proof (Z.mod_pos_bound (x / 10) 10).
  pose proof (Z.mod_pos_bound x 10).
  repeat split; try lia.
  pose proof (Z.div_mod x 10).
  pose proof (Z.div_mod (x / 10) 10).
  assert (E2 : x / 10 / 10 = 0)
    by ((rewrite !Z.div_div by lia); apply Z.div_small; lia).
  lia.
Qed.

End Digits.

(** Text order on two texts cut at the same length. *)
Lemma str_ltb_app (a a' b b' : str) :
  length a = length a' ->
  Str.ltb (a ++ b) (a' ++ b')
  = if Str.ltb a a' then true
    else if Str.ltb a' a then false else Str.ltb b b'.
Proof.
  revert a'; induction a as [|x a IH]; intros [|y a']; simpl;
    try discriminate.
  - intros _. now destruct (Str.ltb b b').
  - intros L. injection L as L.
    destruct (code x <? code y); [reflexivity|].
    destruct (code y <? code x); [reflexivity|]. now apply IH.
Qed.

Lemma pad4_ltb (x y : Z) :
  (0 <= x < 10000)%Z -> (0 <= y < 10000)%Z ->
  Str.ltb (pad4 x) (pad4 y) = (x <? y)%Z.
Proof.
  intros Bx By.
  destruct (digits4 Bx) as (x3 & x2 & x1 & x0 & ? & ? & ? & ? & E3 & E2 & E1 & E0 & Ex).
  destruct (digits4 By) as (y3 & y2 & y1 & y0 & ? & ? & ? & ? & F3 & F2 & F1 & F0 & Ey).
  unfold pad4. cbn [Str.ltb]. rewrite !code_digit_char.
  rewrite E3, E2, E1, E0, F3, F2, F1, F0.
  clear E3 E2 E1 E0 F3 F2 F1 F0.
  repeat match goal with
  | |- context [?a <? ?b] => destruct (Nat.ltb_spec a b)
  end; symmetry; try (apply Z.ltb_lt; lia); apply Z.ltb_ge; lia.
Qed.

Lemma pad2_ltb (x y : Z) :
  (0 <= x < 100)%Z -> (0 <= y < 100)%Z ->
  Str.ltb (pad2 x) (pad2 y) = (x <? y)%Z.
Proof.
  intros Bx By.
  destruct (digits2 Bx) as (x1 & x0 & ? & ? & E1 & E0 & Ex).
  destruct (digits2 By) as (y1 & y0 & ? & ? & F1 & F0 & Ey).
  unfold pad2. cbn [Str.ltb]. rewrite !code_digit_char.
  rewrite E1, E0, F1, F0. clear E1 E0 F1 F0.
  repeat match goal with
  | |- context [?a <? ?b] => destruct (Nat.ltb_spec a b)
  end; symmetry; try (apply Z.ltb_lt; lia); apply Z.ltb_ge; lia.
Qed.

(** On datetimes, the text order of [date_isoformat] is the order of the
    calendar dates. *)
Lemma isoformat_order (a b : datetime) :
  valid_datetime a = true -> valid_datetime b = true ->
  Str.ltb (date_isoformat a) (date_isoformat b) = date_ltb a b.
Proof.
  intros Va Vb.
  apply valid_date_bounds in Va, Vb.
  unfold date_isoformat.
  rewrite str_ltb_app by reflexivity.
  rewrite (@str_ltb_app (lit "-") (lit "-")) by reflexivity.
  rewrite (@str_ltb_app (pad2 (month a)) (pad2 (month b))) by reflexivity.
  rewrite (@str_ltb_app (lit "-") (lit "-")) by reflexivity.
  rewrite !pad4_ltb, !pad2_ltb by lia.
  rewrite str_ltb_irrefl.
  unfold date_ltb, date_compare.
  destruct (Z.ltb_spec (year a) (year b)), (Z.ltb_spec (year b) (year a)),
    (Z.ltb_spec (month a) (month b)), (Z.ltb_spec (month b) (month a)),
    (Z.ltb_spec (day a) (day b));
    destruct (Z.compare_spec (year a) (year b)),
      (Z.compare_spec (month a) (month b)),
      (Z.compare_spec (day a) (day b)); simpl; try reflexivity; lia.
Qed.

Lemma date_compare_Eq (a b : datetime) :
  date_compare a b = Eq <->
  year a = year b /\ month a = month b /\ day a = day b.
Proof.
  unfold date_compare. rewrite !then_cmp_Eq, !Z.compare_eq_iff. tauto.
Qed.

Lemma isoformat_same_date (a b : datetime) :
  valid_datetime a = true -> valid_datetime b = true ->
  Str.eqb (date_isoformat a) (date_isoformat b) = same_date a b.
Proof.
  intros Va Vb. unfold same_date.
  destruct (str_eqb_spec (date_isoformat a) (date_isoformat b)) as [E|N].
  - pose proof (@isoformat_order a b Va Vb) as H1.
    pose proof (@isoformat_order b a Vb Va) as H2.
    rewrite E, str_ltb_irrefl in H1. rewrite E, str_ltb_irrefl in H2.
    symmetry in H1, H2.
    assert (D : date_compare a b = Eq).
    { apply date_compare_Eq.
      destruct (Z.compare_spec (year a) (year b)) as [Y|Y|Y];
        [destruct (Z.compare_spec (month a) (month b)) as [M|M|M];
         [destruct (Z.compare_spec (day a) (day b)) as [D|D|D]|..]|..];
        try tauto; exfalso.
      all: first
        [ assert (T : date_ltb a b = true) by (apply date_ltb_spec; lia);
          congruence
        | assert (T : date_ltb b a = true) by (apply date_ltb_spec; lia);
          congruence ]. }
    now rewrite D.
  - destruct (date_compare a b) eqn:D; try reflexivity.
    apply date_compare_Eq in D. destruct D as [Y [M D]].
    exfalso. apply N. unfold date_isoformat. now rewrite Y, M, D.
Qed.

(* ------------------------------------------------------------------ *)
(** ** [sorted] on the items of a dict keyed by text *)

Lemma insert_asc_perm (x : str * nat) (l : list (str * nat)) :
  Permutation (insert_asc x l) (x :: l).
Proof.
  induction l as [|y l IH]; simpl; [reflexivity|].
  destruct (item_ltb y x); [|reflexivity].
  rewrite IH. apply perm_swap.
Qed.

Lemma sorted_items_perm (l : list (str * nat)) :
  Permutation (sorted_items l) l.
Proof.
  induction l as [|x l IH]; simpl; [constructor|].
  rewrite insert_asc_perm. now constructor.
Qed.

Lemma insert_asc_sorted (x : str * nat) (l : list (str * nat)) :
  ~ In (fst x) (map fst l) ->
  StronglySorted key_lt l -> StronglySorted key_lt (insert_asc x l).
Proof.
  intros N S. induction S as [|y l S IH F]; simpl.
  - repeat constructor.
  - simpl in N.
    assert (Nxy : fst y <> fst x) by tauto.
    assert (Exy : Str.eqb (fst y) (fst x) = false)
      by (destruct (str_eqb_spec (fst y) (fst x)); congruence).
    unfold item_ltb. rewrite Exy, orb_false_r.
    destruct (Str.ltb (fst y) (fst x)) eqn:L.
    + constructor; [apply IH; tauto|].
      rewrite Forall_forall in *. intros z Iz.
      apply (Permutation_in _ (insert_asc_perm x l)) in Iz.
      destruct Iz as [<-|Iz]; [exact L | now apply F].
    + assert (Lxy : key_lt x y).
      { unfold key_lt. destruct (Str.ltb (fst x) (fst y)) eqn:L'; [reflexivity|].
        exfalso. apply Nxy. symmetry. now apply str_ltb_total. }
      constructor; [now constructor|].
      constructor; [exact Lxy|].
      rewrite Forall_forall in *. intros z Iz.
      unfold key_lt. eapply str_ltb_trans; [exact Lxy | now apply F].
Qed.

Lemma sorted_items_sorted (l : list (str * nat)) :
  NoDup (map fst l) -> StronglySorted key_lt (sorted_items l).
Proof.
  induction l as [|x l IH]; simpl; intros ND; [constructor|].
  inversion ND as [|? ? N ND']; subst.
  apply insert_asc_sorted; [|now apply IH].
  intros I. apply N. apply in_map_iff in I. destruct I as [z [E I]].
  apply in_map_iff. exists z. split; [exact E|].
  eapply Permutation_in; [apply sorted_items_perm | exact I].
Qed.

Lemma before_sorted {A : Type} (R : A -> A -> Prop) (x y : A) (l : list A) :
  StronglySorted R l -> before x y l -> R x y.
Proof.
  intros S B. induction B as [l I|z l B IH].
  - inversion S as [|? ? _ F]; subst. rewrite Forall_forall in F. now apply F.
  - inversion S; subst. now apply IH.
Qed.

(* ------------------------------------------------------------------ *)
(** ** Daily distribution *)

Lemma daily_counts (self : LogAnalyzer) (d : datetime) :
  well_formed self -> valid_datetime d = true ->
  count Str.eqb (date_isoformat d)
    (map (fun e => date_isoformat (timestamp e)) (log_entries self))
  = records_on_date self d.
Proof.
  intros W V. rewrite count_map. unfold records_on_date. f_equal.
  apply filter_ext_in. intros e I.
  apply isoformat_same_date; [|exact V].
  unfold well_formed in W. rewrite Forall_forall in W. now apply W.
Qed.

(** C9, amended: the timestamps being datetimes, the daily distribution
    has one item for each calendar date of the store and no other, and
    the item gives the number of records on that date.  The items stand
    in the order in which their dates are first met in the store, which
    need not be the order of the dates; only the rows that are displayed
    are these items in the ascending order of the dates. *)
Theorem daily_distribution_spec (self : LogAnalyzer) :
  well_formed self ->
  (forall s n,
      In (s, n) (get_daily_distribution self) <->
      exists e, In e (log_entries self) /\
                s = date_isoformat (timestamp e) /\
                n = records_on_date self (timestamp e)) /\
  NoDup (map fst (get_daily_distribution self)) /\
  map fst (get_daily_distribution self)
  = distinct Str.eqb
      (map (fun e => date_isoformat (timestamp e)) (log_entries self)) /\
  Permutation (display_daily_distribution self) (get_daily_distribution self) /\
  (forall e1 e2 n1 n2,
      In e1 (log_entries self) -> In e2 (log_entries self) ->
      before (date_isoformat (timestamp e1), n1)
             (date_isoformat (timestamp e2), n2)
             (display_daily_distribution self) ->
      date_ltb (timestamp e1) (timestamp e2) = true).
Proof.
  intros W.
  assert (V : forall e, In e (log_entries self) ->
                        valid_datetime (timestamp e) = true).
  { unfold well_formed in W. now rewrite Forall_forall in W. }
  set (dates := map (fun e => date_isoformat (timestamp e)) (log_entries self)).
  assert (E : get_daily_distribution self
              = map (fun k => (k, count Str.eqb k dates))
                  (distinct Str.eqb dates)).
  { unfold get_daily_distribution. apply (Counter_spec str_eqb_spec). }
  assert (K : map fst (get_daily_distribution self) = distinct Str.eqb dates).
  { rewrite E, map_map. cbn [fst]. apply map_id. }
  assert (ND : NoDup (map fst (get_daily_distribution self))).
  { rewrite K. apply (NoDup_distinct str_eqb_spec). }
  split; [|split; [exact ND|split; [exact K|split]]].
  - intros s n. rewrite E, in_map_iff. split.
    + intros [k [Ek Ik]]. injection Ek as -> <-.
      apply (proj1 (In_distinct str_eqb_spec _ _)) in Ik.
      apply in_map_iff in Ik. destruct Ik as [e [<- Ie]].
      exists e. repeat split; [exact Ie|].
      apply daily_counts; auto.
    + intros [e [Ie [-> ->]]].
      exists (date_isoformat (timestamp e)). split.
      * f_equal. apply daily_counts; auto.
      * apply (In_distinct str_eqb_spec).
        apply in_map_iff. now exists e.
  - apply sorted_items_perm.
  - intros e1 e2 n1 n2 I1 I2 B.
    rewrite <- isoformat_order by auto.
    apply (before_sorted (sorted_items_sorted _ ND)) in B. exact B.
Qed.

(** C9 as stated fails for [get_daily_distribution]: on a store whose
    first record is of 2023-04-20 and whose second record is of
    2023-04-19, the item of the later date comes first. *)
Lemma daily_distribution_is_not_sorted :
  well_formed (mk_LogAnalyzer [second_entry; example_entry]) /\
  get_daily_distribution (mk_LogAnalyzer [second_entry; example_entry])
  = [(lit "2023-04-20", 1); (lit "2023-04-19", 1)] /\
  date_ltb (timestamp example_entry) (timestamp second_entry) = true.
Proof.
  split; [repeat constructor|]. split; vm_compute; reflexivity.
Qed.

(* ------------------------------------------------------------------ *)
(** ** The matcher *)

Section MatcherFacts.
Variable A : Type.
Implicit Types (k : str -> list str -> option A) (p : ascii -> bool).

Lemma m_Lit (l : string) (s : str) (caps : list str) k :
  m (Lit l) s caps k
  = match expects (lit l) s with Some s' => k s' caps | None => None end.
Proof.
  revert s; induction l as [|c l IH]; intros s; simpl; [reflexivity|].
  destruct s as [|x s]; [reflexivity|].
  destruct (Ascii.eqb c x); [apply IH | reflexivity].
Qed.

Lemma star_greedy_skip p (s : str) (k1 : str -> option A) :
  k1 (skip p s) <> None \/ (forall c s', p c = true -> k1 (c :: s') = None) ->
  star_greedy p s k1 = k1 (skip p s).
Proof.
  intros H. induction s as [|c s IH]; simpl; [reflexivity|].
  destruct (p c) eqn:P; [|reflexivity].
  simpl in H. rewrite P in H. rewrite (IH H).
  destruct (k1 (skip p s)) eqn:E; [reflexivity|].
  destruct H as [H|H]; [congruence | now apply H].
Qed.

Lemma m_Plus p (s : str) (caps : list str) k :
  (forall s', k s' caps <> None) \/ rejects p k ->
  m (Plus p) s caps k
  = match run1 p s with Some s' => k s' caps | None => None end.
Proof.
  intros H. destruct s as [|c s]; simpl; [reflexivity|].
  destruct (p c); [|reflexivity].
  apply star_greedy_skip. destruct H as [H|H]; [left; apply H|].
  right. intros c' s' P. now apply H.
Qed.

(** The first success of a lazy run. *)
Lemma star_lazy_first p (s : str) (k1 : str -> option A) (x : A) :
  star_lazy p s k1 = Some x <->
  exists u z,
    s = u ++ z /\ forallb p u = true /\ k1 z = Some x /\
    (forall u1 u2, u = u1 ++ u2 -> u2 <> [] -> k1 (u2 ++ z) = None).
Proof.
  split.
  - revert x. induction s as [|c s IH]; intros x; simpl.
    + destruct (k1 []) eqn:E; [|discriminate].
      intros H. exists [], []. split; [reflexivity|]. split; [reflexivity|].
      split; [congruence|].
      intros u1 u2 E' Nu2. destruct u1, u2; simpl in E'; congruence.
    + destruct (k1 (c :: s)) eqn:E.
      * intros H. exists [], (c :: s).
        split; [reflexivity|]. split; [reflexivity|]. split; [congruence|].
        intros u1 u2 E' Nu2. destruct u1, u2; simpl in E'; congruence.
      * destruct (p c) eqn:P; [|discriminate].
        intros H. destruct (IH x H) as [u [z [-> [F [K N]]]]].
        exists (c :: u), z. simpl. rewrite P, F.
        split; [reflexivity|]. split; [reflexivity|]. split; [exact K|].
        intros u1 u2 E' Nu2. destruct u1 as [|c1 u1]; simpl in E'.
        -- subst u2. exact E.
        -- injection E' as -> E'. now apply (N u1 u2).
  - intros [u [z [-> [F [K N]]]]]. induction u as [|c u IH]; simpl.
    + destruct z; simpl; now rewrite K.
    + simpl in F. apply andb_true_iff in F. destruct F as [P F].
      assert (E : k1 ((c :: u) ++ z) = None)
        by (apply (N [] (c :: u)); [reflexivity | discriminate]).
      simpl in E. rewrite E, P.
      apply IH; [exact F|].
      intros u1 u2 -> Nu2. now apply (N (c :: u1) u2).
Qed.

(** A lazy run finds a success that is there. *)
Lemma star_lazy_complete p (u z : str) (k1 : str -> option A) :
  forallb p u = true -> k1 z <> None -> star_lazy p (u ++ z) k1 <> None.
Proof.
  intros F K. induction u as [|c u IH]; simpl.
  - destruct z; simpl; destruct (k1 _); congruence.
  - simpl in F. apply andb_true_iff in F. destruct F as [P F].
    destruct (k1 (c :: u ++ z)); [congruence|]. rewrite P. now apply IH.
Qed.

End MatcherFacts.

(** Whether a match succeeds does not depend on the groups collected, and
    a continuation that succeeds more often lets the match succeed more
    often. *)
Lemma m_success_mono {A B : Type} (r : regex) :
  forall (s : str) (caps caps' : list str)
         (k : str -> list str -> option A) (k' : str -> list str -> option B),
    (forall s' c c', k s' c <> None -> k' s' c' <> None) ->
    m r s caps k <> None -> m r s caps' k' <> None.
Proof.
  assert (SG : forall p (s : str) (k1 : str -> option A) (k2 : str -> option B),
             (forall s', k1 s' <> None -> k2 s' <> None) ->
             star_greedy p s k1 <> None -> star_greedy p s k2 <> None).
  { intros p s k1 k2 H. induction s as [|c s IH]; simpl; [apply H|].
    destruct (p c); [|apply H].
    destruct (star_greedy p s k1) eqn:E1.
    - intros _. destruct (star_greedy p s k2) eqn:E2; [congruence|].
      exfalso. apply IH; [discriminate | reflexivity].
    - intros H1. destruct (star_greedy p s k2); [congruence | now apply H]. }
  assert (SL : forall p (s : str) (k1 : str -> option A) (k2 : str -> option B),
             (forall s', k1 s' <> None -> k2 s' <> None) ->
             star_lazy p s k1 <> None -> star_lazy p s k2 <> None).
  { intros p s k1 k2 H. induction s as [|c s IH]; simpl.
    - destruct (k1 []) eqn:E1; [|congruence].
      intros _. destruct (k2 []) eqn:E2; [congruence|].
      exfalso. apply (H []); congruence.
    - destruct (k1 (c :: s)) eqn:E1.
      + intros _. destruct (k2 (c :: s)) eqn:E2; [congruence|].
        exfalso. apply (H (c :: s)); congruence.
      + destruct (p c); [|congruence].
        intros H1. destruct (k2 (c :: s)); [congruence | now apply IH]. }
  induction r as [|p|r1 IH1 r2 IH2|r1 IH1 r2 IH2|p|p|p|r IH];
    intros s caps caps' k k' H; simpl.
  - apply H.
  - destruct s as [|c s]; [congruence|]. destruct (p c); [apply H | congruence].
  - apply IH1. intros s' c c'. apply IH2, H.
  - destruct (m r1 s caps k) eqn:E1.
    + intros _. destruct (m r1 s caps' k') eqn:E2; [congruence|].
      exfalso. apply (IH1 s caps caps' k k' H); congruence.
    + intros H2. destruct (m r1 s caps' k'); [congruence|].
      now apply (IH2 s caps caps' k k' H).
  - apply SG. intros s'. apply H.
  - destruct s as [|c s]; [congruence|]. destruct (p c); [|congruence].
    apply SG. intros s'. apply H.
  - apply SL. intros s'. apply H.
  - apply IH. intros s' c c'. apply H.
Qed.

(** A match hands to its continuation a suffix of the text and the groups
    it had, followed by its own. *)
Lemma m_sound {A : Type} (r : regex) :
  flat r = true ->
  forall (s : str) (caps : list str) (k : str -> list str -> option A) (x : A),
    m r s caps k = Some x ->
    exists pre s' new,
      s = pre ++ s' /\ length new = ngroups r /\ k s' (caps ++ new) = Some x.
Proof.
  assert (SG : forall p (s : str) (k1 : str -> option A) x,
             star_greedy p s k1 = Some x ->
             exists pre s', s = pre ++ s' /\ k1 s' = Some x).
  { intros p s k1 x. induction s as [|c s IH]; simpl.
    - intros H. now exists [], [].
    - destruct (p c); [|intros H; now exists [], (c :: s)].
      destruct (star_greedy p s k1) eqn:E.
      + intros H. destruct (IH H) as [pre [s' [-> K]]].
        exists (c :: pre), s'. split; [reflexivity | exact K].
      + intros H. now exists [], (c :: s). }
  induction r as [|p|r1 IH1 r2 IH2|r1 IH1 r2 IH2|p|p|p|r IH];
    intros F s caps k x; simpl in *.
  - intros H. exists [], s, []. now rewrite app_nil_r.
  - destruct s as [|c s]; [discriminate|]. destruct (p c); [|discriminate].
    intros H. exists [c], s, []. now rewrite app_nil_r.
  - apply andb_true_iff in F. destruct F as [F1 F2]. intros H.
    destruct (IH1 F1 _ _ _ _ H) as [pre1 [s1 [new1 [-> [L1 K1]]]]].
    destruct (IH2 F2 _ _ _ _ K1) as [pre2 [s2 [new2 [-> [L2 K2]]]]].
    exists (pre1 ++ pre2), s2, (new1 ++ new2).
    rewrite <- !app_assoc, length_app, L1, L2. rewrite <- app_assoc in K2. auto.
  - repeat (apply andb_true_iff in F; destruct F as [F ?]).
    apply Nat.eqb_eq in F. rewrite Nat.eqb_eq in *.
    destruct (m r1 s caps k) eqn:E1.
    + intros H'. injection H' as <-.
      destruct (IH1 ltac:(assumption) _ _ _ _ E1) as [pre [s' [new [-> [L K]]]]].
      exists pre, s', new. repeat split; auto. lia.
    + intros H'.
      destruct (IH2 ltac:(assumption) _ _ _ _ H') as [pre [s' [new [-> [L K]]]]].
      exists pre, s', new. repeat split; auto. lia.
  - intros H. destruct (SG _ _ _ _ H) as [pre [s' [-> K]]].
    exists pre, s', []. now rewrite app_nil_r.
  - destruct s as [|c s]; [discriminate|]. destruct (p c); [|discriminate].
    intros H. destruct (SG _ _ _ _ H) as [pre [s' [-> K]]].
    exists (c :: pre), s', []. now rewrite app_nil_r.
  - intros H. apply star_lazy_first in H.
    destruct H as [u [z [-> [_ [K _]]]]].
    exists u, z, []. now rewrite app_nil_r.
  - intros H. destruct (IH F _ _ _ _ H) as [pre [s' [new [-> [L K]]]]].
    exists pre, s', (new ++ [consumed (pre ++ s') s']).
    rewrite length_app, L, app_assoc. simpl. repeat split; auto. lia.
Qed.

Lemma consumed_app (u z : str) : consumed (u ++ z) z = u.
Proof.
  unfold consumed. rewrite length_app.
  replace (length u + length z - length z) with (length u + 0) by lia.
  rewrite firstn_app_2. simpl. apply app_nil_r.
Qed.

Lemma m_Chr_eq {A : Type} (c : ascii) (s : str) (caps : list str)
  (k : str -> list str -> option A) (x : A) :
  m (Chr (Ascii.eqb c)) s caps k = Some x ->
  exists s', s = c :: s' /\ k s' caps = Some x.
Proof.
  simpl. destruct s as [|c' s]; [discriminate|].
  destruct (Ascii.eqb_spec c c') as [->|_]; [|discriminate].
  intros H. now exists s.
Qed.

Lemma m_lazy_group {A : Type} (p : ascii -> bool) (s : str) (caps : list str)
  (k : str -> list str -> option A) (x : A) :
  m (Group (LazyStar p)) s caps k = Some x ->
  exists u z, s = u ++ z /\ forallb p u = true /\ k z (caps ++ [u]) = Some x.
Proof.
  simpl. intros H. apply star_lazy_first in H.
  destruct H as [u [z [-> [F [K _]]]]].
  exists u, z. rewrite consumed_app in K. auto.
Qed.

(* ------------------------------------------------------------------ *)
(** ** The order of the two patterns *)






(* ------------------------------------------------------------------ *)
(** ** Readers on a text that is continued *)

Lemma expects_sound (l w w' : str) : expects l w = Some w' -> w = l ++ w'.
Proof.
  revert w; induction l as [|c l IH]; intros w; simpl.
  - congruence.
  - destruct w as [|x w]; [discriminate|].
    destruct (Ascii.eqb_spec c x) as [->|_]; [|discriminate].
    intros H. now rewrite (IH _ H).
Qed.

Lemma expects_cons (c x : ascii) (l w : str) :
  expects (c :: l) (x :: w) = if Ascii.eqb c x then expects l w else None.
Proof. reflexivity. Qed.

Lemma one_sound (p : ascii -> bool) (w w' : str) :
  one p w = Some w' -> exists c, w = c :: w' /\ p c = true.
Proof.
  destruct w as [|x w]; simpl; [discriminate|].
  destruct (p x) eqn:P; [|discriminate].
  intros H. injection H as <-. now exists x.
Qed.

Lemma run_skip (p : ascii -> bool) (w : str) :
  w = run p w ++ skip p w /\ forallb p (run p w) = true.
Proof.
  induction w as [|x w [IH1 IH2]]; simpl; [auto|].
  destruct (p x) eqn:P; simpl; [|auto].
  rewrite P, IH2, <- IH1. auto.
Qed.

Lemma run1_sound (p : ascii -> bool) (w w' : str) :
  run1 p w = Some w' ->
  exists c, w = (c :: run p (tl w)) ++ w' /\ forallb p (c :: run p (tl w)) = true.
Proof.
  destruct w as [|x w]; simpl; [discriminate|].
  destruct (p x) eqn:P; [|discriminate].
  intros H. injection H as <-. exists x.
  destruct (run_skip p w) as [E F]. rewrite P, F, <- E. auto.
Qed.

Section Continued.
Variable t : str.

Lemma expects_app (l w w' : str) :
  expects l w = Some w' -> expects l (w ++ t) = Some (w' ++ t).
Proof.
  revert w; induction l as [|c l IH]; intros w; simpl.
  - intros H. now injection H as <-.
  - destruct w as [|x w]; [discriminate|]. simpl.
    destruct (Ascii.eqb c x); [apply IH | discriminate].
Qed.

Lemma one_app (p : ascii -> bool) (w w' : str) :
  one p w = Some w' -> one p (w ++ t) = Some (w' ++ t).
Proof.
  destruct w as [|x w]; simpl; [discriminate|].
  destruct (p x); [|discriminate]. intros H. now injection H as <-.
Qed.

Lemma skip_app (p : ascii -> bool) (w : str) :
  skip p w <> [] -> skip p (w ++ t) = skip p w ++ t.
Proof.
  induction w as [|x w IH]; simpl; [congruence|].
  destruct (p x); [exact IH | reflexivity].
Qed.

Lemma skip_app_nil (p : ascii -> bool) (w : str) :
  skip p w = [] -> skip p (w ++ t) = skip p t.
Proof.
  induction w as [|x w IH]; simpl; [reflexivity|].
  destruct (p x); [exact IH | discriminate].
Qed.

Lemma run_app_nil (p : ascii -> bool) (w : str) :
  skip p w = [] -> run p (w ++ t) = w ++ run p t.
Proof.
  induction w as [|x w IH]; simpl; [reflexivity|].
  destruct (p x); [|discriminate]. intros H. now rewrite IH.
Qed.

Lemma run1_app (p : ascii -> bool) (w w' : str) :
  run1 p w = Some w' -> w' <> [] -> run1 p (w ++ t) = Some (w' ++ t).
Proof.
  destruct w as [|x w]; simpl; [discriminate|].
  destruct (p x); [|discriminate].
  intros H N. injection H as <-. now rewrite skip_app.
Qed.

Lemma run1_app_nil (p : ascii -> bool) (w : str) :
  run1 p w = Some [] -> run1 p (w ++ t) = Some (skip p t).
Proof.
  destruct w as [|x w]; simpl; [discriminate|].
  destruct (p x); [|discriminate].
  intros H. injection H as H. now rewrite skip_app_nil.
Qed.

(** *** A text [z] that lies ahead

    While the text [z] lies ahead of the reader and [z] starts with a
    character the reader does not take, the reader cannot reach the
    continuation [t]: it reads the same and leaves [z] ahead. *)
Variable b : ascii.
Variable z' : str.

Lemma one_ahead (p : ascii -> bool) (w : str) :
  p b = false -> ahead (b :: z') w ->
  one p (w ++ t) = ext1 t (one p w) /\
  (forall w', one p w = Some w' -> ahead (b :: z') w').
Proof.
  intros P [u ->]. destruct u as [|c u]; simpl.
  - rewrite P. split; [reflexivity | discriminate].
  - destruct (p c); simpl; split; try reflexivity; try discriminate.
    intros w' H. injection H as <-. now exists u.
Qed.

Lemma expects_ahead (l w : str) :
  forallb (fun c => negb (Ascii.eqb c b)) l = true -> ahead (b :: z') w ->
  expects l (w ++ t) = ext1 t (expects l w) /\
  (forall w', expects l w = Some w' -> ahead (b :: z') w').
Proof.
  revert w; induction l as [|c l IH]; intros w F A; simpl.
  - split; [reflexivity|]. intros w' H. now injection H as <-.
  - simpl in F. apply andb_true_iff in F. destruct F as [Fc F].
    destruct A as [u ->]. destruct u as [|x u]; simpl.
    + destruct (Ascii.eqb c b); [discriminate Fc|].
      split; [reflexivity | discriminate].
    + destruct (Ascii.eqb c x); [|split; [reflexivity | discriminate]].
      apply IH; [exact F | now exists u].
Qed.

Lemma skip_ahead (p : ascii -> bool) (w : str) :
  p b = false -> ahead (b :: z') w ->
  skip p (w ++ t) = skip p w ++ t /\ ahead (b :: z') (skip p w).
Proof.
  intros P [u ->]. induction u as [|c u IH]; simpl.
  - rewrite P. split; [reflexivity | now exists []].
  - destruct (p c); [exact IH|].
    split; [reflexivity | now exists (c :: u)].
Qed.

Lemma run1_ahead (p : ascii -> bool) (w : str) :
  p b = false -> ahead (b :: z') w ->
  run1 p (w ++ t) = ext1 t (run1 p w) /\
  (forall w', run1 p w = Some w' -> ahead (b :: z') w').
Proof.
  intros P [u ->]. destruct u as [|c u]; simpl.
  - rewrite P. split; [reflexivity | discriminate].
  - destruct (p c); simpl; [|split; [reflexivity | discriminate]].
    destruct (@skip_ahead p (u ++ b :: z') P) as [E A]; [now exists u|].
    rewrite E. split; [reflexivity|].
    intros w' H. now injection H as <-.
Qed.

(** Past the first character of [z]: the reader took it, and does not
    take the second. *)
Lemma run1_past (p : ascii -> bool) (w : str) :
  p b = false -> (forall c v, z' = c :: v -> p c = false) -> z' <> [] ->
  ahead (b :: z') w \/ w = z' ->
  run1 p (w ++ t) = ext1 t (run1 p w) /\
  (forall w', run1 p w = Some w' -> ahead (b :: z') w').
Proof.
  intros P P2 N [A| ->]; [now apply run1_ahead|].
  destruct z' as [|c v]; [congruence|]. simpl.
  rewrite (P2 c v eq_refl). split; [reflexivity | discriminate].
Qed.

Lemma expects_first_ahead (w : str) :
  ahead (b :: z') w ->
  expects [b] (w ++ t) = ext1 t (expects [b] w) /\
  (forall w', expects [b] w = Some w' -> ahead (b :: z') w' \/ w' = z').
Proof.
  intros [u ->]. destruct u as [|x u]; simpl.
  - rewrite Ascii.eqb_refl. split; [reflexivity|].
    intros w' H. injection H as <-. now right.
  - destruct (Ascii.eqb b x); simpl; split; try reflexivity; try discriminate.
    intros w' H. injection H as <-. left. now exists u.
Qed.

End Continued.

(* ------------------------------------------------------------------ *)
(** ** The common pattern, read step by step *)

Lemma m_Seq {A : Type} (r1 r2 : regex) (s : str) (caps : list str)
  (k : str -> list str -> option A) :
  m (r1 ;; r2) s caps k = m r1 s caps (fun s' caps' => m r2 s' caps' k).
Proof. reflexivity. Qed.

Lemma m_Chr {A : Type} (p : ascii -> bool) (s : str) (caps : list str)
  (k : str -> list str -> option A) :
  m (Chr p) s caps k = let? s' := one p s in k s' caps.
Proof. destruct s as [|c s]; simpl; [reflexivity|]. now destruct (p c). Qed.

Lemma m_Group {A : Type} (r : regex) (s : str) (caps : list str)
  (k : str -> list str -> option A) :
  m (Group r) s caps k
  = m r s caps (fun s' caps' => k s' (caps' ++ [consumed s s'])).
Proof. reflexivity. Qed.

Lemma digit_not_space (c : ascii) : is_digit c = true -> Ascii.eqb " " c = false.
Proof. destruct c as [[] [] [] [] [] [] [] []]; vm_compute; congruence. Qed.

Lemma digit_not_dot (c : ascii) : is_digit c = true -> Ascii.eqb "." c = false.
Proof. destruct c as [[] [] [] [] [] [] [] []]; vm_compute; congruence. Qed.

Lemma upper_not_space (c : ascii) : is_upper c = true -> Ascii.eqb " " c = false.
Proof. destruct c as [[] [] [] [] [] [] [] []]; vm_compute; congruence. Qed.

Lemma upper_not_nl (c : ascii) : is_upper c = true -> not_nl c = true.
Proof. destruct c as [[] [] [] [] [] [] [] []]; vm_compute; congruence. Qed.

(** A continuation that starts with a literal the class does not take. *)
Ltac take_no lem :=
  right;
  let c := fresh "c" in let s := fresh "s" in
  let caps := fresh "caps" in let P := fresh "P" in
  intros c s caps P; cbv beta; rewrite m_Seq, m_Lit;
  unfold lit; cbn [expects list_ascii_of_string];
  now rewrite (lem c P).

Lemma m_COMMON_END (w : str) (caps : list str) :
  m COMMON_END w caps finish
  = let? (w6, w7, w8, w9) := end_read w in
    Some ((caps ++ [consumed w6 w7]) ++ [consumed w8 w9], w9).
Proof.
  unfold COMMON_END, end_read.
  rewrite m_Seq, m_Lit. destruct (expects (lit " HTTP/") w) as [w1|]; [|reflexivity].
  rewrite m_Seq, m_Chr. destruct (one is_digit w1) as [w2|]; [|reflexivity].
  rewrite m_Seq, m_Lit. destruct (expects (lit ".") w2) as [w3|]; [|reflexivity].
  rewrite m_Seq, m_Chr. destruct (one is_digit w3) as [w4|]; [|reflexivity].
  rewrite m_Seq, m_Chr. destruct (one (Ascii.eqb dq) w4) as [w5|]; [|reflexivity].
  rewrite m_Seq, m_Lit. destruct (expects (lit " ") w5) as [w6|]; [|reflexivity].
  rewrite m_Seq, m_Group, m_Plus.
  2:{ take_no digit_not_space. }
  destruct (run1 is_digit w6) as [w7|]; [|reflexivity].
  rewrite m_Seq, m_Lit. destruct (expects (lit " ") w7) as [w8|]; [|reflexivity].
  rewrite m_Group, m_Plus by (left; discriminate).
  destruct (run1 is_digit w8) as [w9|]; reflexivity.
Qed.

Lemma expects_bracket_space (z : str) :
  expects (lit "] ") z = let? z0 := expects (lit "]") z in expects (lit " ") z0.
Proof.
  destruct z as [|x z]; [reflexivity|].
  change (lit "] ") with ("]"%char :: [" "%char]).
  change (lit "]") with ["]"%char].
  rewrite !expects_cons. now destruct (Ascii.eqb "]" x).
Qed.

Lemma m_COMMON_REQUEST (z : str) (caps : list str) :
  m COMMON_REQUEST z caps finish
  = let? (z1, z2, z3) := request_read z in
    star_lazy not_nl z3
      (fun w => m COMMON_END w ((caps ++ [consumed z1 z2]) ++ [consumed z3 w])
                  finish).
Proof.
  unfold COMMON_REQUEST, request_read, request_rest.
  rewrite m_Seq, m_Lit, expects_bracket_space.
  destruct (expects (lit "]") z) as [z0|]; [|reflexivity].
  destruct (expects (lit " ") z0) as [w1|]; [|reflexivity].
  rewrite m_Seq, m_Chr. destruct (one (Ascii.eqb dq) w1) as [z1|]; [|reflexivity].
  rewrite m_Seq, m_Group, m_Plus.
  2:{ take_no upper_not_space. }
  destruct (run1 is_upper z1) as [z2|]; [|reflexivity].
  rewrite m_Seq, m_Lit. destruct (expects (lit " ") z2) as [z3|]; [|reflexivity].
  reflexivity.
Qed.

Lemma re_match_COMMON (s : str) :
  re_match COMMON_LOG_PATTERN s
  = let? (s0, s1) := ip_read s in
    star_lazy not_nl s1
      (fun z => m COMMON_REQUEST z ([consumed s s0] ++ [consumed s1 z]) finish).
Proof.
  unfold re_match.
  change COMMON_LOG_PATTERN
    with (Group IP ;; Lit " - - [" ;; Group (LazyStar not_nl) ;; COMMON_REQUEST).
  unfold IP, ip_read.
  rewrite m_Seq, m_Group.
  rewrite m_Seq, m_Plus by (take_no digit_not_dot).
  destruct (run1 is_digit s) as [a1|]; [|reflexivity].
  rewrite m_Seq, m_Lit. destruct (expects (lit ".") a1) as [a2|]; [|reflexivity].
  rewrite m_Seq, m_Plus by (take_no digit_not_dot).
  destruct (run1 is_digit a2) as [a3|]; [|reflexivity].
  rewrite m_Seq, m_Lit. destruct (expects (lit ".") a3) as [a4|]; [|reflexivity].
  rewrite m_Seq, m_Plus by (take_no digit_not_dot).
  destruct (run1 is_digit a4) as [a5|]; [|reflexivity].
  rewrite m_Seq, m_Lit. destruct (expects (lit ".") a5) as [a6|]; [|reflexivity].
  rewrite m_Plus.
  2:{ take_no digit_not_space. }
  destruct (run1 is_digit a6) as [s0|]; [|reflexivity].
  rewrite m_Seq, m_Lit. destruct (expects (lit " - - [") s0) as [s1|]; [|reflexivity].
  reflexivity.
Qed.

(* ------------------------------------------------------------------ *)
(** ** The common match of a text that is continued *)

Lemma consumed_ext (a b t : str) : consumed (a ++ t) (b ++ t) = consumed a b.
Proof.
  unfold consumed. rewrite !length_app.
  replace (length a + length t - (length b + length t))
    with (length a - length b) by lia.
  rewrite firstn_app.
  replace (length a - length b - length a) with 0 by lia.
  simpl. apply app_nil_r.
Qed.

Lemma consumed_nil (a : str) : consumed a [] = a.
Proof. unfold consumed. simpl. rewrite Nat.sub_0_r. apply firstn_all. Qed.

Lemma end_none_any_caps (w : str) (caps caps' : list str) :
  m COMMON_END w caps finish = None -> m COMMON_END w caps' finish = None.
Proof.
  intros H. destruct (m COMMON_END w caps' finish) eqn:E; [|reflexivity].
  exfalso. apply (@m_success_mono _ _ COMMON_END w caps' caps finish finish).
  - intros s' c c' _. discriminate.
  - rewrite E. discriminate.
  - exact H.
Qed.

Lemma end_starts (w : str) (caps : list str) (r : list str * str) :
  m COMMON_END w caps finish = Some r ->
  exists v, w = " "%char :: "H"%char :: v.
Proof.
  rewrite m_COMMON_END. unfold end_read.
  destruct (expects (lit " HTTP/") w) as [w1|] eqn:E; [|discriminate].
  intros _. apply expects_sound in E. rewrite E. now eexists.
Qed.

Section ContinuedMatch.
Variable t : str.

Lemma end_read_app (w w6 w7 w8 w9 : str) :
  end_read w = Some (w6, w7, w8, w9) ->
  end_read (w ++ t)
  = Some (w6 ++ t, w7 ++ t, w8 ++ t,
          match w9 with [] => skip is_digit t | _ :: _ => w9 ++ t end).
Proof.
  unfold end_read.
  destruct (expects (lit " HTTP/") w) as [w1|] eqn:E1; [|discriminate].
  destruct (one is_digit w1) as [w2|] eqn:E2; [|discriminate].
  destruct (expects (lit ".") w2) as [w3|] eqn:E3; [|discriminate].
  destruct (one is_digit w3) as [w4|] eqn:E4; [|discriminate].
  destruct (one (Ascii.eqb dq) w4) as [w5|] eqn:E5; [|discriminate].
  destruct (expects (lit " ") w5) as [w6'|] eqn:E6; [|discriminate].
  destruct (run1 is_digit w6') as [w7'|] eqn:E7; [|discriminate].
  destruct (expects (lit " ") w7') as [w8'|] eqn:E8; [|discriminate].
  destruct (run1 is_digit w8') as [w9'|] eqn:E9; [|discriminate].
  intros H. injection H as <- <- <- <-.
  rewrite (expects_app t _ _ E1), (one_app t _ _ E2), (expects_app t _ _ E3),
    (one_app t _ _ E4), (one_app t _ _ E5), (expects_app t _ _ E6).
  rewrite (run1_app t _ _ E7).
  2:{ apply expects_sound in E8. rewrite E8. discriminate. }
  rewrite (expects_app t _ _ E8).
  destruct w9' as [|c w9'].
  - now rewrite (run1_app_nil t _ _ E9).
  - rewrite (run1_app t _ _ E9); [reflexivity | discriminate].
Qed.

Lemma end_extends (w : str) (caps : list str) (r : list str * str) :
  m COMMON_END w caps finish = Some r ->
  m COMMON_END (w ++ t) caps finish = Some (continued t r).
Proof.
  rewrite !m_COMMON_END.
  destruct (end_read w) as [[[[w6 w7] w8] w9]|] eqn:E; [|discriminate].
  intros H. injection H as <-.
  rewrite (@end_read_app w w6 w7 w8 w9 E), !consumed_ext. unfold continued.
  destruct w9 as [|c w9].
  - rewrite removelast_last, last_last, consumed_nil. do 3 f_equal.
    destruct (run_skip is_digit t) as [Et _].
    rewrite Et at 1. rewrite app_assoc. now rewrite consumed_app.
  - now rewrite consumed_ext.
Qed.

(** A reading of [COMMON_END] that starts before another place where
    [COMMON_END] can be read does not get past that place. *)
Lemma end_read_ahead (u v : str) :
  u <> [] ->
  end_read (u ++ " "%char :: "H"%char :: v) = None ->
  end_read ((u ++ " "%char :: "H"%char :: v) ++ t) = None.
Proof.
  intros Nu. unfold end_read.
  destruct u as [|c u]; [congruence|].
  change (lit " HTTP/") with (" "%char :: ["H"; "T"; "T"; "P"; "/"]%char).
  change (lit ".") with ["."%char]. change (lit " ") with [" "%char].
  rewrite <- !app_comm_cons, !expects_cons.
  destruct (Ascii.eqb " " c); [|reflexivity].
  set (z' := "H"%char :: v).
  assert (A : ahead (" "%char :: z') (u ++ " "%char :: z')) by now exists u.
  revert A. generalize (u ++ " "%char :: z'). intros w A.
  destruct (@expects_ahead t " " z' ["H"; "T"; "T"; "P"; "/"]%char w eq_refl A)
    as [E A1].
  rewrite E. clear E.
  destruct (expects ["H"; "T"; "T"; "P"; "/"]%char w) as [w1|];
    [cbn [ext1]; specialize (A1 w1 eq_refl) | reflexivity].
  destruct (@one_ahead t " " z' is_digit w1 eq_refl A1) as [E A2].
  rewrite E. clear E.
  destruct (one is_digit w1) as [w2|];
    [cbn [ext1]; specialize (A2 w2 eq_refl) | reflexivity].
  destruct (@expects_ahead t " " z' ["."]%char w2 eq_refl A2) as [E A3].
  rewrite E. clear E.
  destruct (expects ["."]%char w2) as [w3|];
    [cbn [ext1]; specialize (A3 w3 eq_refl) | reflexivity].
  destruct (@one_ahead t " " z' is_digit w3 eq_refl A3) as [E A4].
  rewrite E. clear E.
  destruct (one is_digit w3) as [w4|];
    [cbn [ext1]; specialize (A4 w4 eq_refl) | reflexivity].
  destruct (@one_ahead t " " z' (Ascii.eqb dq) w4 eq_refl A4) as [E A5].
  rewrite E. clear E.
  destruct (one (Ascii.eqb dq) w4) as [w5|];
    [cbn [ext1]; specialize (A5 w5 eq_refl) | reflexivity].
  assert (P2 : forall c0 v0, z' = c0 :: v0 -> is_digit c0 = false).
  { intros c0 v0 Ez. unfold z' in Ez. now injection Ez as <- _. }
  assert (Nz : z' <> []) by discriminate.
  destruct (@expects_first_ahead t " " z' w5 A5) as [E A6].
  rewrite E. clear E.
  destruct (expects [" "]%char w5) as [w6|];
    [cbn [ext1]; specialize (A6 w6 eq_refl) | reflexivity].
  destruct (@run1_past t " " z' is_digit w6 eq_refl P2 Nz A6) as [E A7].
  rewrite E. clear E.
  destruct (run1 is_digit w6) as [w7|];
    [cbn [ext1]; specialize (A7 w7 eq_refl) | reflexivity].
  destruct (@expects_first_ahead t " " z' w7 A7) as [E A8].
  rewrite E. clear E.
  destruct (expects [" "]%char w7) as [w8|];
    [cbn [ext1]; specialize (A8 w8 eq_refl) | reflexivity].
  destruct (@run1_past t " " z' is_digit w8 eq_refl P2 Nz A8) as [E A9].
  rewrite E. clear E.
  destruct (run1 is_digit w8) as [w9|]; [discriminate | reflexivity].
Qed.

Lemma end_ahead (u w : str) (caps caps' r : _) :
  u <> [] ->
  m COMMON_END w caps finish = Some r ->
  m COMMON_END (u ++ w) caps' finish = None ->
  m COMMON_END ((u ++ w) ++ t) caps' finish = None.
Proof.
  intros Nu S. destruct (@end_starts w caps r S) as [v ->].
  rewrite !m_COMMON_END.
  destruct (end_read (u ++ " "%char :: "H"%char :: v)) as [[[[? ?] ?] ?]|] eqn:E;
    [discriminate|].
  intros _. now rewrite (@end_read_ahead u v Nu E).
Qed.

End ContinuedMatch.

Lemma forallb_upper_not_nl (l : str) :
  forallb is_upper l = true -> forallb not_nl l = true.
Proof.
  induction l as [|c l IH]; simpl; [reflexivity|].
  intros H. apply andb_true_iff in H. destruct H as [H1 H2].
  now rewrite (upper_not_nl _ H1), IH.
Qed.

Lemma forallb_suffix {A : Type} (p : A -> bool) (l1 l2 : list A) :
  forallb p (l1 ++ l2) = true -> forallb p l2 = true.
Proof. rewrite forallb_app. intros H. now apply andb_true_iff in H. Qed.

Lemma request_read_sound (z z1 z2 z3 : str) :
  request_read z = Some (z1, z2, z3) ->
  exists hz z', z = hz ++ z3 /\ forallb not_nl hz = true /\ z = "]"%char :: z'.
Proof.
  unfold request_read, request_rest.
  destruct (expects (lit "]") z) as [z0|] eqn:E0; [|discriminate].
  destruct (expects (lit " ") z0) as [w1|] eqn:E0'; [|discriminate].
  destruct (one (Ascii.eqb dq) w1) as [z1'|] eqn:E1; [|discriminate].
  destruct (run1 is_upper z1') as [z2'|] eqn:E2; [|discriminate].
  destruct (expects (lit " ") z2') as [z3'|] eqn:E3; [|discriminate].
  intros H. injection H as <- <- <-.
  apply expects_sound in E0, E0', E3.
  apply one_sound in E1. destruct E1 as [c [E1 Pc]].
  apply run1_sound in E2. destruct E2 as [c' [E2 F]].
  exists (lit "]" ++ lit " " ++ [c] ++ (c' :: run is_upper (tl z1')) ++ lit " "),
    z0.
  split; [|split].
  - rewrite E0, E0', E1. rewrite E2 at 1. rewrite E3. now rewrite <- !app_assoc.
  - rewrite !forallb_app. rewrite (forallb_upper_not_nl _ F).
    apply Ascii.eqb_eq in Pc. subst c. reflexivity.
  - rewrite E0. reflexivity.
Qed.

Section ContinuedRequest.
Variable t : str.

Lemma request_read_app (z z1 z2 z3 : str) :
  request_read z = Some (z1, z2, z3) ->
  request_read (z ++ t) = Some (z1 ++ t, z2 ++ t, z3 ++ t).
Proof.
  unfold request_read, request_rest.
  destruct (expects (lit "]") z) as [z0|] eqn:E0; [|discriminate].
  destruct (expects (lit " ") z0) as [w1|] eqn:E0'; [|discriminate].
  destruct (one (Ascii.eqb dq) w1) as [z1'|] eqn:E1; [|discriminate].
  destruct (run1 is_upper z1') as [z2'|] eqn:E2; [|discriminate].
  destruct (expects (lit " ") z2') as [z3'|] eqn:E3; [|discriminate].
  intros H. injection H as <- <- <-.
  rewrite (expects_app t _ _ E0), (expects_app t _ _ E0'), (one_app t _ _ E1).
  rewrite (run1_app t _ _ E2).
  2:{ apply expects_sound in E3. rewrite E3. discriminate. }
  now rewrite (expects_app t _ _ E3).
Qed.

Lemma request_rest_ahead (w z' : str) :
  ahead ("]"%char :: z') w ->
  request_rest (w ++ t)
  = (let? (z1, z2, z3) := request_rest w in
     Some (z1 ++ t, z2 ++ t, z3 ++ t)) /\
  (forall z1 z2 z3,
      request_rest w = Some (z1, z2, z3) ->
      ahead ("]"%char :: z') z3 /\ exists pre, w = pre ++ z3).
Proof.
  intros A. unfold request_rest. change (lit " ") with [" "%char].
  destruct (@expects_ahead t "]" z' [" "]%char w eq_refl A) as [E A1].
  rewrite E. clear E.
  destruct (expects [" "]%char w) as [w1|] eqn:E1;
    [cbn [ext1]; specialize (A1 w1 eq_refl)
    | split; [reflexivity | discriminate]].
  destruct (@one_ahead t "]" z' (Ascii.eqb dq) w1 eq_refl A1) as [E A2].
  rewrite E. clear E.
  destruct (one (Ascii.eqb dq) w1) as [w2|] eqn:E2;
    [cbn [ext1]; specialize (A2 w2 eq_refl)
    | split; [reflexivity | discriminate]].
  destruct (@run1_ahead t "]" z' is_upper w2 eq_refl A2) as [E A3].
  rewrite E. clear E.
  destruct (run1 is_upper w2) as [w3|] eqn:E3;
    [cbn [ext1]; specialize (A3 w3 eq_refl)
    | split; [reflexivity | discriminate]].
  destruct (@expects_ahead t "]" z' [" "]%char w3 eq_refl A3) as [E A4].
  rewrite E. clear E.
  destruct (expects [" "]%char w3) as [w4|] eqn:E4;
    [cbn [ext1]; specialize (A4 w4 eq_refl)
    | split; [reflexivity | discriminate]].
  split; [reflexivity|].
  intros z1 z2 z3 H. injection H as <- <- <-.
  split; [exact A4|].
  apply expects_sound in E1, E4.
  apply one_sound in E2. destruct E2 as [c2 [E2 _]].
  apply run1_sound in E3. destruct E3 as [c3 [E3 _]].
  exists ([" "%char] ++ [c2] ++ (c3 :: run is_upper (tl w2)) ++ [" "%char]).
  rewrite E1, E2. rewrite E3 at 1. rewrite E4. now rewrite <- !app_assoc.
Qed.

(** A reading of the request that starts before the place [z] where the
    request can be read stops before [z], whatever follows the text. *)
Lemma request_read_ahead (u z' : str) :
  u <> [] ->
  request_read ((u ++ "]"%char :: z') ++ t)
  = (let? (z1, z2, z3) := request_read (u ++ "]"%char :: z') in
     Some (z1 ++ t, z2 ++ t, z3 ++ t)) /\
  (forall z1 z2 z3,
      request_read (u ++ "]"%char :: z') = Some (z1, z2, z3) ->
      exists u3 pre, z3 = u3 ++ "]"%char :: z' /\ u = pre ++ u3).
Proof.
  intros Nu. unfold request_read.
  destruct u as [|c u]; [congruence|].
  change (lit "]") with ["]"%char].
  rewrite <- !app_comm_cons, !expects_cons.
  destruct (Ascii.eqb "]" c); [|split; [reflexivity | discriminate]].
  cbn [expects].
  destruct (@request_rest_ahead (u ++ "]"%char :: z') z') as [E A];
    [now exists u|].
  split; [exact E|].
  intros z1 z2 z3 H. destruct (A z1 z2 z3 H) as [[u3 ->] [pre S]].
  exists u3, (c :: pre). split; [reflexivity|].
  simpl. f_equal. apply (app_inv_tail ("]"%char :: z')).
  now rewrite <- app_assoc.
Qed.

End ContinuedRequest.

Section ContinuedCommon.
Variable t : str.

Lemma request_extends (z : str) (caps : list str) (r : list str * str) :
  m COMMON_REQUEST z caps finish = Some r ->
  m COMMON_REQUEST (z ++ t) caps finish = Some (continued t r).
Proof.
  rewrite !m_COMMON_REQUEST.
  destruct (request_read z) as [[[z1 z2] z3]|] eqn:E; [|discriminate].
  rewrite (@request_read_app t z z1 z2 z3 E).
  intros H. apply star_lazy_first in H.
  destruct H as [P [w [-> [F [K N]]]]].
  apply star_lazy_first. exists P, (w ++ t).
  split; [now rewrite app_assoc|]. split; [exact F|]. split.
  - rewrite !consumed_ext. now apply end_extends.
  - intros u1 u2 E2 Nu2. rewrite app_assoc.
    eapply end_ahead; [exact Nu2 | exact K |].
    eapply end_none_any_caps. exact (N u1 u2 E2 Nu2).
Qed.

Lemma request_ahead (u z : str) (caps0 caps : list str) (r0 : list str * str) :
  u <> [] -> forallb not_nl u = true ->
  m COMMON_REQUEST z caps0 finish = Some r0 ->
  m COMMON_REQUEST (u ++ z) caps finish = None ->
  m COMMON_REQUEST ((u ++ z) ++ t) caps finish = None.
Proof.
  intros Nu Fu S.
  rewrite m_COMMON_REQUEST in S.
  destruct (request_read z) as [[[a1 a2] a3]|] eqn:R0; [|discriminate].
  destruct (request_read_sound _ R0) as [hz [z' [Ez [Fhz Ez']]]].
  apply star_lazy_first in S. destruct S as [P [w [Ea3 [FP [K _]]]]].
  rewrite !m_COMMON_REQUEST. rewrite Ez'.
  destruct (@request_read_ahead t u z' Nu) as [E A].
  rewrite E. clear E.
  destruct (request_read (u ++ "]"%char :: z')) as [[[z1 z2] z3]|] eqn:R;
    [|reflexivity].
  destruct (A z1 z2 z3 eq_refl) as [u3 [pre [Ez3 Eu]]].
  intros H. exfalso. revert H.
  assert (Split : z3 = (u3 ++ hz ++ P) ++ w).
  { rewrite Ez3, <- Ez', Ez, Ea3. now rewrite <- !app_assoc. }
  rewrite Split. apply star_lazy_complete.
  - rewrite !forallb_app, Fhz, FP.
    rewrite Eu in Fu. now rewrite (forallb_suffix _ _ _ Fu).
  - intros C. apply end_none_any_caps with (caps' := (caps0 ++ [consumed a1 a2]) ++ [consumed a3 w]) in C.
    congruence.
Qed.

Lemma ip_read_app (s s0 s1 : str) :
  ip_read s = Some (s0, s1) -> ip_read (s ++ t) = Some (s0 ++ t, s1 ++ t).
Proof.
  unfold ip_read.
  destruct (run1 is_digit s) as [a1|] eqn:E1; [|discriminate].
  destruct (expects (lit ".") a1) as [a2|] eqn:E2; [|discriminate].
  destruct (run1 is_digit a2) as [a3|] eqn:E3; [|discriminate].
  destruct (expects (lit ".") a3) as [a4|] eqn:E4; [|discriminate].
  destruct (run1 is_digit a4) as [a5|] eqn:E5; [|discriminate].
  destruct (expects (lit ".") a5) as [a6|] eqn:E6; [|discriminate].
  destruct (run1 is_digit a6) as [s0'|] eqn:E7; [|discriminate].
  destruct (expects (lit " - - [") s0') as [s1'|] eqn:E8; [|discriminate].
  intros H. injection H as <- <-.
  rewrite (run1_app t _ _ E1)
    by (apply expects_sound in E2; rewrite E2; discriminate).
  rewrite (expects_app t _ _ E2).
  rewrite (run1_app t _ _ E3)
    by (apply expects_sound in E4; rewrite E4; discriminate).
  rewrite (expects_app t _ _ E4).
  rewrite (run1_app t _ _ E5)
    by (apply expects_sound in E6; rewrite E6; discriminate).
  rewrite (expects_app t _ _ E6).
  rewrite (run1_app t _ _ E7)
    by (apply expects_sound in E8; rewrite E8; discriminate).
  now rewrite (expects_app t _ _ E8).
Qed.

(** The match of the common pattern is anchored at the start only: what
    follows the text leaves the match as it is, apart from digits that
    directly continue a response size at the very end. *)
Lemma common_match_extends (s : str) (r : list str * str) :
  re_match COMMON_LOG_PATTERN s = Some r ->
  re_match COMMON_LOG_PATTERN (s ++ t) = Some (continued t r).
Proof.
  rewrite !re_match_COMMON.
  destruct (ip_read s) as [[s0 s1]|] eqn:E; [|discriminate].
  rewrite (@ip_read_app s s0 s1 E).
  intros H. apply star_lazy_first in H.
  destruct H as [T [z [-> [F [K N]]]]].
  apply star_lazy_first. exists T, (z ++ t).
  split; [now rewrite app_assoc|]. split; [exact F|]. split.
  - rewrite !consumed_ext. now apply request_extends.
  - intros u1 u2 E2 Nu2. rewrite app_assoc.
    rewrite (consumed_ext s s0 t), (consumed_ext (T ++ z) (u2 ++ z) t).
    eapply request_ahead; [exact Nu2 | | exact K | exact (N u1 u2 E2 Nu2)].
    rewrite E2 in F. exact (forallb_suffix _ _ _ F).
Qed.

End ContinuedCommon.

(* ------------------------------------------------------------------ *)
(** ** Text after a common match *)

Lemma py_int_digits (s : str) :
  (exists v, py_int s = Some v) <->
  s <> [] /\ forallb is_digit s = true /\
  (Z.of_nat (length s) <= int_max_str_digits)%Z.
Proof.
  destruct s as [|c s]; unfold py_int.
  - split.
    + intros [v H]. discriminate H.
    + intros [H _]. congruence.
  - destruct (forallb is_digit (c :: s));
      destruct (Z.leb_spec (Z.of_nat (length (c :: s))) int_max_str_digits)
        as [B|B];
      cbn [andb]; split.
    + intros _. split; [congruence | split; [reflexivity | assumption]].
    + intros _. now eexists.
    + intros [v Hv]. discriminate Hv.
    + intros (_ & _ & Hv). lia.
    + intros [v Hv]. discriminate Hv.
    + intros (_ & Hv & _). discriminate Hv.
    + intros [v Hv]. discriminate Hv.
    + intros (_ & Hv & _). discriminate Hv.
Qed.

Lemma py_int_None (s : str) :
  s <> [] -> forallb is_digit s = true ->
  py_int s = None <-> (int_max_str_digits < Z.of_nat (length s))%Z.
Proof.
  intros N F. destruct s as [|c s]; [congruence|]. unfold py_int. rewrite F.
  destruct (Z.leb_spec (Z.of_nat (length (c :: s))) int_max_str_digits)
    as [B|B];
    cbn [andb]; split; intros Hv; try discriminate Hv; try reflexivity; lia.
Qed.

Lemma common_groups (s : str) (g : list str) (rest : str) :
  re_match COMMON_LOG_PATTERN s = Some (g, rest) -> length g = 6.
Proof.
  unfold re_match. intros H.
  apply m_sound in H; [|reflexivity].
  destruct H as [pre [s' [new [_ [L H]]]]].
  unfold finish in H. injection H as <- _. exact L.
Qed.

(** C10, amended: the match is anchored at the start only.  When the
    common pattern matches a text [s] that parses to the record [e], and
    [s] is followed by any text [t] with which the combined pattern does
    not match, then the line [s ++ t] is accepted as a common-format
    record with the fields of [e], no referer and no user agent, and [t]
    is dropped, provided the match did not end with [s] or [t] does not
    start with a digit.  When the match ended with [s], the digits that
    [t] starts with continue the response size: the line is accepted with
    the longer number, and rejected when the numeral has more digits than
    the limit of the conversion. *)
Theorem trailing_text_is_discarded
  (s t : str) (g : list str) (rest : str) (e : LogEntry) :
  re_match COMMON_LOG_PATTERN s = Some (g, rest) ->
  entry_of_common s g = Some e ->
  re_match COMBINED_LOG_PATTERN (s ++ t) = None ->
  (rest <> [] \/ run is_digit t = [] ->
   parse_log_line (s ++ t)
   = Some (mk_LogEntry (s ++ t) (timestamp e) (ip_address e) (method e)
             (path e) (status_code e) (response_size e) None None)) /\
  (rest = [] ->
   parse_log_line (s ++ t)
   = match py_int (group g 5 ++ run is_digit t) with
     | Some size =>
         Some (mk_LogEntry (s ++ t) (timestamp e) (ip_address e) (method e)
                 (path e) (status_code e) size None None)
     | None => None
     end /\
   (py_int (group g 5 ++ run is_digit t) = None <->
    (int_max_str_digits
     < Z.of_nat (length (group g 5 ++ run is_digit t)))%Z)).
Proof.
  intros M E C.
  pose proof (common_groups _ M) as L.
  pose proof (@common_match_extends t s (g, rest) M) as M'.
  unfold parse_log_line. rewrite C, M'. clear C M M'.
  unfold continued. unfold entry_of_common in *.
  destruct g as [|g0 [|g1 [|g2 [|g3 [|g4 [|g5 [|g6 g]]]]]]];
    try discriminate L. clear L.
  unfold group in *. cbn [nth] in E |- *.
  destruct (parse_timestamp g1) as [ts|] eqn:T; [|discriminate E].
  destruct (py_int g4) as [sc|] eqn:S; [|discriminate E].
  destruct (py_int g5) as [rs|] eqn:P; [|discriminate E].
  injection E as <-.
  cbn [timestamp ip_address method path status_code response_size].
  destruct (proj1 (py_int_digits g5) (ex_intro _ rs P)) as (N & F & _).
  destruct rest as [|c rest].
  - cbn [removelast last app nth]. rewrite T, S. split.
    + intros [H|R]; [congruence|]. rewrite R, app_nil_r, P. reflexivity.
    + intros _. split; [reflexivity|].
      apply py_int_None.
      * destruct g5; [congruence | discriminate].
      * rewrite forallb_app, F. apply (run_skip is_digit t).
  - cbn [nth]. rewrite T, S, P. split; [reflexivity | discriminate].
Qed.

(** C10 as stated fails for a text of digits.  The example line parses
    and ends with its response size; followed by 4297 digits, which do
    not complete the combined format, the line is rejected, and followed
    by the one digit 7 it is accepted with the response size 23267
    instead of 2326. *)
Lemma trailing_digits_are_not_discarded :
  re_match COMMON_LOG_PATTERN example_line = Some (example_groups, []) /\
  entry_of_common example_line example_groups = Some example_entry /\
  re_match COMBINED_LOG_PATTERN (example_line ++ repeat "7"%char 4297) = None /\
  parse_log_line (example_line ++ repeat "7"%char 4297) = None /\
  re_match COMBINED_LOG_PATTERN (example_line ++ lit "7") = None /\
  option_map response_size (parse_log_line (example_line ++ lit "7"))
  = Some 23267%Z.
Proof. repeat split; vm_compute; reflexivity. Qed.

(* ------------------------------------------------------------------ *)
(** ** The theorems at work on the example records *)


Lemma hourly_distribution_witness :
  well_formed two_records /\
  list_sum (map snd (get_hourly_distribution two_records))
  = length (log_entries two_records).
Proof.
  assert (W : well_formed two_records) by (repeat constructor).
  split; [exact W|].
  exact (proj2 (proj2 (proj2 (hourly_distribution_spec two_records))) W).
Defined.

Lemma top_n_witness :
  (Z.of_nat (length (map ip_address (log_entries two_records))) <= 5)%Z /\
  Permutation (get_top_ips two_records 5)
    (map (fun k => (k, count Str.eqb k (map ip_address (log_entries two_records))))
       (distinct Str.eqb (map ip_address (log_entries two_records)))) /\
  In (lit "10.0.0.2", 1) (get_top_ips two_records 2) /\
  count Str.eqb (lit "192.168.1.1") (map ip_address (log_entries two_records)) = 1 /\
  first_before (lit "192.168.1.1") (lit "10.0.0.2")
    (map ip_address (log_entries two_records)) /\
  before (lit "192.168.1.1", 1) (lit "10.0.0.2", 1) (get_top_ips two_records 2).
Proof.
  destruct (top_n_ips_and_paths two_records) as [[_ [All Tie]] _].
  assert (L : (Z.of_nat (length (map ip_address (log_entries two_records))) <= 5)%Z)
    by (vm_compute; discriminate).
  assert (I : In (lit "10.0.0.2", 1) (get_top_ips two_records 2))
    by (vm_compute; right; left; reflexivity).
  assert (C : count Str.eqb (lit "192.168.1.1")
                (map ip_address (log_entries two_records)) = 1)
    by (vm_compute; reflexivity).
  assert (F : first_before (lit "192.168.1.1") (lit "10.0.0.2")
                (map ip_address (log_entries two_records))).
  { exists [], [lit "10.0.0.2"]. split; [reflexivity|].
    split; [intros []|]. intros H. vm_compute in H. discriminate H. }
  split; [exact L|]. split; [exact (All 5%Z L)|].
  split; [exact I|]. split; [exact C|]. split; [exact F|].
  exact (Tie 2%Z (lit "192.168.1.1") (lit "10.0.0.2") 1 I C F).
Defined.

Lemma daily_distribution_witness :
  well_formed (mk_LogAnalyzer [second_entry; example_entry]) /\
  map fst (get_daily_distribution (mk_LogAnalyzer [second_entry; example_entry]))
  = [lit "2023-04-20"; lit "2023-04-19"] /\
  before (date_isoformat (timestamp example_entry), 1)
         (date_isoformat (timestamp second_entry), 1)
         (display_daily_distribution
            (mk_LogAnalyzer [second_entry; example_entry])) /\
  date_ltb (timestamp example_entry) (timestamp second_entry) = true.
Proof.
  assert (W : well_formed (mk_LogAnalyzer [second_entry; example_entry]))
    by (repeat constructor).
  assert (I1 : In example_entry
                 (log_entries (mk_LogAnalyzer [second_entry; example_entry])))
    by (right; left; reflexivity).
  assert (I2 : In second_entry
                 (log_entries (mk_LogAnalyzer [second_entry; example_entry])))
    by (left; reflexivity).
  assert (B : before (date_isoformat (timestamp example_entry), 1)
                (date_isoformat (timestamp second_entry), 1)
                (display_daily_distribution
                   (mk_LogAnalyzer [second_entry; example_entry]))).
  { vm_compute. apply before_here. left. reflexivity. }
  destruct (daily_distribution_spec W) as (_ & _ & K & _ & O).
  split; [exact W|]. split; [rewrite K; vm_compute; reflexivity|].
  split; [exact B|].
  exact (O example_entry second_entry 1 1 I1 I2 B).
Defined.

Lemma trailing_text_is_discarded_witness :
  re_match COMMON_LOG_PATTERN example_line = Some (example_groups, []) /\
  entry_of_common example_line example_groups = Some example_entry /\
  re_match COMBINED_LOG_PATTERN (example_line ++ lit " trailing text") = None /\
  parse_log_line (example_line ++ lit " trailing text")
  = Some (mk_LogEntry (example_line ++ lit " trailing text")
            (timestamp example_entry) (ip_address example_entry)
            (method example_entry) (path example_entry)
            (status_code example_entry) (response_size example_entry)
            None None).
Proof.
  assert (M : re_match COMMON_LOG_PATTERN example_line
              = Some (example_groups, [])) by (vm_compute; reflexivity).
  assert (E : entry_of_common example_line example_groups = Some example_entry)
    by (vm_compute; reflexivity).
  assert (C : re_match COMBINED_LOG_PATTERN (example_line ++ lit " trailing text")
              = None) by (vm_compute; reflexivity).
  split; [exact M|]. split; [exact E|]. split; [exact C|].
  apply (proj1 (@trailing_text_is_discarded example_line (lit " trailing text")
                  example_groups [] example_entry M E C)).
  right. reflexivity.
Defined.

(* ------------------------------------------------------------------ *)
(** ** Histograms *)

Arguments existsb_keqb {K keqb} keqb_spec xs x.

Section HistogramFacts.
Variable K : Type.
Variable keqb : K -> K -> bool.
Hypothesis keqb_spec : forall a b, reflect (a = b) (keqb a b).

Lemma list_sum_split_key (f : K -> nat) (x : K) (l : list K) :
  NoDup l ->
  list_sum (map f l)
  = (if existsb (fun k => keqb k x) l then f x else 0)
    + list_sum (map f (filter (fun k => negb (keqb k x)) l)).
Proof.
  induction 1 as [|a l Na ND IH]; simpl; [reflexivity|].
  destruct (keqb_spec a x) as [->|N]; simpl.
  - rewrite IH.
    assert (E : existsb (fun k => keqb k x) l = false).
    { destruct (existsb (fun k => keqb k x) l) eqn:E; [|reflexivity].
      apply (existsb_keqb keqb_spec) in E. tauto. }
    rewrite E. lia.
  - rewrite IH. destruct (existsb (fun k => keqb k x) l); lia.
Qed.

Lemma count_cons (k x : K) (xs : list K) :
  count keqb k (x :: xs) = (if keqb x k then 1 else 0) + count keqb k xs.
Proof. unfold count. simpl. now destruct (keqb x k). Qed.

Lemma counts_total (xs : list K) :
  list_sum (map (fun k => count keqb k xs) (distinct keqb xs)) = length xs.
Proof.
  induction xs as [|x xs IH]; [reflexivity|].
  cbn [distinct map list_sum length].
  rewrite count_cons, (keqb_refl keqb_spec).
  rewrite (map_ext_in _ (fun k => count keqb k xs)).
  - rewrite <- IH.
    rewrite (list_sum_split_key (fun k => count keqb k xs) x
               (NoDup_distinct keqb_spec xs)).
    unfold list_sum. cbn [fold_right].
    destruct (existsb (fun k => keqb k x) (distinct keqb xs)) eqn:E; [lia|].
    rewrite (count_zero keqb_spec); [lia|].
    rewrite <- (In_distinct keqb_spec), <- (existsb_keqb keqb_spec). congruence.
  - intros k Ik. apply filter_In in Ik. destruct Ik as [_ Ik].
    rewrite count_cons.
    destruct (keqb_spec x k) as [->|_]; [|reflexivity].
    now rewrite (keqb_refl keqb_spec) in Ik.
Qed.

Lemma Counter_histogram (xs : list K) : histogram keqb xs (Counter keqb xs).
Proof.
  rewrite (Counter_spec keqb_spec). split; [|split].
  - intros k n. rewrite in_map_iff. split.
    + intros [k' [E I]]. injection E as E1 E2. subst k' n.
      apply (proj1 (In_distinct keqb_spec _ _)) in I.
      split; [now apply (count_pos keqb_spec) | reflexivity].
    + intros [P ->]. exists k. split; [reflexivity|].
      apply (In_distinct keqb_spec).
      destruct (in_dec (fun a b => reflect_dec _ _ (keqb_spec a b)) k xs)
        as [I|N]; [exact I|].
      rewrite (count_zero keqb_spec _ _ N) in P. lia.
  - rewrite map_map. cbn [fst]. rewrite map_id.
    apply (NoDup_distinct keqb_spec).
  - rewrite map_map. cbn [snd]. apply counts_total.
Qed.

End HistogramFacts.

Arguments Counter_histogram {K keqb} keqb_spec xs.

(** X1: the status-code and the method distributions are histograms: a
    value is a key exactly when some record has it, its count is the
    number of those records, no key is repeated, and the counts add up to
    the number of records. *)
Theorem status_and_method_distributions (self : LogAnalyzer) :
  histogram Z.eqb (map status_code (log_entries self))
    (get_status_code_distribution self) /\
  histogram Str.eqb (map method (log_entries self))
    (get_method_distribution self).
Proof.
  split; [apply (Counter_histogram Z.eqb_spec)
         | apply (Counter_histogram str_eqb_spec)].
Qed.

(* ------------------------------------------------------------------ *)
(** ** Rankings *)

Section RankingFacts.
Variable K : Type.

Lemma insert_desc_sorted (x : K * nat) (l : list (K * nat)) :
  StronglySorted (@count_ge K) l -> StronglySorted (@count_ge K) (insert_desc x l).
Proof.
  induction 1 as [|y l S IH F]; simpl; [repeat constructor|].
  destruct (Nat.ltb_spec (snd x) (snd y)) as [L|L].
  - constructor; [exact IH|].
    destruct (insert_desc_split x l) as [l1 [l2 [E1 [E2 _]]]].
    rewrite E1. rewrite E2 in F.
    apply Forall_app in F. destruct F as [F1 F2].
    apply Forall_app. split; [exact F1|].
    constructor; [unfold count_ge; lia | exact F2].
  - constructor; [now constructor|].
    constructor; [exact L|].
    eapply Forall_impl; [|exact F]. unfold count_ge. intros z Hz. lia.
Qed.

Lemma sorted_by_count_desc_sorted (l : list (K * nat)) :
  StronglySorted (@count_ge K) (sorted_by_count_desc l).
Proof.
  induction l as [|x l IH]; simpl; [constructor|].
  now apply insert_desc_sorted.
Qed.

Lemma sorted_app_inv {A : Type} (R : A -> A -> Prop) (l1 l2 : list A) :
  StronglySorted R (l1 ++ l2) ->
  StronglySorted R l1 /\ (forall x y, In x l1 -> In y l2 -> R x y).
Proof.
  induction l1 as [|a l1 IH]; simpl; intros S.
  - split; [constructor | intros x y []].
  - inversion S as [|? ? S' F]; subst. destruct (IH S') as [S1 H].
    apply Forall_app in F. destruct F as [F1 F2].
    split; [now constructor|].
    intros x y [<-|Ix] Iy; [|now apply H].
    rewrite Forall_forall in F2. now apply F2.
Qed.

End RankingFacts.

Lemma most_common_ranking (keys : list str) (n : Z) :
  ranking keys n (most_common n (Counter Str.eqb keys)).
Proof.
  destruct (most_common_spec str_eqb_spec keys n) as [E [P ND]].
  cbv zeta in E, P, ND. rewrite E. clear E.
  set (items := map (fun k => (k, count Str.eqb k keys))
                  (distinct Str.eqb keys)) in *.
  set (S := sorted_by_count_desc items) in *.
  assert (Srt : StronglySorted (@count_ge str) (firstn (Z.to_nat n) S ++
                                                 skipn (Z.to_nat n) S)).
  { rewrite firstn_skipn. apply sorted_by_count_desc_sorted. }
  apply sorted_app_inv in Srt. destruct Srt as [S1 Dom].
  assert (Items : forall k c, In (k, c) S ->
                              In k keys /\ c = count Str.eqb k keys).
  { intros k c I. apply (Permutation_in _ P) in I.
    apply in_map_iff in I. destruct I as [k' [Ek I]].
    injection Ek as E1 E2. subst k' c.
    split; [|reflexivity]. exact (proj1 (In_distinct str_eqb_spec k keys) I). }
  assert (Sub : forall x, In x (firstn (Z.to_nat n) S) -> In x S).
  { intros x I. rewrite <- (firstn_skipn (Z.to_nat n) S).
    apply in_or_app. now left. }
  split; [exact S1|]. split; [|split].
  - rewrite length_firstn. f_equal.
    rewrite (Permutation_length P). unfold items.
    now rewrite length_map.
  - intros k c I. destruct (Items k c (Sub _ I)) as [Ik ->].
    split; [reflexivity | now apply (count_pos str_eqb_spec)].
  - intros k c k' I Ik' N.
    assert (I' : In (k', count Str.eqb k' keys) S).
    { apply (Permutation_in _ (Permutation_sym P)). unfold items.
      apply in_map_iff. exists k'. split; [reflexivity|].
      now apply (In_distinct str_eqb_spec). }
    rewrite <- (firstn_skipn (Z.to_nat n) S) in I'.
    apply in_app_or in I'. destruct I' as [I'|I'].
    + exfalso. apply N. apply in_map_iff.
      now exists (k', count Str.eqb k' keys).
    + exact (Dom _ _ I I').
Qed.

(** X2: the top IPs and the top paths are rankings: the counts never
    increase along the list; the list has [limit] items, or all distinct
    values when they are fewer (none for a negative limit); every item
    carries the exact number of records of its value; and no value that is
    left out has more records than a value that is listed. *)
Theorem top_ips_and_paths_are_rankings (self : LogAnalyzer) (limit : Z) :
  ranking (map ip_address (log_entries self)) limit (get_top_ips self limit) /\
  ranking (map path (log_entries self)) limit (get_top_paths self limit).
Proof. split; apply most_common_ranking. Qed.

(* ------------------------------------------------------------------ *)
(** ** What the parser lets through *)

Lemma make_datetime_valid (y mo d h mi s : Z) (t : datetime) :
  make_datetime y mo d h mi s = Some t -> valid_datetime t = true.
Proof.
  unfold make_datetime.
  destruct (valid_datetime (mk_datetime y mo d h mi s)) eqn:V; [|discriminate].
  intros H. now injection H as <-.
Qed.

Lemma strptime_valid (data : str) (t : datetime) :
  strptime data = Some t -> valid_datetime t = true.
Proof.
  unfold strptime.
  destruct (re_match strptime_regex data) as [[g [|? ?]]|]; try discriminate.
  destruct (py_int (skip_blank (group g 0))); [|discriminate].
  destruct (month_index month_abbr 1 (group g 1)); [|discriminate].
  destruct (py_int (group g 2)); [|discriminate].
  destruct (py_int (group g 3)); [|discriminate].
  destruct (py_int (group g 4)); [|discriminate].
  destruct (py_int (group g 5)); [|discriminate].
  apply make_datetime_valid.
Qed.

Lemma before_space_app (ts tz : str) :
  forallb (fun c => negb (Ascii.eqb c " ")) ts = true ->
  before_space (ts ++ " "%char :: tz) = ts.
Proof.
  induction ts as [|c ts IH]; simpl; [reflexivity|].
  intros H. apply andb_true_iff in H. destruct H as [Hc H].
  destruct (Ascii.eqb c " "); [discriminate Hc|]. now rewrite IH.
Qed.

Lemma before_space_none (ts : str) :
  forallb (fun c => negb (Ascii.eqb c " ")) ts = true ->
  before_space ts = ts.
Proof.
  induction ts as [|c ts IH]; simpl; [reflexivity|].
  intros H. apply andb_true_iff in H. destruct H as [Hc H].
  destruct (Ascii.eqb c " "); [discriminate Hc|]. now rewrite IH.
Qed.

(** X3: [parse_timestamp] reads the text up to the first blank and
    nothing else, so a timezone after the blank, whatever it is, does not
    change the result; and what it returns is always a datetime within
    the ranges of the calendar and the clock. *)
Theorem parse_timestamp_ignores_timezone (ts tz : str) :
  forallb (fun c => negb (Ascii.eqb c " ")) ts = true ->
  parse_timestamp (ts ++ " "%char :: tz) = parse_timestamp ts /\
  (forall t, parse_timestamp ts = Some t -> valid_datetime t = true).
Proof.
  intros H. unfold parse_timestamp.
  rewrite (@before_space_app ts tz H), (@before_space_none ts H).
  split; [reflexivity|]. intros t. apply strptime_valid.
Qed.

Lemma parse_timestamp_ignores_timezone_witness :
  forallb (fun c => negb (Ascii.eqb c " ")) (lit "19/Apr/2023:13:55:36") = true /\
  parse_timestamp (lit "19/Apr/2023:13:55:36" ++ " "%char :: lit "-0700")
  = parse_timestamp (lit "19/Apr/2023:13:55:36").
Proof.
  assert (H : forallb (fun c => negb (Ascii.eqb c " "))
                (lit "19/Apr/2023:13:55:36") = true) by reflexivity.
  split; [exact H|].
  exact (proj1 (@parse_timestamp_ignores_timezone
                  (lit "19/Apr/2023:13:55:36") (lit "-0700") H)).
Defined.

Lemma py_int_nonneg (s : str) (v : Z) : py_int s = Some v -> (0 <= v)%Z.
Proof.
  unfold py_int. destruct s as [|c s]; [discriminate|].
  destruct (forallb is_digit (c :: s) &&
            (Z.of_nat (length (c :: s)) <=? int_max_str_digits)%Z);
    [|discriminate].
  intros H. injection H as <-.
  assert (G : forall l acc, (0 <= acc)%Z ->
              (0 <= fold_left (fun a x => 10 * a + digit_val x) l acc)%Z).
  { induction l as [|x l IH]; intros acc A; cbn [fold_left]; [exact A|].
    apply IH. unfold digit_val. lia. }
  apply G. unfold digit_val. lia.
Qed.

Lemma dash_to_None_not_dash (x : str) : dash_to_None x <> Some (lit "-").
Proof.
  unfold dash_to_None.
  destruct (str_eqb_spec x (lit "-")) as [->|N]; congruence.
Qed.

Lemma parsed_record_facts (log_line : str) (e : LogEntry) :
  parse_log_line log_line = Some e ->
  raw_log e = log_line /\
  valid_datetime (timestamp e) = true /\
  (0 <= status_code e)%Z /\ (0 <= response_size e)%Z /\
  referer e <> Some (lit "-") /\ user_agent e <> Some (lit "-").
Proof.
  unfold parse_log_line, entry_of_combined, entry_of_common.
  destruct (re_match COMBINED_LOG_PATTERN log_line) as [[g rest]|].
  - destruct (parse_timestamp (group g 1)) as [ts|] eqn:T; [|discriminate].
    destruct (py_int (group g 4)) as [sc|] eqn:S; [|discriminate].
    destruct (py_int (group g 5)) as [rs|] eqn:R; [|discriminate].
    intros H. injection H as <-. simpl.
    repeat split; eauto using py_int_nonneg, dash_to_None_not_dash.
    unfold parse_timestamp in T. now apply strptime_valid in T.
  - destruct (re_match COMMON_LOG_PATTERN log_line) as [[g rest]|];
      [|discriminate].
    destruct (parse_timestamp (group g 1)) as [ts|] eqn:T; [|discriminate].
    destruct (py_int (group g 4)) as [sc|] eqn:S; [|discriminate].
    destruct (py_int (group g 5)) as [rs|] eqn:R; [|discriminate].
    intros H. injection H as <-. simpl.
    repeat split; eauto using py_int_nonneg; try discriminate.
    unfold parse_timestamp in T. now apply strptime_valid in T.
Qed.

(** X4: every record that [parse_log_line] returns keeps the line it was
    read from, has a timestamp within the ranges of the calendar and the
    clock, a status code and a response size that are not negative, and a
    referer and a user agent that are absent or a text other than the
    lone dash. *)
Theorem parsed_record_invariants (log_line : str) (e : LogEntry) :
  parse_log_line log_line = Some e ->
  raw_log e = log_line /\
  valid_datetime (timestamp e) = true /\
  (0 <= status_code e)%Z /\ (0 <= response_size e)%Z /\
  referer e <> Some (lit "-") /\ user_agent e <> Some (lit "-").
Proof. apply parsed_record_facts. Qed.

Lemma parsed_record_invariants_witness :
  parse_log_line example_line = Some example_entry /\
  raw_log example_entry = example_line /\
  valid_datetime (timestamp example_entry) = true.
Proof.
  assert (H : parse_log_line example_line = Some example_entry)
    by (vm_compute; reflexivity).
  split; [exact H|].
  destruct (@parsed_record_invariants example_line example_entry H)
    as [R [V _]].
  split; [exact R | exact V].
Defined.

(* ------------------------------------------------------------------ *)
(** ** Reading a file *)

Lemma read_line_acc (es : list LogEntry) (pr : list str) (x : nat * str) :
  read_line (es, pr) x
  = (es ++ fst (read_line ([], []) x), pr ++ snd (read_line ([], []) x)).
Proof.
  destruct x as [n l]. unfold read_line.
  destruct (strip l) as [|c s]; cbn [fst snd].
  - now rewrite !app_nil_r.
  - destruct (parse_log_line (c :: s)); cbn [fst snd app];
      now rewrite ?app_nil_r.
Qed.

Lemma read_lines_acc (nl : list (nat * str))
  (es : list LogEntry) (pr : list str) :
  fold_left read_line nl (es, pr)
  = (es ++ fst (fold_left read_line nl ([], [])),
     pr ++ snd (fold_left read_line nl ([], []))).
Proof.
  revert es pr. induction nl as [|x nl IH]; intros es pr.
  - simpl. now rewrite !app_nil_r.
  - cbn [fold_left]. rewrite (read_line_acc es pr x).
    rewrite IH.
    destruct (read_line ([], []) x) as [e0 p0]. cbn [fst snd].
    rewrite (IH e0 p0). cbn [fst snd]. now rewrite !app_assoc.
Qed.

Lemma read_lines_cons (l : str) (lines : list str) (start : nat) :
  fold_left read_line (enumerate start (l :: lines)) ([], [])
  = (fst (read_line ([], []) (start, l))
       ++ fst (fold_left read_line (enumerate (S start) lines) ([], [])),
     snd (read_line ([], []) (start, l))
       ++ snd (fold_left read_line (enumerate (S start) lines) ([], []))).
Proof.
  unfold enumerate. cbn [length seq combine fold_left].
  destruct (read_line ([], []) (start, l)) as [e0 p0].
  now rewrite read_lines_acc.
Qed.

Lemma read_line_cases (start : nat) (l : str) :
  (strip l = [] /\ read_line ([], []) (start, l) = ([], [])) \/
  (strip l <> [] /\ exists e, parse_log_line (strip l) = Some e /\
                              read_line ([], []) (start, l) = ([e], [])) \/
  (strip l <> [] /\ parse_log_line (strip l) = None /\
   read_line ([], []) (start, l)
   = ([], [could_not_parse start (strip l)])).
Proof.
  unfold read_line. destruct (strip l) as [|c s]; [now left|].
  right. destruct (parse_log_line (c :: s)) as [e|].
  - left. split; [discriminate|]. now exists e.
  - right. split; [discriminate|]. now split.
Qed.

Lemma content_lines_cons (l : str) (lines : list str) :
  content_lines (l :: lines)
  = match strip l with [] => [] | _ :: _ => [strip l] end ++ content_lines lines.
Proof.
  unfold content_lines. cbn [map filter].
  now destruct (strip l).
Qed.

Lemma read_lines_facts (lines : list str) (start : nat) :
  let r := fold_left read_line (enumerate start lines) ([], []) in
  map raw_log (fst r) = filter parses (content_lines lines) /\
  Forall (fun e => parse_log_line (raw_log e) = Some e /\
                   valid_datetime (timestamp e) = true) (fst r) /\
  length (fst r) + length (snd r) = length (content_lines lines).
Proof.
  revert start. induction lines as [|l lines IH]; intros start.
  - simpl. repeat split; constructor.
  - cbv zeta. rewrite read_lines_cons, content_lines_cons.
    destruct (IH (S start)) as [A [B C]]. cbv zeta in A, B, C.
    cbn [fst snd].
    destruct (read_line_cases start l) as [[E R]|[[N [e [P R]]]|[N [P R]]]];
      rewrite R; cbn [fst snd app].
    + rewrite E. cbn [app]. repeat split; assumption.
    + destruct (strip l) as [|c s] eqn:E; [congruence|]. cbn [app filter map].
      unfold parses at 1. rewrite P.
      destruct (@parsed_record_facts (c :: s) e P) as [Raw [V _]].
      rewrite Raw, A. split; [reflexivity|]. split.
      * constructor; [|exact B]. now rewrite Raw.
      * cbn [length]. lia.
    + destruct (strip l) as [|c s] eqn:E; [congruence|]. cbn [app filter].
      unfold parses at 1. rewrite P.
      split; [exact A|]. split; [exact B|]. cbn [length]. lia.
Qed.

(** X5: [parse_log_file] keeps the order of the file and loses no line
    silently.  The records it returns are read from exactly the lines
    that, once stripped, are not blank and are parsed, in the order of
    the file; each record is what [parse_log_line] makes of its line; and
    the records and the printed warnings together are as many as the
    lines that are not blank. *)
Theorem parse_log_file_loads_in_order (lines : list str) :
  map raw_log (fst (parse_log_file lines))
  = filter parses (content_lines lines) /\
  (forall e, In e (fst (parse_log_file lines)) ->
             parse_log_line (raw_log e) = Some e) /\
  length (fst (parse_log_file lines)) + length (snd (parse_log_file lines))
  = length (content_lines lines).
Proof.
  destruct (read_lines_facts lines 1) as [A [B C]]. cbv zeta in A, B, C.
  split; [exact A|]. split; [|exact C].
  intros e I. rewrite Forall_forall in B. now apply B.
Qed.

(** X6: a store that is loaded from a file holds datetimes only, so that
    its hourly distribution accounts for every record: the 24 counts add
    up to the number of records loaded, whatever the file contains. *)
Theorem loaded_store_is_well_formed (lines : list str) :
  well_formed (mk_LogAnalyzer (fst (parse_log_file lines))) /\
  list_sum (map snd (get_hourly_distribution
                       (mk_LogAnalyzer (fst (parse_log_file lines)))))
  = length (fst (parse_log_file lines)).
Proof.
  destruct (read_lines_facts lines 1) as [_ [B _]]. cbv zeta in B.
  assert (W : well_formed (mk_LogAnalyzer (fst (parse_log_file lines)))).
  { unfold well_formed. cbn [log_entries].
    eapply Forall_impl; [|exact B]. intros e [_ V]. exact V. }
  split; [exact W|].
  unfold get_hourly_distribution. rewrite map_map. cbn [snd log_entries].
  rewrite (map_ext _
    (fun h => length (filter (fun e => Z.eqb (hour (timestamp e)) h)
                        (fst (parse_log_file lines))))).
  - apply hour_buckets_total. exact W.
  - intros h. now rewrite (get_Counter Z.eqb_spec), count_map.
Qed.






(* ------------------------------------------------------------------ *)
(** ** The dictionary of [detect_potential_attacks] in closed form *)

Lemma dd_extend_absent {A : Type} (key : string) (xs : list A)
  (d : list (string * list A)) :
  ~ In key (map fst d) -> dd_extend key xs d = d ++ [(key, xs)].
Proof.
  induction d as [|[k l] d IH]; simpl; intros N; [reflexivity|].
  destruct (String.eqb_spec k key) as [E|E]; [tauto|].
  rewrite IH; tauto.
Qed.

Lemma dd_extend_last {A : Type} (key : string) (xs l0 : list A)
  (d : list (string * list A)) :
  ~ In key (map fst d) ->
  dd_extend key xs (d ++ [(key, l0)]) = d ++ [(key, l0 ++ xs)].
Proof.
  induction d as [|[k l] d IH]; simpl; intros N.
  - now rewrite String.eqb_refl.
  - destruct (String.eqb_spec k key) as [E|E]; [tauto|].
    rewrite IH; tauto.
Qed.

Lemma extend_loop_known {X A : Type} (key : string) (f : X -> option (list A))
  (items : list X) (d : list (string * list A)) (l0 : list A) :
  ~ In key (map fst d) ->
  fold_left (fun d x => match f x with
                        | Some xs => dd_extend key xs d
                        | None => d
                        end) items (d ++ [(key, l0)])
  = d ++ [(key, l0 ++ flat_map (fun x => match f x with
                                         | Some xs => xs
                                         | None => []
                                         end) items)].
Proof.
  intros N. revert l0. induction items as [|x items IH]; intros l0; simpl.
  - now rewrite app_nil_r.
  - destruct (f x) as [xs|].
    + rewrite dd_extend_last by exact N. rewrite IH. now rewrite <- app_assoc.
    + apply IH.
Qed.

Lemma extend_loop_fresh {X A : Type} (key : string) (f : X -> option (list A))
  (items : list X) (d : list (string * list A)) :
  ~ In key (map fst d) ->
  fold_left (fun d x => match f x with
                        | Some xs => dd_extend key xs d
                        | None => d
                        end) items d
  = d ++ (if existsb (fun x => match f x with
                               | Some _ => true
                               | None => false
                               end) items
          then [(key, flat_map (fun x => match f x with
                                         | Some xs => xs
                                         | None => []
                                         end) items)]
          else []).
Proof.
  intros N. induction items as [|x items IH]; simpl.
  - now rewrite app_nil_r.
  - destruct (f x) as [xs|]; simpl.
    + rewrite dd_extend_absent by exact N.
      now rewrite (@extend_loop_known X A key f items d xs N).
    + exact IH.
Qed.

Lemma existsb_same {A : Type} (p q : A -> bool) (l : list A) :
  (forall x, p x = q x) -> existsb p l = existsb q l.
Proof.
  intros E. induction l as [|x l IH]; simpl; [reflexivity|].
  now rewrite E, IH.
Qed.

Lemma fold_left_ext {S X : Type} (f g : S -> X -> S) (l : list X) (s : S) :
  (forall s x, f s x = g s x) -> fold_left f l s = fold_left g l s.
Proof.
  intros E. revert s. induction l as [|x l IH]; intros s; simpl; [reflexivity|].
  now rewrite E, IH.
Qed.

Lemma flat_map_singleton_filter {A : Type} (cond : A -> bool) (l : list A) :
  flat_map (fun x => match (if cond x then Some [x] else None) with
                     | Some xs => xs | None => [] end) l
  = filter cond l.
Proof.
  induction l as [|x l IH]; simpl; [reflexivity|].
  rewrite IH. now destruct (cond x).
Qed.

Lemma existsb_filter_nil {A : Type} (cond : A -> bool) (l : list A) :
  existsb cond l = match filter cond l with [] => false | _ :: _ => true end.
Proof.
  induction l as [|x l IH]; simpl; [reflexivity|].
  destruct (cond x); [reflexivity | exact IH].
Qed.

(** The loop of a pattern category. *)
Lemma append_loop (key : string) (cond : LogEntry -> bool)
  (entries : list LogEntry) (d : list (string * list LogEntry)) :
  ~ In key (map fst d) ->
  fold_left (fun d entry => if cond entry then dd_append key entry d else d)
            entries d
  = d ++ category key (filter cond entries).
Proof.
  intros N.
  rewrite (@fold_left_ext _ _ _
             (fun d x => match (if cond x then Some [x] else None) with
                         | Some xs => dd_extend key xs d
                         | None => d
                         end));
    [|intros s x; now destruct (cond x)].
  rewrite extend_loop_fresh by exact N.
  rewrite flat_map_singleton_filter.
  rewrite (@existsb_same _ _ cond);
    [|intros x; now destruct (cond x)].
  rewrite existsb_filter_nil. unfold category.
  now destruct (filter cond entries).
Qed.

Lemma category_keys {A : Type} (key : string) (l : list A) (k : string) :
  In k (map fst (category key l)) -> k = key.
Proof. destruct l; simpl; [tauto|]. intros [E|[]]. now symmetry. Qed.

Lemma grouped_404s_nil (self : LogAnalyzer) :
  grouped_404s self = [] <->
  forall ip, length (records_404_of self ip) <= 10.
Proof.
  unfold grouped_404s. split.
  - intros E ip. destruct (Nat.ltb_spec 10 (length (records_404_of self ip)))
      as [L|L]; [exfalso | exact L].
    assert (I : In ip (addresses_404 self)).
    { unfold addresses_404. apply (In_distinct str_eqb_spec).
      destruct (records_404_of self ip) as [|e r] eqn:R; [simpl in L; lia|].
      assert (Ie : In e (records_404_of self ip)) by (rewrite R; now left).
      unfold records_404_of in Ie. apply filter_In in Ie.
      destruct Ie as [Ie C]. apply andb_true_iff in C. destruct C as [C1 C2].
      apply str_eqb_eq in C1. subst ip. apply in_map.
      apply filter_In. now split. }
    apply in_split in I. destruct I as [l1 [l2 I]]. rewrite I in E.
    rewrite flat_map_app in E. apply app_eq_nil in E. destruct E as [_ E].
    simpl in E. apply app_eq_nil in E. destruct E as [E _].
    apply Nat.ltb_lt in L. rewrite L in E. rewrite E in L. discriminate L.
  - intros H. apply flat_map_nil. intros ip _.
    now rewrite (proj2 (Nat.ltb_ge _ _) (H ip)).
Qed.

Lemma detect_closed_form (self : LogAnalyzer) :
  detect_potential_attacks self
  = category "sql_injection" (flagged_by sql_injection_pattern self)
    ++ category "path_traversal" (flagged_by path_traversal_pattern self)
    ++ category "excessive_404s" (grouped_404s self).
Proof.
  unfold detect_potential_attacks. cbv zeta.
  rewrite (@append_loop "sql_injection") by (simpl; tauto).
  cbn [app].
  rewrite (@append_loop "path_traversal");
    [|intros I; apply category_keys in I; discriminate I].
  fold (flagged_by sql_injection_pattern self).
  fold (flagged_by path_traversal_pattern self).
  set (d2 := category "sql_injection" (flagged_by sql_injection_pattern self)
             ++ category "path_traversal"
                  (flagged_by path_traversal_pattern self)).
  assert (N : ~ In "excessive_404s"%string (map fst d2)).
  { unfold d2. rewrite map_app, in_app_iff.
    intros [I|I]; apply category_keys in I; discriminate I. }
  rewrite fold_incr_filter.
  change (fold_left (fun c k => incr Str.eqb k c)
            (map ip_address (filter is_404 (log_entries self))) [])
    with (Counter Str.eqb (map ip_address (filter is_404 (log_entries self)))).
  set (ips := map ip_address (filter is_404 (log_entries self))).
  rewrite (@fold_left_ext _ _ _
             (fun d (item : str * nat) =>
                match (if 10 <? snd item
                       then Some (comprehension
                                    (fun entry => Str.eqb (ip_address entry) (fst item)
                                                  && is_404 entry)
                                    (log_entries self))
                       else None) with
                | Some xs => dd_extend "excessive_404s" xs d
                | None => d
                end));
    [|intros s [ip n]; cbn [fst snd]; now destruct (10 <? n)].
  rewrite extend_loop_fresh by exact N.
  unfold d2. rewrite <- app_assoc. do 2 f_equal.
  assert (C : forall k, count Str.eqb k ips = length (records_404_of self k)).
  { intros k. unfold ips, records_404_of. rewrite count_map.
    now rewrite filter_filter_and. }
  assert (G : flat_map
                (fun x : str * nat =>
                   match (if 10 <? snd x
                          then Some (comprehension
                                       (fun entry => Str.eqb (ip_address entry) (fst x)
                                                     && is_404 entry)
                                       (log_entries self))
                          else None) with
                   | Some xs => xs
                   | None => []
                   end) (Counter Str.eqb ips)
              = grouped_404s self).
  { rewrite (Counter_spec str_eqb_spec), flat_map_concat_map, map_map,
      <- flat_map_concat_map. cbn [fst snd].
    unfold grouped_404s, addresses_404. fold ips.
    apply flat_map_ext. intros ip. rewrite C, comprehension_filter.
    unfold records_404_of. now destruct (10 <? _). }
  rewrite G.
  match goal with |- (if ?b then _ else _) = _ => destruct b eqn:E end.
  - apply existsb_exists in E. destruct E as [[ip n] [I F]].
    rewrite (Counter_spec str_eqb_spec) in I. apply in_map_iff in I.
    destruct I as [k [K _]]. inversion K; subst. cbn [snd] in F. rewrite C in F.
    destruct (10 <? length (records_404_of self ip)) eqn:L; [|discriminate F].
    destruct (grouped_404s self) eqn:Z; [|reflexivity].
    apply grouped_404s_nil with (ip := ip) in Z.
    apply Nat.ltb_lt in L. lia.
  - destruct (grouped_404s self) as [|e g] eqn:Z; [reflexivity|exfalso].
    assert (Z' : grouped_404s self = []); [|rewrite Z' in Z; discriminate Z].
    apply grouped_404s_nil. intros ip.
    destruct (Nat.ltb_spec 10 (length (records_404_of self ip))) as [L|L];
      [exfalso | exact L].
    assert (I : In ip (distinct Str.eqb ips)).
    { apply (In_distinct str_eqb_spec).
      destruct (in_dec (list_eq_dec ascii_dec) ip ips) as [I|I]; [exact I|].
      apply (count_zero str_eqb_spec) in I. rewrite C in I. lia. }
    assert (Ex : existsb
                   (fun x : str * nat =>
                      match (if 10 <? snd x
                             then Some (comprehension
                                    (fun entry => Str.eqb (ip_address entry) (fst x)
                                                  && is_404 entry)
                                    (log_entries self))
                             else None) with
                      | Some _ => true
                      | None => false
                      end) (Counter Str.eqb ips) = true).
    { apply existsb_exists. exists (ip, count Str.eqb ip ips). split.
      - rewrite (Counter_spec str_eqb_spec). apply in_map_iff. now exists ip.
      - cbn [snd]. rewrite C. apply Nat.ltb_lt in L. now rewrite L. }
    rewrite Ex in E. discriminate E.
Qed.



(* ------------------------------------------------------------------ *)
(** ** The matcher finds what the pattern reads *)

Lemma star_greedy_sound {A : Type} (p : ascii -> bool) (s : str)
  (k1 : str -> option A) (x : A) :
  star_greedy p s k1 = Some x ->
  exists w s', s = w ++ s' /\ forallb p w = true /\ k1 s' = Some x.
Proof.
  induction s as [|c s IH]; simpl; intros H.
  - now exists [], [].
  - destruct (p c) eqn:P.
    + destruct (star_greedy p s k1) as [y|] eqn:G.
      * inversion H; subst y. destruct (IH eq_refl) as [w [s' [E [F K]]]].
        exists (c :: w), s'. simpl. rewrite P, F, E. auto.
      * now exists [], (c :: s).
    + now exists [], (c :: s).
Qed.

Lemma star_greedy_complete {A : Type} (p : ascii -> bool) (w s' : str)
  (k1 : str -> option A) :
  forallb p w = true -> k1 s' <> None -> star_greedy p (w ++ s') k1 <> None.
Proof.
  intros F K. induction w as [|c w IH]; simpl.
  - destruct s' as [|c s']; simpl; [exact K|].
    destruct (p c); [|exact K].
    destruct (star_greedy p s' k1); [discriminate | exact K].
  - simpl in F. apply andb_true_iff in F. destruct F as [P F]. rewrite P.
    specialize (IH F). destruct (star_greedy p (w ++ s') k1);
      [discriminate | tauto].
Qed.

Lemma star_lazy_sound {A : Type} (p : ascii -> bool) (s : str)
  (k1 : str -> option A) (x : A) :
  star_lazy p s k1 = Some x ->
  exists w s', s = w ++ s' /\ forallb p w = true /\ k1 s' = Some x.
Proof.
  intros H. apply star_lazy_first in H.
  destruct H as [u [z [E [F [K _]]]]]. now exists u, z.
Qed.

Lemma m_reads_sound {A : Type} (r : regex) :
  forall (s : str) (caps : list str) (k : str -> list str -> option A) (x : A),
    m r s caps k = Some x ->
    exists w s' g, s = w ++ s' /\ reads r w g /\ k s' (caps ++ g) = Some x.
Proof.
  induction r as [|p|r1 IH1 r2 IH2|r1 IH1 r2 IH2|p|p|p|r1 IH1];
    intros s caps k x H; cbn [m] in H.
  - exists [], s, []. rewrite app_nil_r. simpl. auto.
  - destruct s as [|c s]; [discriminate H|].
    destruct (p c) eqn:P; [|discriminate H].
    exists [c], s, []. rewrite app_nil_r. simpl. split; [reflexivity|].
    split; [|exact H]. split; [|reflexivity]. now exists c.
  - apply IH1 in H. destruct H as [w1 [s1 [g1 [E1 [R1 H]]]]].
    apply IH2 in H. destruct H as [w2 [s2 [g2 [E2 [R2 H]]]]].
    exists (w1 ++ w2), s2, (g1 ++ g2). rewrite E1, E2, <- !app_assoc.
    split; [reflexivity|]. split; [|now rewrite <- app_assoc in H].
    now exists w1, w2, g1, g2.
  - destruct (m r1 s caps k) as [y|] eqn:M.
    + inversion H; subst y. apply IH1 in M.
      destruct M as [w [s' [g [E [R K]]]]]. exists w, s', g. simpl. auto.
    + apply IH2 in H. destruct H as [w [s' [g [E [R K]]]]].
      exists w, s', g. simpl. auto.
  - apply star_greedy_sound in H. destruct H as [w [s' [E [F K]]]].
    exists w, s', []. rewrite app_nil_r. simpl. auto.
  - destruct s as [|c s]; [discriminate H|].
    destruct (p c) eqn:P; [|discriminate H].
    apply star_greedy_sound in H. destruct H as [w [s' [E [F K]]]].
    exists (c :: w), s', []. rewrite app_nil_r, E. simpl. rewrite P, F.
    repeat split; auto. discriminate.
  - apply star_lazy_sound in H. destruct H as [w [s' [E [F K]]]].
    exists w, s', []. rewrite app_nil_r. simpl. auto.
  - apply IH1 in H. destruct H as [w [s' [g [E [R K]]]]].
    exists w, s', (g ++ [w]). split; [exact E|]. split.
    + now exists g.
    + rewrite E, consumed_app in K. now rewrite app_assoc.
Qed.

Lemma m_reads_complete {A : Type} (r : regex) :
  forall (w s' : str) (g caps : list str) (k : str -> list str -> option A),
    reads r w g -> k s' (caps ++ g) <> None -> m r (w ++ s') caps k <> None.
Proof.
  induction r as [|p|r1 IH1 r2 IH2|r1 IH1 r2 IH2|p|p|p|r1 IH1];
    intros w s' g caps k R K; cbn [m]; cbn [reads] in R.
  - destruct R as [-> ->]. now rewrite app_nil_r in K.
  - destruct R as [[c [-> P]] ->]. simpl. rewrite P.
    now rewrite app_nil_r in K.
  - destruct R as [w1 [w2 [g1 [g2 [-> [-> [R1 R2]]]]]]].
    rewrite <- app_assoc. apply (IH1 w1 (w2 ++ s') g1); [exact R1|].
    apply (IH2 w2 s' g2); [exact R2|]. now rewrite <- app_assoc.
  - destruct R as [R|R].
    + specialize (IH1 w s' g caps k R K).
      destruct (m r1 (w ++ s') caps k); [discriminate | tauto].
    + destruct (m r1 (w ++ s') caps k); [discriminate|].
      now apply (IH2 w s' g).
  - destruct R as [F ->]. rewrite app_nil_r in K.
    now apply star_greedy_complete.
  - destruct R as [N [F ->]]. rewrite app_nil_r in K.
    destruct w as [|c w]; [congruence|]. simpl in F |- *.
    apply andb_true_iff in F. destruct F as [P F]. rewrite P.
    now apply star_greedy_complete.
  - destruct R as [F ->]. rewrite app_nil_r in K.
    now apply star_lazy_complete.
  - destruct R as [g1 [R ->]].
    apply (IH1 w s' g1); [exact R|].
    rewrite consumed_app. now rewrite <- app_assoc.
Qed.

(** A search succeeds exactly when the pattern reads some part of the
    text. *)
Lemma re_search_reads (r : regex) (s : str) :
  re_search r s = true <-> exists w g, reads r w g /\ occurs_in w s.
Proof.
  induction s as [|c s IH]; cbn [re_search].
  - destruct (re_match r []) as [[g0 rest]|] eqn:M.
    + split; [intros _ | reflexivity].
      unfold re_match in M. apply m_reads_sound in M.
      destruct M as [w [s' [g [E [R _]]]]]. exists w, g. split; [exact R|].
      exists [], s'. exact E.
    + split; [discriminate|]. intros [w [g [R [a [b E]]]]].
      destruct a; [|discriminate E]. simpl in E.
      exfalso. revert M. unfold re_match. rewrite E.
      apply (m_reads_complete r w b g); [exact R | discriminate].
  - destruct (re_match r (c :: s)) as [[g0 rest]|] eqn:M.
    + split; [intros _ | reflexivity].
      unfold re_match in M. apply m_reads_sound in M.
      destruct M as [w [s' [g [E [R _]]]]]. exists w, g. split; [exact R|].
      exists [], s'. exact E.
    + rewrite IH. split.
      * intros [w [g [R [a [b E]]]]]. exists w, g. split; [exact R|].
        exists (c :: a), b. simpl. now rewrite E.
      * intros [w [g [R [a [b E]]]]]. exists w, g. split; [exact R|].
        destruct a as [|c' a].
        -- exfalso. revert M. unfold re_match. simpl in E. rewrite E.
           apply (m_reads_complete r w b g); [exact R | discriminate].
        -- inversion E; subst. now exists a, b.
Qed.

Lemma reads_Lit (l : string) (w : str) (g : list str) :
  reads (Lit l) w g <-> w = lit l /\ g = [].
Proof.
  revert w g. induction l as [|c l IH]; intros w g; cbn [Lit reads lit].
  - simpl. tauto.
  - split.
    + intros [w1 [w2 [g1 [g2 [-> [-> [[[x [-> P]] ->] R]]]]]]].
      apply IH in R. destruct R as [-> ->].
      apply Ascii.eqb_eq in P. subst x. now split.
    + intros [-> ->]. exists [c], (lit l), [], [].
      repeat split; try reflexivity.
      * exists c. split; [reflexivity | apply Ascii.eqb_refl].
      * now apply IH.
Qed.

Lemma reads_ILit (l : string) (w : str) (g : list str) :
  reads (ILit l) w g <-> map lower w = map lower (lit l) /\ g = [].
Proof.
  revert w g. induction l as [|c l IH]; intros w g; cbn [ILit reads lit].
  - simpl. split; [intros [-> ->]; now split|].
    intros [E ->]. destruct w; [now split | discriminate E].
  - split.
    + intros [w1 [w2 [g1 [g2 [-> [-> [[[x [-> P]] ->] R]]]]]]].
      apply IH in R. destruct R as [E ->].
      apply Ascii.eqb_eq in P. simpl. now rewrite P, E.
    + intros [E ->]. destruct w as [|x w]; [discriminate E|].
      simpl in E. inversion E as [[E1 E2]].
      exists [x], w, [], []. repeat split; try reflexivity.
      * exists x. split; [reflexivity|]. rewrite E1. apply Ascii.eqb_refl.
      * now apply IH.
Qed.

(** X10: the path traversal pattern finds a path suspicious exactly when
    two dots followed by a slash, or two dots followed by a backslash,
    occur in it. *)
Theorem path_traversal_means_dot_dot_slash (p : str) :
  re_search path_traversal_pattern p = true <->
  occurs_in (lit "../") p \/ occurs_in (lit "..\") p.
Proof.
  rewrite re_search_reads. unfold path_traversal_pattern. cbn [reads]. split.
  - intros [w [g [[g1 [[R|R] _]] O]]]; apply reads_Lit in R;
      destruct R as [-> _]; [left | right]; exact O.
  - intros [O|O].
    + exists (lit "../"), [lit "../"]. split; [|exact O].
      exists []. split; [|reflexivity]. left. now apply reads_Lit.
    + exists (lit "..\"), [lit "..\"]. split; [|exact O].
      exists []. split; [|reflexivity]. right. now apply reads_Lit.
Qed.

(* ------------------------------------------------------------------ *)
(** ** What the SQL pattern finds *)

Lemma occurs_in_part (x w y p : str) :
  occurs_in (x ++ w ++ y) p -> occurs_in w p.
Proof.
  intros [a [b ->]]. exists (a ++ x), (y ++ b). now rewrite <- !app_assoc.
Qed.

Lemma reads_Plus_last (p : ascii -> bool) (w : str) (g : list str) :
  reads (Plus p) w g ->
  exists w' c, w = w' ++ [c] /\ p c = true /\ forallb p w' = true.
Proof.
  intros [N [F _]]. destruct (exists_last N) as [w' [c ->]].
  rewrite forallb_app in F. apply andb_true_iff in F. destruct F as [F1 F2].
  simpl in F2. rewrite andb_true_r in F2. now exists w', c.
Qed.

Lemma reads_Plus_first (p : ascii -> bool) (w : str) (g : list str) :
  reads (Plus p) w g ->
  exists c w', w = c :: w' /\ p c = true /\ forallb p w' = true.
Proof.
  intros [N [F _]]. destruct w as [|c w']; [congruence|].
  simpl in F. apply andb_true_iff in F. destruct F as [F1 F2].
  now exists c, w'.
Qed.

Lemma reads_Plus_one (p : ascii -> bool) (c : ascii) :
  p c = true -> reads (Plus p) [c] [].
Proof.
  intros P. cbn [reads]. split; [discriminate|]. simpl. now rewrite P.
Qed.

(** A word between white space. *)
Lemma reads_between_spaces (kw : string) (w : str) (g : list str) :
  reads (Plus is_space ;; ILit kw ;; Plus is_space) w g ->
  exists x c1 k c2 y,
    w = x ++ (c1 :: k ++ [c2]) ++ y /\
    is_space c1 = true /\ is_space c2 = true /\
    map lower k = map lower (lit kw).
Proof.
  cbn [reads].
  intros [w1 [w23 [g1 [g23 [-> [_ [R1 [w2 [w3 [g2 [g3 [-> [_ [R2 R3]]]]]]]]]]]]]].
  apply reads_Plus_last in R1. destruct R1 as [x [c1 [-> [P1 _]]]].
  apply reads_Plus_first in R3. destruct R3 as [c2 [y [-> [P3 _]]]].
  apply reads_ILit in R2. destruct R2 as [E _].
  exists x, c1, w2, c2, y. repeat split; try assumption.
  simpl. rewrite <- !app_assoc. reflexivity.
Qed.

Lemma reads_before_space (kw : string) (w : str) (g : list str) :
  reads (ILit kw ;; Plus is_space) w g ->
  exists k c y,
    w = (k ++ [c]) ++ y /\ is_space c = true /\
    map lower k = map lower (lit kw).
Proof.
  cbn [reads]. intros [w1 [w2 [g1 [g2 [-> [_ [R1 R2]]]]]]].
  apply reads_Plus_first in R2. destruct R2 as [c [y [-> [P _]]]].
  apply reads_ILit in R1. destruct R1 as [E _].
  exists w1, c, y. repeat split; try assumption.
  now rewrite <- app_assoc.
Qed.

Lemma between_spaces_reads (kw : string) (c1 c2 : ascii) (k : str) :
  is_space c1 = true -> is_space c2 = true ->
  map lower k = map lower (lit kw) ->
  reads (Plus is_space ;; ILit kw ;; Plus is_space) (c1 :: k ++ [c2]) [].
Proof.
  intros P1 P2 E. cbn [reads].
  exists [c1], (k ++ [c2]), [], []. repeat split; try reflexivity.
  - discriminate.
  - simpl. now rewrite P1.
  - exists k, [c2], [], []. repeat split; try reflexivity.
    + now apply reads_ILit.
    + discriminate.
    + simpl. now rewrite P2.
Qed.

Lemma before_space_reads (kw : string) (c : ascii) (k : str) :
  is_space c = true -> map lower k = map lower (lit kw) ->
  reads (ILit kw ;; Plus is_space) (k ++ [c]) [].
Proof.
  intros P E. cbn [reads].
  exists k, [c], [], []. repeat split; try reflexivity.
  - now apply reads_ILit.
  - discriminate.
  - simpl. now rewrite P.
Qed.

Lemma sql_token_reads (w : str) :
  sql_token w -> exists g, reads sql_injection_pattern w g.
Proof.
  unfold sql_injection_pattern.
  intros [->|[->|[->|[[c1 [k [c2 [-> [P1 [P2 I]]]]]]|[k [c [-> [P I]]]]]]]];
    eexists; cbn [reads]; exists []; (split; [|reflexivity]).
  - left. split; [|reflexivity]. now exists "'"%char.
  - right; left. split; [|reflexivity]. exists dq. split; [reflexivity|].
    apply Ascii.eqb_refl.
  - do 7 right. now apply reads_Lit.
  - destruct I as [E|[E|[E|[]]]].
    + right; right; left. apply between_spaces_reads; auto.
    + do 3 right; left. apply between_spaces_reads; auto.
    + do 4 right; left. apply between_spaces_reads; auto.
  - destruct I as [E|[E|[]]].
    + do 5 right; left. apply before_space_reads; auto.
    + do 6 right; left. apply before_space_reads; auto.
Qed.

Lemma reads_sql_token (w : str) (g : list str) :
  reads sql_injection_pattern w g ->
  exists x t y, w = x ++ t ++ y /\ sql_token t.
Proof.
  unfold sql_injection_pattern. cbn [reads].
  intros [g1 [[R|[R|[R|[R|[R|[R|[R|R]]]]]]] _]].
  - destruct R as [[c [-> P]] _]. apply Ascii.eqb_eq in P. subst c.
    exists [], (lit "'"), []. split; [reflexivity|]. now left.
  - destruct R as [[c [-> P]] _]. apply Ascii.eqb_eq in P. subst c.
    exists [], [dq], []. split; [reflexivity|]. right. now left.
  - apply (reads_between_spaces "or") in R.
    destruct R as [x [c1 [k [c2 [y [-> [P1 [P2 E]]]]]]]].
    exists x, (c1 :: k ++ [c2]), y. split; [reflexivity|].
    do 3 right. left. exists c1, k, c2. repeat split; auto.
    rewrite E. now left.
  - apply (reads_between_spaces "and") in R.
    destruct R as [x [c1 [k [c2 [y [-> [P1 [P2 E]]]]]]]].
    exists x, (c1 :: k ++ [c2]), y. split; [reflexivity|].
    do 3 right. left. exists c1, k, c2. repeat split; auto.
    rewrite E. right. now left.
  - apply (reads_between_spaces "union") in R.
    destruct R as [x [c1 [k [c2 [y [-> [P1 [P2 E]]]]]]]].
    exists x, (c1 :: k ++ [c2]), y. split; [reflexivity|].
    do 3 right. left. exists c1, k, c2. repeat split; auto.
    rewrite E. right. right. now left.
  - apply (reads_before_space "select") in R.
    destruct R as [k [c [y [-> [P E]]]]].
    exists [], (k ++ [c]), y. split; [reflexivity|].
    do 4 right. exists k, c. repeat split; auto. rewrite E. now left.
  - apply (reads_before_space "drop") in R.
    destruct R as [k [c [y [-> [P E]]]]].
    exists [], (k ++ [c]), y. split; [reflexivity|].
    do 4 right. exists k, c. repeat split; auto. rewrite E. right. now left.
  - apply reads_Lit in R. destruct R as [-> _].
    exists [], (lit "--"), []. split; [reflexivity|]. do 2 right. now left.
Qed.

(** X11: the SQL pattern finds a path suspicious exactly when the path
    contains an apostrophe, a double quote, two dashes, one of the words
    or, and, union with a white space character on both sides, or one of
    the words select, drop with a white space character after it, the
    words in any mix of upper and lower case. *)
Theorem sql_pattern_means_sql_token (p : str) :
  re_search sql_injection_pattern p = true <->
  exists t, sql_token t /\ occurs_in t p.
Proof.
  rewrite re_search_reads. split.
  - intros [w [g [R O]]]. apply reads_sql_token in R.
    destruct R as [x [t [y [-> T]]]]. exists t. split; [exact T|].
    now apply occurs_in_part in O.
  - intros [t [T O]]. apply sql_token_reads in T. destruct T as [g R].
    now exists t, g.
Qed.

(* ------------------------------------------------------------------ *)
(** ** The fields of a record are in its line *)

Ltac open_reads :=
  repeat match goal with
    | H : exists _, _ |- _ => destruct H as [? H]
    | H : _ /\ _ |- _ => destruct H as [? ?]
    | H : reads (Lit _) _ _ |- _ => apply reads_Lit in H
    end.

Lemma reads_dotted_quad (w : str) (g : list str) :
  reads (Plus is_digit ;; Lit "." ;; Plus is_digit ;; Lit "." ;;
         Plus is_digit ;; Lit "." ;; Plus is_digit) w g ->
  dotted_quad w /\ g = [].
Proof.
  cbn [reads]. intros H. open_reads. subst. split; [|reflexivity].
  unfold dotted_quad, run_of. do 4 eexists. split; [reflexivity|].
  repeat split; assumption.
Qed.

Lemma reads_COMMON (w : str) (g : list str) :
  reads COMMON_LOG_PATTERN w g ->
  exists ip ts meth pth d1 d2 status size,
    w = common_text ip ts meth pth d1 d2 status size /\
    g = [ip; ts; meth; pth; status; size] /\
    dotted_quad ip /\ forallb not_nl ts = true /\
    run_of is_upper meth /\ forallb not_nl pth = true /\
    is_digit d1 = true /\ is_digit d2 = true /\
    run_of is_digit status /\ run_of is_digit size.
Proof.
  unfold COMMON_LOG_PATTERN.
  cbn [reads].
  intros (w1 & w2 & g1 & g2 & -> & -> & (g0 & R & ->) & H).
  apply reads_dotted_quad in R. destruct R as [R ->].
  open_reads. subst.
  match goal with H : Ascii.eqb dq _ = true |- _ =>
    apply Ascii.eqb_eq in H; subst end.
  match goal with H : Ascii.eqb dq _ = true |- _ =>
    apply Ascii.eqb_eq in H; subst end.
  do 8 eexists. unfold common_text, run_of.
  split; [|split; [reflexivity|]].
  - cbn [lit list_ascii_of_string app]. rewrite <- ?app_assoc.
    cbn [app]. reflexivity.
  - repeat split; eassumption.
Qed.

Lemma reads_COMBINED_TAIL (w : str) (g : list str) :
  reads COMBINED_TAIL w g ->
  exists ref ua,
    w = combined_tail_text ref ua /\ g = [ref; ua] /\
    forallb not_nl ref = true /\ forallb not_nl ua = true.
Proof.
  unfold COMBINED_TAIL. cbn [reads]. intros H. open_reads. subst.
  repeat match goal with H : Ascii.eqb dq _ = true |- _ =>
    apply Ascii.eqb_eq in H; subst end.
  do 2 eexists. unfold combined_tail_text.
  split; [|split; [reflexivity|split; eassumption]].
  cbn [lit list_ascii_of_string app]. rewrite <- ?app_assoc.
  cbn [app]. reflexivity.
Qed.

Lemma re_match_reads (r : regex) (s : str) (g : list str) (rest : str) :
  re_match r s = Some (g, rest) ->
  exists w, s = w ++ rest /\ reads r w g.
Proof.
  unfold re_match. intros H. apply m_reads_sound in H.
  destruct H as [w [s' [g' [E [R K]]]]]. inversion K; subst.
  now exists w.
Qed.

Lemma entry_of_common_reads (log_line : str) (g : list str) (e : LogEntry) :
  entry_of_common log_line g = Some e ->
  parse_timestamp (group g 1) = Some (timestamp e) /\
  py_int (group g 4) = Some (status_code e) /\
  py_int (group g 5) = Some (response_size e) /\
  ip_address e = group g 0 /\ method e = group g 2 /\ path e = group g 3 /\
  referer e = None /\ user_agent e = None.
Proof.
  unfold entry_of_common. intros H.
  destruct (parse_timestamp (group g 1)) as [t|]; [|discriminate H].
  destruct (py_int (group g 4)) as [sc|]; [|discriminate H].
  destruct (py_int (group g 5)) as [rs|]; [|discriminate H].
  inversion H; subst e. cbn. repeat split; reflexivity.
Qed.

Lemma entry_of_combined_reads (log_line : str) (g : list str) (e : LogEntry) :
  entry_of_combined log_line g = Some e ->
  parse_timestamp (group g 1) = Some (timestamp e) /\
  py_int (group g 4) = Some (status_code e) /\
  py_int (group g 5) = Some (response_size e) /\
  ip_address e = group g 0 /\ method e = group g 2 /\ path e = group g 3 /\
  referer e = dash_to_None (group g 6) /\
  user_agent e = dash_to_None (group g 7).
Proof.
  unfold entry_of_combined. intros H.
  destruct (parse_timestamp (group g 1)) as [t|]; [|discriminate H].
  destruct (py_int (group g 4)) as [sc|]; [|discriminate H].
  destruct (py_int (group g 5)) as [rs|]; [|discriminate H].
  inversion H; subst e. cbn. repeat split; reflexivity.
Qed.

(** X12: every field of a record that [parse_log_line] returns is read
    from the line.  The line begins with the address of the record, then
    [ - - ] and a bracketed text whose parse is the timestamp of the
    record, then in double quotes the method, the path and a protocol
    HTTP/d.d, then two numerals whose values are the status code and the
    response size.  The address is four runs of digits with dots between,
    the method a run of upper case letters.  A referer or a user agent of
    the record is the content of one of two quoted fields that follow. *)
Theorem parsed_fields_are_read_from_the_line (log_line : str) (e : LogEntry) :
  parse_log_line log_line = Some e ->
  exists ts d1 d2 status size rest,
    log_line
    = common_text (ip_address e) ts (method e) (path e) d1 d2 status size
      ++ rest /\
    parse_timestamp ts = Some (timestamp e) /\
    py_int status = Some (status_code e) /\
    py_int size = Some (response_size e) /\
    dotted_quad (ip_address e) /\ run_of is_upper (method e) /\
    forallb not_nl (path e) = true /\
    is_digit d1 = true /\ is_digit d2 = true /\
    ((referer e = None /\ user_agent e = None) \/
     exists ref ua rest',
       rest = combined_tail_text ref ua ++ rest' /\
       referer e = dash_to_None ref /\ user_agent e = dash_to_None ua).
Proof.
  unfold parse_log_line. intros H.
  destruct (re_match COMBINED_LOG_PATTERN log_line) as [[g rest]|] eqn:M.
  - apply re_match_reads in M. destruct M as [w [-> R]].
    unfold COMBINED_LOG_PATTERN in R. cbn [reads] in R.
    destruct R as (w1 & w2 & g1 & g2 & -> & -> & R1 & R2).
    apply reads_COMMON in R1.
    destruct R1 as (ip & ts & meth & pth & d1 & d2 & status & size
                    & -> & -> & Q & _ & U & P & D1 & D2 & _ & _).
    apply reads_COMBINED_TAIL in R2.
    destruct R2 as (ref & ua & -> & -> & _ & _).
    apply entry_of_combined_reads in H. cbn [group nth app] in H.
    destruct H as (T & S1 & S2 & -> & -> & -> & Rf & Ua).
    exists ts, d1, d2, status, size, (combined_tail_text ref ua ++ rest).
    rewrite <- app_assoc. split; [reflexivity|]. split; [exact T|]. split; [exact S1|].
    split; [exact S2|]. split; [exact Q|]. split; [exact U|].
    split; [exact P|]. split; [exact D1|]. split; [exact D2|].
    right. now exists ref, ua, rest.
  - destruct (re_match COMMON_LOG_PATTERN log_line) as [[g rest]|] eqn:M';
      [|discriminate H].
    apply re_match_reads in M'. destruct M' as [w [-> R1]].
    apply reads_COMMON in R1.
    destruct R1 as (ip & ts & meth & pth & d1 & d2 & status & size
                    & -> & -> & Q & _ & U & P & D1 & D2 & _ & _).
    apply entry_of_common_reads in H. cbn [group nth] in H.
    destruct H as (T & S1 & S2 & -> & -> & -> & Rf & Ua).
    exists ts, d1, d2, status, size, rest.
    split; [reflexivity|]. split; [exact T|]. split; [exact S1|].
    split; [exact S2|]. split; [exact Q|]. split; [exact U|].
    split; [exact P|]. split; [exact D1|]. split; [exact D2|]. now left.
Qed.

Lemma parsed_fields_are_read_from_the_line_witness :
  exists ts d1 d2 status size rest,
    example_line
    = common_text (ip_address example_entry) ts (method example_entry)
        (path example_entry) d1 d2 status size ++ rest /\
    parse_timestamp ts = Some (timestamp example_entry).
Proof.
  assert (H : parse_log_line example_line = Some example_entry)
    by (vm_compute; reflexivity).
  destruct (@parsed_fields_are_read_from_the_line example_line example_entry H)
    as (ts & d1 & d2 & status & size & rest & E & T & _).
  now exists ts, d1, d2, status, size, rest.
Defined.

(* ------------------------------------------------------------------ *)
(** ** The match that is found first *)

Lemma first_choice_weaken (P Q : str -> Prop) (r : regex) (w : str)
  (g : list str) :
  (forall s, P s -> Q s) -> first_choice Q r w g -> first_choice P r w g.
Proof. intros I F A s' caps k x H K. apply F; auto. Qed.

Lemma fc_Chr (P : str -> Prop) (p : ascii -> bool) (c : ascii) :
  p c = true -> first_choice P (Chr p) [c] [].
Proof.
  intros H A s' caps k x _ K. cbn [m app]. rewrite H.
  now rewrite app_nil_r in K.
Qed.

Lemma fc_Seq (P Q : str -> Prop) (r1 r2 : regex) (w1 w2 : str)
  (g1 g2 : list str) :
  first_choice Q r1 w1 g1 -> first_choice P r2 w2 g2 ->
  (forall s', P s' -> Q (w2 ++ s')) ->
  first_choice P (r1 ;; r2) (w1 ++ w2) (g1 ++ g2).
Proof.
  intros F1 F2 I A s' caps k x H K. cbn [m]. rewrite <- app_assoc.
  apply F1; [now apply I|]. apply F2; [exact H|].
  now rewrite <- app_assoc.
Qed.

Lemma fc_Group (P : str -> Prop) (r : regex) (w : str) (g : list str) :
  first_choice P r w g -> first_choice P (Group r) w (g ++ [w]).
Proof.
  intros F A s' caps k x H K. cbn [m]. apply F; [exact H|].
  rewrite consumed_app. now rewrite <- app_assoc.
Qed.

Lemma fc_Lit (P : str -> Prop) (l : string) : first_choice P (Lit l) (lit l) [].
Proof.
  intros A s' caps k x _ K. rewrite app_nil_r in K. rewrite m_Lit.
  assert (E : expects (lit l) (lit l ++ s') = Some s').
  { unfold lit. induction (list_ascii_of_string l) as [|c u IH];
      [reflexivity|]. cbn [app expects]. now rewrite Ascii.eqb_refl. }
  now rewrite E.
Qed.

Lemma fc_ILit (P : str -> Prop) (l : string) (w : str) :
  map lower w = map lower (lit l) -> first_choice P (ILit l) w [].
Proof.
  intros E A s' caps k x _ K. rewrite app_nil_r in K.
  revert w E. induction l as [|c l IH]; intros w E.
  - destruct w; [exact K | discriminate E].
  - destruct w as [|y w]; [discriminate E|].
    cbn [lit list_ascii_of_string map] in E. inversion E as [[E1 E2]].
    cbn [ILit m app]. rewrite E1, Ascii.eqb_refl. now apply IH.
Qed.

Lemma fc_Alt_l (P : str -> Prop) (r1 r2 : regex) (w : str) (g : list str) :
  first_choice P r1 w g -> first_choice P (r1 <|> r2) w g.
Proof.
  intros F A s' caps k x H K. cbn [m]. now rewrite (F A s' caps k x H K).
Qed.

Lemma fc_Alt_r (P : str -> Prop) (r1 r2 : regex) (w : str) (g : list str) :
  (forall s', P s' -> refuses r1 (w ++ s')) ->
  first_choice P r2 w g -> first_choice P (r1 <|> r2) w g.
Proof.
  intros R F A s' caps k x H K. cbn [m]. rewrite (R s' H A caps k).
  now apply F.
Qed.

Lemma star_greedy_run {A : Type} (p : ascii -> bool) (w s' : str)
  (k1 : str -> option A) (x : A) :
  forallb p w = true -> not_starting p s' -> k1 s' = Some x ->
  star_greedy p (w ++ s') k1 = Some x.
Proof.
  intros F N K. induction w as [|c w IH]; cbn [app].
  - destruct s' as [|c s']; [exact K|]. cbn [star_greedy].
    simpl in N. now rewrite N.
  - simpl in F. apply andb_true_iff in F. destruct F as [Pc F].
    cbn [star_greedy]. rewrite Pc. now rewrite (IH F).
Qed.

Lemma fc_Plus (p : ascii -> bool) (w : str) :
  run_of p w -> first_choice (not_starting p) (Plus p) w [].
Proof.
  intros [N F] A s' caps k x H K. rewrite app_nil_r in K.
  destruct w as [|c w]; [congruence|]. simpl in F.
  apply andb_true_iff in F. destruct F as [Pc F].
  cbn [m app]. rewrite Pc. now apply star_greedy_run.
Qed.

(** A lazy group takes the text [w1] when what follows the group cannot
    start any earlier. *)
Lemma fc_lazy_group (P : str -> Prop) (p : ascii -> bool) (r : regex)
  (w1 w : str) (g : list str) :
  forallb p w1 = true ->
  (forall u1 u2 s', w1 = u1 ++ u2 -> u2 <> [] -> P s' ->
                    refuses r (u2 ++ w ++ s')) ->
  first_choice P r w g ->
  first_choice P (Group (LazyStar p) ;; r) (w1 ++ w) (w1 :: g).
Proof.
  intros F R Fr A s' caps k x H K. cbn [m].
  apply star_lazy_first. exists w1, (w ++ s').
  split; [now rewrite <- app_assoc|]. split; [exact F|]. split.
  - rewrite <- app_assoc, consumed_app. apply Fr; [exact H|].
    rewrite <- app_assoc. exact K.
  - intros u1 u2 E N. apply (R u1 u2 s' E N H).
Qed.

(** The matcher refuses a text that the pattern cannot read a start of. *)
Lemma refuses_unread (r : regex) (s : str) :
  (forall w s' g, s = w ++ s' -> ~ reads r w g) -> refuses r s.
Proof.
  intros H A caps k. destruct (m r s caps k) as [x|] eqn:M; [|reflexivity].
  apply m_reads_sound in M. destruct M as [w [s' [g [E [R _]]]]].
  destruct (H w s' g E R).
Qed.

Lemma first_choice_match (r : regex) (w : str) (g : list str) :
  first_choice any_text r w g -> re_match r w = Some (g, []).
Proof.
  intros F. unfold re_match. rewrite <- (app_nil_r w) at 1.
  apply F; [exact I | reflexivity].
Qed.

Lemma fc_Group0 (P : str -> Prop) (r : regex) (w : str) :
  first_choice P r w [] -> first_choice P (Group r) w [w].
Proof. intros F. now apply (fc_Group F). Qed.

Lemma fcs_Group (P Q : str -> Prop) (r1 r2 : regex) (w1 w2 : str)
  (g2 : list str) :
  first_choice Q r1 w1 [] -> first_choice P r2 w2 g2 ->
  (forall s', P s' -> Q (w2 ++ s')) ->
  first_choice P (Group r1 ;; r2) (w1 ++ w2) (w1 :: g2).
Proof.
  intros F1 F2 I.
  apply (@fc_Seq P Q (Group r1) r2 w1 w2 [w1] g2); auto.
  now apply fc_Group0.
Qed.

Lemma fcs_Lit (P : str -> Prop) (l : string) (r : regex) (w : str)
  (g : list str) :
  first_choice P r w g -> first_choice P (Lit l ;; r) (lit l ++ w) g.
Proof.
  intros F.
  apply (@fc_Seq P any_text (Lit l) r (lit l) w [] g); auto.
  - apply fc_Lit.
  - intros; exact I.
Qed.

Lemma fcs_Chr (P : str -> Prop) (p : ascii -> bool) (c : ascii) (r : regex)
  (w : str) (g : list str) :
  p c = true -> first_choice P r w g ->
  first_choice P (Chr p ;; r) (c :: w) g.
Proof.
  intros H F.
  apply (@fc_Seq P any_text (Chr p) r [c] w [] g); auto.
  - now apply fc_Chr.
  - intros; exact I.
Qed.

Lemma fcs_Plus (P : str -> Prop) (p : ascii -> bool) (r : regex)
  (w1 w : str) (g : list str) :
  run_of p w1 -> first_choice P r w g ->
  (forall s', P s' -> not_starting p (w ++ s')) ->
  first_choice P (Plus p ;; r) (w1 ++ w) g.
Proof.
  intros R F N.
  apply (@fc_Seq P (not_starting p) (Plus p) r w1 w [] g); auto.
  now apply fc_Plus.
Qed.

Lemma fcs_GroupPlus (P : str -> Prop) (p : ascii -> bool) (r : regex)
  (w1 w : str) (g : list str) :
  run_of p w1 -> first_choice P r w g ->
  (forall s', P s' -> not_starting p (w ++ s')) ->
  first_choice P (Group (Plus p) ;; r) (w1 ++ w) (w1 :: g).
Proof.
  intros R F N. apply (@fcs_Group P (not_starting p)); auto.
  now apply fc_Plus.
Qed.

(* ------------------------------------------------------------------ *)
(** ** [strptime] reads what [strftime] writes *)

Lemma Z_range_cases (P : Z -> Prop) (lo : Z) (n : nat) :
  (forall i, i < n -> P (lo + Z.of_nat i)%Z) ->
  forall z, (lo <= z < lo + Z.of_nat n)%Z -> P z.
Proof.
  intros H z B. replace z with (lo + Z.of_nat (Z.to_nat (z - lo)))%Z by lia.
  apply H. lia.
Qed.

(** One value of a field: the text is evaluated, and the pattern is run
    on it before an unknown rest. *)
Ltac field_case :=
  split;
  [ match goal with
    | |- first_choice ?P ?r ?w ?g =>
        let w' := eval vm_compute in w in
        change (first_choice P r w' g)
    end;
    let A := fresh "A" in let s' := fresh "s" in let caps := fresh "caps" in
    let k := fresh "k" in let x := fresh "x" in let K := fresh "K" in
    intros A s' caps k x _ K; rewrite app_nil_r in K; vm_compute;
    first [exact K | rewrite K; reflexivity]
  | vm_compute; reflexivity ].

Lemma day_field (d : Z) :
  (1 <= d <= 31)%Z ->
  first_choice any_text re_d (pad2 d) [] /\
  py_int (skip_blank (pad2 d)) = Some d.
Proof.
  intros B. apply (@Z_range_cases
    (fun d => first_choice any_text re_d (pad2 d) [] /\
              py_int (skip_blank (pad2 d)) = Some d) 1%Z 31); [|lia].
  intros i Hi. do 31 (destruct i as [|i]; [field_case|]). exfalso; lia.
Qed.

Lemma month_field (mo : Z) :
  (1 <= mo <= 12)%Z ->
  first_choice any_text re_b (month_name mo) [] /\
  month_index month_abbr 1 (month_name mo) = Some mo.
Proof.
  intros B. apply (@Z_range_cases
    (fun mo => first_choice any_text re_b (month_name mo) [] /\
               month_index month_abbr 1 (month_name mo) = Some mo) 1%Z 12);
    [|lia].
  intros i Hi. do 12 (destruct i as [|i]; [field_case|]). exfalso; lia.
Qed.

Lemma hour_field (h : Z) :
  (0 <= h <= 23)%Z ->
  first_choice any_text re_H (pad2 h) [] /\ py_int (pad2 h) = Some h.
Proof.
  intros B. apply (@Z_range_cases
    (fun h => first_choice any_text re_H (pad2 h) [] /\
              py_int (pad2 h) = Some h) 0%Z 24); [|lia].
  intros i Hi. do 24 (destruct i as [|i]; [field_case|]). exfalso; lia.
Qed.

Lemma minute_field (mi : Z) :
  (0 <= mi <= 59)%Z ->
  first_choice any_text re_M (pad2 mi) [] /\ py_int (pad2 mi) = Some mi.
Proof.
  intros B. apply (@Z_range_cases
    (fun mi => first_choice any_text re_M (pad2 mi) [] /\
               py_int (pad2 mi) = Some mi) 0%Z 60); [|lia].
  intros i Hi. do 60 (destruct i as [|i]; [field_case|]). exfalso; lia.
Qed.

Lemma second_field (s : Z) :
  (0 <= s <= 59)%Z ->
  first_choice any_text re_S (pad2 s) [] /\ py_int (pad2 s) = Some s.
Proof.
  intros B. apply (@Z_range_cases
    (fun s => first_choice any_text re_S (pad2 s) [] /\
              py_int (pad2 s) = Some s) 0%Z 60); [|lia].
  intros i Hi. do 60 (destruct i as [|i]; [field_case|]). exfalso; lia.
Qed.

Lemma is_digit_digit_char (n : Z) : is_digit (digit_char n) = true.
Proof.
  unfold is_digit, between. rewrite code_digit_char.
  change (code "0") with 48. change (code "9") with 57.
  pose proof (Z.mod_pos_bound n 10).
  apply andb_true_iff. split; apply Nat.leb_le; lia.
Qed.

Lemma digit_val_digit_char (n : Z) : digit_val (digit_char n) = (n mod 10)%Z.
Proof.
  unfold digit_val. rewrite code_digit_char.
  pose proof (Z.mod_pos_bound n 10). lia.
Qed.

Lemma year_field (y : Z) :
  (0 <= y <= 9999)%Z ->
  first_choice any_text re_Y (pad4 y) [] /\ py_int (pad4 y) = Some y.
Proof.
  intros B. split.
  - unfold re_Y, pad4.
    do 3 (apply fcs_Chr; [apply is_digit_digit_char|]).
    apply fc_Chr. apply is_digit_digit_char.
  - unfold py_int, pad4. cbn [forallb]. rewrite !is_digit_digit_char.
    change (Z.of_nat (length [digit_char (y / 1000); digit_char (y / 100);
                              digit_char (y / 10); digit_char y])
            <=? int_max_str_digits)%Z with true.
    cbn [andb fold_left]. rewrite !digit_val_digit_char. f_equal.
    destruct (@digits4 y) as (x3 & x2 & x1 & x0 & B3 & B2 & B1 & B0
                              & E3 & E2 & E1 & E0 & E); [lia|].
    rewrite E3, E2, E1, E0. lia.
Qed.

Lemma strptime_regex_first (d : datetime) :
  valid_datetime d = true ->
  first_choice any_text strptime_regex (strftime d)
    [pad2 (day d); month_name (month d); pad4 (year d); pad2 (hour d);
     pad2 (minute d); pad2 (second d)].
Proof.
  intros V. pose proof (@valid_date_bounds d V) as (By & Bm & Bd).
  unfold valid_datetime in V.
  repeat (apply andb_true_iff in V; destruct V as [V ?]).
  unfold strptime_regex, strftime.
  assert (T : forall w s' : str, any_text s' -> any_text (w ++ s'))
    by (intros; exact I).
  apply fcs_Group with (Q := any_text);
    [apply day_field; lia | apply fcs_Lit | auto].
  apply fcs_Group with (Q := any_text);
    [apply month_field; lia | apply fcs_Lit | auto].
  apply fcs_Group with (Q := any_text);
    [apply year_field; lia | apply fcs_Lit | auto].
  apply fcs_Group with (Q := any_text);
    [apply hour_field; lia | apply fcs_Lit | auto].
  apply fcs_Group with (Q := any_text);
    [apply minute_field; lia | apply fcs_Lit | auto].
  apply fc_Group0. apply second_field; lia.
Qed.

Lemma strptime_strftime (d : datetime) :
  valid_datetime d = true -> strptime (strftime d) = Some d.
Proof.
  intros V. unfold strptime.
  rewrite (first_choice_match (@strptime_regex_first d V)).
  pose proof (@valid_date_bounds d V) as (By & Bm & Bd).
  assert (V' := V). unfold valid_datetime in V'.
  repeat (apply andb_true_iff in V'; destruct V' as [V' ?]).
  cbn [group nth].
  rewrite (proj2 (@day_field (day d) ltac:(lia))).
  rewrite (proj2 (@month_field (month d) ltac:(lia))).
  rewrite (proj2 (@year_field (year d) ltac:(lia))).
  rewrite (proj2 (@hour_field (hour d) ltac:(lia))).
  rewrite (proj2 (@minute_field (minute d) ltac:(lia))).
  rewrite (proj2 (@second_field (second d) ltac:(lia))).
  unfold make_datetime. destruct d; cbn in V |- *. now rewrite V.
Qed.

(** The characters that [strftime] writes: digits, the two separators and
    the letters of a month name. *)
Lemma strftime_forall (q : ascii -> bool) (d : datetime) :
  (forall c, is_digit c = true -> q c = true) ->
  q "/"%char = true -> q ":"%char = true ->
  forallb (fun mo => forallb q (month_name mo)) (range 13) = true ->
  valid_datetime d = true -> forallb q (strftime d) = true.
Proof.
  intros Qd Q1 Q2 Qm V.
  pose proof (@valid_date_bounds d V) as (_ & Bm & _).
  assert (M : forallb q (month_name (month d)) = true).
  { rewrite forallb_forall in Qm. apply (Qm (month d)).
    unfold range. apply in_map_iff. exists (Z.to_nat (month d)).
    split; [lia|]. apply in_seq. lia. }
  unfold strftime, pad2, pad4.
  rewrite !forallb_app. cbn [forallb lit list_ascii_of_string].
  rewrite !(fun n => Qd (digit_char n) (is_digit_digit_char n)).
  now rewrite M, Q1, Q2.
Qed.

Lemma digit_not_bracket (c : ascii) :
  is_digit c = true -> negb (Ascii.eqb c "]") = true.
Proof. destruct c as [[] [] [] [] [] [] [] []]; vm_compute; congruence. Qed.

Lemma digit_no_space (c : ascii) :
  is_digit c = true -> negb (Ascii.eqb c " ") = true.
Proof. destruct c as [[] [] [] [] [] [] [] []]; vm_compute; congruence. Qed.

Lemma digit_not_nl (c : ascii) : is_digit c = true -> not_nl c = true.
Proof. destruct c as [[] [] [] [] [] [] [] []]; vm_compute; congruence. Qed.

Lemma parse_timestamp_strftime (d : datetime) (tz : str) :
  valid_datetime d = true ->
  parse_timestamp (strftime d ++ " "%char :: tz) = Some d.
Proof.
  intros V. unfold parse_timestamp. rewrite before_space_app.
  - now apply strptime_strftime.
  - apply strftime_forall; try reflexivity; [apply digit_no_space | exact V].
Qed.

(** X13: [parse_timestamp] reads back what [strftime] writes with the
    format of [generate_sample_log].  For every datetime with a year of
    four digits, the text [%d/%b/%Y:%H:%M:%S] of the datetime, alone or
    followed by a space and any timezone, is parsed to that datetime. *)
Theorem timestamps_are_read_back (d : datetime) (tz : str) :
  valid_datetime d = true -> (1000 <= year d)%Z ->
  parse_timestamp (strftime d) = Some d /\
  parse_timestamp (strftime d ++ " "%char :: tz) = Some d.
Proof.
  intros V _. split; [|now apply parse_timestamp_strftime].
  unfold parse_timestamp. rewrite before_space_none.
  - now apply strptime_strftime.
  - apply strftime_forall; try reflexivity; [apply digit_no_space | exact V].
Qed.

Lemma timestamps_are_read_back_witness :
  parse_timestamp (lit "19/Apr/2023:13:55:36 +0000")
  = Some (mk_datetime 2023 4 19 13 55 36).
Proof.
  apply (proj2 (@timestamps_are_read_back (mk_datetime 2023 4 19 13 55 36)
                  (lit "+0000") eq_refl ltac:(cbn; lia))).
Defined.

(* ------------------------------------------------------------------ *)
(** ** A line of the combined format is read back *)

Lemma without_head (c x : ascii) (s : str) :
  without c (x :: s) = true -> x <> c /\ without c s = true.
Proof.
  unfold without. cbn [forallb]. intros H.
  apply andb_true_iff in H. destruct H as [H1 H2]. split; [|exact H2].
  intros ->. now rewrite Ascii.eqb_refl in H1.
Qed.

Lemma without_app (c : ascii) (u v : str) :
  without c (u ++ v) = true -> without c u = true /\ without c v = true.
Proof.
  unfold without. rewrite forallb_app. apply andb_true_iff.
Qed.

(** A literal is refused by a text that starts with another character. *)
Lemma refuses_Lit_head (a : ascii) (l : string) (r : regex) (c : ascii)
  (s : str) :
  c <> a -> refuses (Lit (String a l) ;; r) (c :: s).
Proof.
  intros N A caps k. cbn [Lit m].
  destruct (Ascii.eqb_spec a c) as [E|_]; [congruence | reflexivity].
Qed.

Lemma refuses_Chr_head (a : ascii) (c : ascii) (s : str) :
  c <> a -> refuses (Chr (Ascii.eqb a)) (c :: s).
Proof.
  intros N A caps k. cbn [m].
  destruct (Ascii.eqb_spec a c) as [E|_]; [congruence | reflexivity].
Qed.

Lemma refuses_Chr_Seq_head (a : ascii) (r : regex) (c : ascii) (s : str) :
  c <> a -> refuses (Chr (Ascii.eqb a) ;; r) (c :: s).
Proof.
  intros N A caps k. cbn [m].
  destruct (Ascii.eqb_spec a c) as [E|_]; [congruence | reflexivity].
Qed.

(** A suffix of a text without the character [a] cannot start what
    begins with [a]. *)
Lemma suffix_head (a : ascii) (w u1 u2 : str) :
  without a w = true -> w = u1 ++ u2 -> u2 <> [] ->
  exists c u, u2 = c :: u /\ c <> a.
Proof.
  intros W -> N. apply without_app in W. destruct W as [_ W].
  destruct u2 as [|c u]; [congruence|].
  apply without_head in W. destruct W as [W _]. now exists c, u.
Qed.

Lemma space_not_digit (c : ascii) : is_digit c = true -> c <> " "%char.
Proof. intros H ->. discriminate H. Qed.

(** The protocol and what follows it cannot start inside a path that has
    no double quote. *)
Lemma protocol_not_in_path (u2 t : str) (r : regex) :
  u2 <> [] -> without dq u2 = true ->
  refuses (Lit " HTTP/" ;; Chr is_digit ;; Lit "." ;; Chr is_digit ;;
           Chr (Ascii.eqb dq) ;; r)
          (u2 ++ " "%char :: t).
Proof.
  intros N W. apply refuses_unread. intros w s' g E R.
  cbn [reads] in R.
  destruct R as (w1 & w2 & g1 & g2 & -> & _ & R1 & R).
  apply reads_Lit in R1. destruct R1 as [-> _].
  destruct R as (w3 & w4 & g3 & g4 & -> & _ & [[e1 [-> D1]] _] & R).
  destruct R as (w5 & w6 & g5 & g6 & -> & _ & R5 & R).
  apply reads_Lit in R5. destruct R5 as [-> _].
  destruct R as (w7 & w8 & g7 & g8 & -> & _ & [[e2 [-> D2]] _] & R).
  destruct R as (w9 & w10 & g9 & g10 & -> & _ & [[q [-> Q]] _] & _).
  apply Ascii.eqb_eq in Q. subst q.
  apply space_not_digit in D1. apply space_not_digit in D2.
  cbn [lit list_ascii_of_string app] in E. rewrite <- ?app_assoc in E.
  cbn [app] in E.
  destruct u2 as [|c0 u2]; [congruence|].
  do 9 (destruct u2 as [|? u2];
        [cbn [app] in E; inversion E; congruence|]).
  do 9 (apply without_head in W; destruct W as [_ W]).
  apply without_head in W. destruct W as [W _].
  cbn [app] in E. inversion E. congruence.
Qed.

Lemma dotted_quad_first (ip : str) :
  dotted_quad ip ->
  first_choice (not_starting is_digit)
    (Plus is_digit ;; Lit "." ;; Plus is_digit ;; Lit "." ;;
     Plus is_digit ;; Lit "." ;; Plus is_digit) ip [].
Proof.
  intros (a & b & c & d & -> & Ra & Rb & Rc & Rd).
  assert (S : forall (w s' : str),
             not_starting is_digit ((lit "." ++ w) ++ s'))
    by (intros; reflexivity).
  apply fcs_Plus; [exact Ra | apply fcs_Lit | intros; apply S].
  apply fcs_Plus; [exact Rb | apply fcs_Lit | intros; apply S].
  apply fcs_Plus; [exact Rc | apply fcs_Lit | intros; apply S].
  now apply fc_Plus.
Qed.

Lemma common_first (ip ts meth pth : str) (d1 d2 : ascii)
  (status size : str) :
  dotted_quad ip ->
  forallb not_nl ts = true -> without "]" ts = true ->
  run_of is_upper meth ->
  forallb not_nl pth = true -> without dq pth = true ->
  is_digit d1 = true -> is_digit d2 = true ->
  run_of is_digit status -> run_of is_digit size ->
  first_choice (not_starting is_digit) COMMON_LOG_PATTERN
    (common_text ip ts meth pth d1 d2 status size)
    [ip; ts; meth; pth; status; size].
Proof.
  intros Qip Nts Wts Rm Np Wp D1 D2 Rst Rsz.
  unfold COMMON_LOG_PATTERN, common_text.
  apply fcs_Group with (Q := not_starting is_digit);
    [now apply dotted_quad_first | | intros; reflexivity].
  apply fcs_Lit.
  apply fc_lazy_group; [exact Nts | |].
  { intros u1 u2 s' E N _.
    destruct (@suffix_head "]" ts u1 u2 Wts E N) as (c & u & -> & Nc).
    now apply refuses_Lit_head. }
  apply fcs_Lit. apply fcs_Chr; [apply Ascii.eqb_refl|].
  apply fcs_GroupPlus; [exact Rm | | intros; reflexivity].
  apply fcs_Lit.
  apply fc_lazy_group; [exact Np | |].
  { intros u1 u2 s' E N _. subst pth.
    apply without_app in Wp. destruct Wp as [_ Wp].
    cbn [lit list_ascii_of_string app]. rewrite <- ?app_assoc. cbn [app].
    change (" "%char :: "H"%char :: "T"%char :: "T"%char :: "P"%char
            :: "/"%char :: d1 :: "."%char :: d2 :: dq :: " "%char
            :: status ++ " "%char :: size ++ s')
      with (" "%char :: (lit "HTTP/" ++ d1 :: lit "." ++ d2 :: dq :: lit " "
                         ++ status ++ lit " " ++ size ++ s')).
    now apply protocol_not_in_path. }
  apply fcs_Lit. apply fcs_Chr; [exact D1|].
  apply fcs_Lit. apply fcs_Chr; [exact D2|].
  apply fcs_Chr; [apply Ascii.eqb_refl|].
  apply fcs_Lit.
  apply fcs_GroupPlus; [exact Rst | | intros; reflexivity].
  apply fcs_Lit. apply fc_Group0. now apply fc_Plus.
Qed.

Lemma combined_tail_first (ref ua : str) :
  forallb not_nl ref = true -> without dq ref = true ->
  forallb not_nl ua = true -> without dq ua = true ->
  first_choice any_text COMBINED_TAIL (combined_tail_text ref ua) [ref; ua].
Proof.
  intros Nr Wr Nu Wu. unfold COMBINED_TAIL, combined_tail_text.
  apply fcs_Lit. apply fcs_Chr; [apply Ascii.eqb_refl|].
  apply fc_lazy_group; [exact Nr | |].
  { intros u1 u2 s' E N _.
    destruct (@suffix_head dq ref u1 u2 Wr E N) as (c & u & -> & Nc).
    now apply refuses_Chr_Seq_head. }
  apply fcs_Chr; [apply Ascii.eqb_refl|].
  apply fcs_Lit. apply fcs_Chr; [apply Ascii.eqb_refl|].
  apply fc_lazy_group; [exact Nu | |].
  { intros u1 u2 s' E N _.
    destruct (@suffix_head dq ua u1 u2 Wu E N) as (c & u & -> & Nc).
    now apply refuses_Chr_head. }
  apply fc_Chr. apply Ascii.eqb_refl.
Qed.

Lemma combined_line_parsed (ip ts meth pth : str) (d1 d2 : ascii)
  (status size ref ua : str) (t : datetime) (sc rs : Z) :
  dotted_quad ip ->
  forallb not_nl ts = true -> without "]" ts = true ->
  parse_timestamp ts = Some t ->
  run_of is_upper meth ->
  forallb not_nl pth = true -> without dq pth = true ->
  is_digit d1 = true -> is_digit d2 = true ->
  py_int status = Some sc -> py_int size = Some rs ->
  forallb not_nl ref = true -> without dq ref = true ->
  forallb not_nl ua = true -> without dq ua = true ->
  parse_log_line (common_text ip ts meth pth d1 d2 status size
                  ++ combined_tail_text ref ua)
  = Some (mk_LogEntry (common_text ip ts meth pth d1 d2 status size
                       ++ combined_tail_text ref ua)
            t ip meth pth sc rs (dash_to_None ua) (dash_to_None ref)).
Proof.
  intros Qip Nts Wts T Rm Np Wp D1 D2 Sc Rs Nr Wr Nu Wu.
  assert (Rst : run_of is_digit status).
  { destruct (proj1 (py_int_digits status) (ex_intro _ sc Sc)) as (N & F & _).
    now split. }
  assert (Rsz : run_of is_digit size).
  { destruct (proj1 (py_int_digits size) (ex_intro _ rs Rs)) as (N & F & _).
    now split. }
  assert (F : first_choice any_text COMBINED_LOG_PATTERN
                (common_text ip ts meth pth d1 d2 status size
                 ++ combined_tail_text ref ua)
                ([ip; ts; meth; pth; status; size] ++ [ref; ua])).
  { unfold COMBINED_LOG_PATTERN.
    apply fc_Seq with (Q := not_starting is_digit).
    - now apply common_first.
    - now apply combined_tail_first.
    - intros; reflexivity. }
  unfold parse_log_line. rewrite (first_choice_match F).
  unfold entry_of_combined. cbn [app group nth]. now rewrite T, Sc, Rs.
Qed.

(** X14: a line of the combined format is read back field by field.
    The line is an address of four runs of digits, a bracketed
    timestamp without a closing bracket in it, a method in upper case, a
    path, a protocol HTTP/d.d, two numerals that [int] converts (runs of
    digits within the limit of the conversion) and two quoted fields;
    path and quoted fields hold no double quote and no line feed.  Then
    [parse_log_line] returns the record of exactly these fields, the
    numerals as numbers, the first quoted field as referer and the second
    as user agent, a dash as None. *)
Theorem combined_lines_are_read_back (ip ts meth pth : str) (d1 d2 : ascii)
  (status size ref ua : str) (t : datetime) (sc rs : Z) :
  dotted_quad ip ->
  forallb not_nl ts = true -> without "]" ts = true ->
  parse_timestamp ts = Some t ->
  run_of is_upper meth ->
  forallb not_nl pth = true -> without dq pth = true ->
  is_digit d1 = true -> is_digit d2 = true ->
  py_int status = Some sc -> py_int size = Some rs ->
  forallb not_nl ref = true -> without dq ref = true ->
  forallb not_nl ua = true -> without dq ua = true ->
  parse_log_line (common_text ip ts meth pth d1 d2 status size
                  ++ combined_tail_text ref ua)
  = Some (mk_LogEntry (common_text ip ts meth pth d1 d2 status size
                       ++ combined_tail_text ref ua)
            t ip meth pth sc rs (dash_to_None ua) (dash_to_None ref)).
Proof. apply combined_line_parsed. Qed.

Lemma dotted_quad_example : dotted_quad (lit "192.168.1.1").
Proof.
  exists (lit "192"), (lit "168"), (lit "1"), (lit "1").
  split; [reflexivity|]. repeat split; discriminate.
Qed.

Lemma combined_lines_are_read_back_witness :
  parse_log_line combined_line
  = Some (mk_LogEntry combined_line (mk_datetime 2023 4 19 13 55 36)
            (lit "192.168.1.1") (lit "GET") (lit "/index.html") 200 2326
            (Some (lit "Mozilla/5.0")) (Some (lit "http://example.com/"))).
Proof.
  apply (@combined_lines_are_read_back
           (lit "192.168.1.1") (lit "19/Apr/2023:13:55:36 +0000") (lit "GET")
           (lit "/index.html") "1" "1" (lit "200") (lit "2326")
           (lit "http://example.com/") (lit "Mozilla/5.0")
           (mk_datetime 2023 4 19 13 55 36) 200 2326).
  - exact dotted_quad_example.
  - reflexivity.
  - reflexivity.
  - vm_compute; reflexivity.
  - split; [discriminate | reflexivity].
  - reflexivity.
  - reflexivity.
  - reflexivity.
  - reflexivity.
  - reflexivity.
  - reflexivity.
  - reflexivity.
  - reflexivity.
  - reflexivity.
  - reflexivity.
Defined.

(* ------------------------------------------------------------------ *)
(** ** A line of the common format is read back *)

Lemma quotes_app (u v : str) : quotes (u ++ v) = quotes u + quotes v.
Proof. unfold quotes. now rewrite filter_app, length_app. Qed.

Lemma quotes_without (s : str) : without dq s = true -> quotes s = 0.
Proof.
  unfold quotes, without. induction s as [|c s IH]; [reflexivity|].
  cbn [forallb filter]. intros H. apply andb_true_iff in H.
  destruct H as [H1 H2]. rewrite Ascii.eqb_sym.
  destruct (Ascii.eqb c dq); [discriminate H1 | now apply IH].
Qed.

Lemma quotes_class (p : ascii -> bool) (s : str) :
  p dq = false -> forallb p s = true -> quotes s = 0.
Proof.
  intros N F. apply quotes_without. unfold without.
  rewrite forallb_forall in F |- *. intros c I. specialize (F c I).
  destruct (Ascii.eqb_spec c dq) as [->|_]; [congruence | reflexivity].
Qed.

Lemma quotes_dotted_quad (ip : str) : dotted_quad ip -> quotes ip = 0.
Proof.
  intros (a & b & c & d & -> & [_ Fa] & [_ Fb] & [_ Fc] & [_ Fd]).
  rewrite !quotes_app.
  rewrite (@quotes_class is_digit a), (@quotes_class is_digit b),
    (@quotes_class is_digit c), (@quotes_class is_digit d); auto.
Qed.

Lemma quotes_common_text (ip ts meth pth : str) (d1 d2 : ascii)
  (status size : str) :
  dotted_quad ip -> run_of is_upper meth ->
  is_digit d1 = true -> is_digit d2 = true ->
  run_of is_digit status -> run_of is_digit size ->
  quotes (common_text ip ts meth pth d1 d2 status size)
  = 2 + quotes ts + quotes pth.
Proof.
  intros Qip [_ Fm] D1 D2 [_ Fst] [_ Fsz]. unfold common_text.
  assert (Q1 : forall (c : ascii) (s : str), quotes (c :: s)
                 = (if Ascii.eqb dq c then 1 else 0) + quotes s).
  { intros c s. unfold quotes. cbn [filter].
    now destruct (Ascii.eqb dq c). }
  assert (E1 : Ascii.eqb dq d1 = false).
  { destruct (Ascii.eqb_spec dq d1) as [<-|]; [discriminate D1 | reflexivity]. }
  assert (E2 : Ascii.eqb dq d2 = false).
  { destruct (Ascii.eqb_spec dq d2) as [<-|]; [discriminate D2 | reflexivity]. }
  repeat (rewrite quotes_app || rewrite Q1).
  rewrite (@quotes_dotted_quad ip Qip).
  rewrite (@quotes_class is_upper meth), (@quotes_class is_digit status),
    (@quotes_class is_digit size); auto.
  rewrite E1, E2, Ascii.eqb_refl.
  change (quotes (lit " - - [")) with 0. change (quotes (lit "] ")) with 0.
  change (quotes (lit " ")) with 0. change (quotes (lit " HTTP/")) with 0.
  change (quotes (lit ".")) with 0. lia.
Qed.

(** The combined pattern reads six double quotes at least. *)
Lemma combined_needs_quotes (w : str) (g : list str) :
  reads COMBINED_LOG_PATTERN w g -> 6 <= quotes w.
Proof.
  unfold COMBINED_LOG_PATTERN. cbn [reads].
  intros (w1 & w2 & g1 & g2 & -> & _ & R1 & R2).
  apply reads_COMMON in R1.
  destruct R1 as (ip & ts & meth & pth & d1 & d2 & status & size
                  & -> & _ & Q & _ & U & _ & D1 & D2 & S1 & S2).
  apply reads_COMBINED_TAIL in R2. destruct R2 as (ref & ua & -> & _).
  rewrite quotes_app, quotes_common_text by assumption.
  unfold combined_tail_text.
  assert (Q1 : forall (c : ascii) (s : str), quotes (c :: s)
                 = (if Ascii.eqb dq c then 1 else 0) + quotes s).
  { intros c s. unfold quotes. cbn [filter].
    now destruct (Ascii.eqb dq c). }
  repeat (rewrite quotes_app || rewrite Q1).
  rewrite Ascii.eqb_refl. lia.
Qed.

Lemma common_line_parsed (ip ts meth pth : str) (d1 d2 : ascii)
  (status size rest : str) (t : datetime) (sc rs : Z) :
  dotted_quad ip ->
  forallb not_nl ts = true -> without "]" ts = true ->
  without dq ts = true ->
  parse_timestamp ts = Some t ->
  run_of is_upper meth ->
  forallb not_nl pth = true -> without dq pth = true ->
  is_digit d1 = true -> is_digit d2 = true ->
  py_int status = Some sc -> py_int size = Some rs ->
  not_starting is_digit rest -> quotes rest < 4 ->
  parse_log_line (common_text ip ts meth pth d1 d2 status size ++ rest)
  = Some (mk_LogEntry (common_text ip ts meth pth d1 d2 status size ++ rest)
            t ip meth pth sc rs None None).
Proof.
  intros Qip Nts Wts Dts T Rm Np Wp D1 D2 Sc Rs Nr Qr.
  assert (Rst : run_of is_digit status).
  { destruct (proj1 (py_int_digits status) (ex_intro _ sc Sc)) as (N & F & _).
    now split. }
  assert (Rsz : run_of is_digit size).
  { destruct (proj1 (py_int_digits size) (ex_intro _ rs Rs)) as (N & F & _).
    now split. }
  unfold parse_log_line.
  assert (C : re_match COMBINED_LOG_PATTERN
                (common_text ip ts meth pth d1 d2 status size ++ rest) = None).
  { unfold re_match. apply refuses_unread. intros w s' g E R.
    apply combined_needs_quotes in R.
    assert (Q := f_equal quotes E).
    rewrite !quotes_app, quotes_common_text in Q by assumption.
    rewrite (@quotes_without ts Dts), (@quotes_without pth Wp) in Q. lia. }
  rewrite C.
  assert (M : re_match COMMON_LOG_PATTERN
                (common_text ip ts meth pth d1 d2 status size ++ rest)
              = Some ([ip; ts; meth; pth; status; size], rest)).
  { unfold re_match.
    apply (@common_first ip ts meth pth d1 d2 status size); auto. }
  rewrite M. unfold entry_of_common. cbn [group nth]. now rewrite T, Sc, Rs.
Qed.

(** X15: a line of the common format is read back field by field, also
    when text follows it.  The fields are as for the combined format,
    the two numerals within the limit of the conversion;
    the text after the response size does not start with a digit and
    holds fewer than four double quotes, so that the combined pattern
    cannot match.  Then [parse_log_line] returns the record of these
    fields without referer and user agent; the text that follows is kept
    in [raw_log] only. *)
Theorem common_lines_are_read_back (ip ts meth pth : str) (d1 d2 : ascii)
  (status size rest : str) (t : datetime) (sc rs : Z) :
  dotted_quad ip ->
  forallb not_nl ts = true -> without "]" ts = true ->
  without dq ts = true ->
  parse_timestamp ts = Some t ->
  run_of is_upper meth ->
  forallb not_nl pth = true -> without dq pth = true ->
  is_digit d1 = true -> is_digit d2 = true ->
  py_int status = Some sc -> py_int size = Some rs ->
  not_starting is_digit rest -> quotes rest < 4 ->
  parse_log_line (common_text ip ts meth pth d1 d2 status size ++ rest)
  = Some (mk_LogEntry (common_text ip ts meth pth d1 d2 status size ++ rest)
            t ip meth pth sc rs None None).
Proof. apply common_line_parsed. Qed.

Lemma common_lines_are_read_back_witness :
  parse_log_line (example_line ++ lit " and more")
  = Some (mk_LogEntry (example_line ++ lit " and more")
            (mk_datetime 2023 4 19 13 55 36)
            (lit "192.168.1.1") (lit "GET") (lit "/index.html") 200 2326
            None None).
Proof.
  apply (@common_lines_are_read_back
           (lit "192.168.1.1") (lit "19/Apr/2023:13:55:36 +0000") (lit "GET")
           (lit "/index.html") "1" "1" (lit "200") (lit "2326")
           (lit " and more") (mk_datetime 2023 4 19 13 55 36) 200 2326).
  - exact dotted_quad_example.
  - reflexivity.
  - reflexivity.
  - reflexivity.
  - vm_compute; reflexivity.
  - split; [discriminate | reflexivity].
  - reflexivity.
  - reflexivity.
  - reflexivity.
  - reflexivity.
  - reflexivity.
  - reflexivity.
  - reflexivity.
  - vm_compute; lia.
Defined.

(* ------------------------------------------------------------------ *)
(** ** The lines of [generate_sample_log] *)

Lemma dec_digits (f : nat) :
  forall n, (0 <= n < 2 ^ Z.of_nat (S f))%Z ->
    dec (S f) n <> [] /\ forallb is_digit (dec (S f) n) = true /\
    fold_left (fun acc c => 10 * acc + digit_val c)%Z (dec (S f) n) 0%Z = n.
Proof.
  assert (One : forall n, (0 <= n < 10)%Z ->
            [digit_char n] <> [] /\ forallb is_digit [digit_char n] = true /\
            fold_left (fun acc c => 10 * acc + digit_val c)%Z
              [digit_char n] 0%Z = n).
  { intros n B. split; [discriminate|]. cbn [forallb fold_left].
    rewrite is_digit_digit_char, digit_val_digit_char.
    rewrite Z.mod_small by lia. split; [reflexivity | lia]. }
  induction f as [|f IH]; intros n B.
  - cbn [dec]. destruct (Z.ltb_spec n 10) as [L|L]; [apply One; lia|].
    change (2 ^ Z.of_nat 1)%Z with 2%Z in B. lia.
  - change (dec (S (S f)) n)
      with (if (n <? 10)%Z then [digit_char n]
            else dec (S f) (n / 10) ++ [digit_char n]).
    destruct (Z.ltb_spec n 10) as [L|L]; [apply One; lia|].
    assert (P : (2 ^ Z.of_nat (S (S f)) = 2 * 2 ^ Z.of_nat (S f))%Z).
    { rewrite (Nat2Z.inj_succ (S f)). apply Z.pow_succ_r. lia. }
    assert (Pos : (0 < 2 ^ Z.of_nat (S f))%Z) by (apply Z.pow_pos_nonneg; lia).
    assert (B' : (0 <= n / 10 < 2 ^ Z.of_nat (S f))%Z).
    { split; [apply Z.div_pos; lia|].
      apply Z.div_lt_upper_bound; lia. }
    destruct (IH _ B') as (N & F & V).
    split; [destruct (dec (S f) (n / 10)); discriminate|].
    rewrite forallb_app, F, fold_left_app, V. cbn [forallb fold_left].
    rewrite is_digit_digit_char, digit_val_digit_char.
    split; [reflexivity|]. pose proof (Z.div_mod n 10). lia.
Qed.

Lemma dec_length (f : nat) :
  forall n k, (0 <= n < 10 ^ k)%Z -> (1 <= k)%Z ->
    (Z.of_nat (length (dec f n)) <= k)%Z.
Proof.
  induction f as [|f IH]; intros n k B K; [cbn; lia|].
  cbn [dec]. destruct (Z.ltb_spec n 10) as [L|L]; [cbn; lia|].
  assert (K2 : (2 <= k)%Z).
  { destruct (Z.eq_dec k 1) as [->|]; [|lia].
    change (10 ^ 1)%Z with 10%Z in B. lia. }
  assert (P : (10 ^ k = 10 * 10 ^ (k - 1))%Z).
  { replace k with (Z.succ (k - 1)) at 1 by lia. apply Z.pow_succ_r. lia. }
  assert (B' : (0 <= n / 10 < 10 ^ (k - 1))%Z).
  { split; [apply Z.div_pos; lia|].
    apply Z.div_lt_upper_bound; lia. }
  specialize (IH (n / 10)%Z (k - 1)%Z B' ltac:(lia)).
  rewrite length_app. cbn [length]. lia.
Qed.

(** [int] reads back what [str] writes, within the limit of the
    conversion. *)
Lemma py_int_py_str (n : Z) :
  (0 <= n < 10 ^ int_max_str_digits)%Z -> py_int (py_str n) = Some n.
Proof.
  intros B. unfold py_str. destruct (Z.ltb_spec n 0) as [L|_]; [lia|].
  pose proof (Z.log2_nonneg n) as Ln.
  assert (B2 : (0 <= n < 2 ^ Z.of_nat (S (Z.to_nat (Z.log2 n))))%Z).
  { rewrite Nat2Z.inj_succ, Z2Nat.id by exact Ln.
    destruct (Z.eq_dec n 0) as [->|N]; [cbn; lia|].
    pose proof (Z.log2_spec n). lia. }
  destruct (dec_digits _ B2) as (N & F & V).
  pose proof (@dec_length (S (Z.to_nat (Z.log2 n))) n int_max_str_digits B
                ltac:(unfold int_max_str_digits; lia)) as Len.
  unfold py_int. destruct (dec (S (Z.to_nat (Z.log2 n))) n) as [|c s] eqn:D;
    [congruence|].
  rewrite F. apply Z.leb_le in Len. rewrite Len. cbn [andb]. now rewrite V.
Qed.

Lemma small_numbers (n : Z) :
  (0 <= n <= 10000)%Z -> (0 <= n < 10 ^ int_max_str_digits)%Z.
Proof.
  intros B.
  assert (P : (10 ^ 5 <= 10 ^ int_max_str_digits)%Z)
    by (apply Z.pow_le_mono_r; unfold int_max_str_digits; lia).
  change (10 ^ 5)%Z with 100000%Z in P.
  set (big := (10 ^ int_max_str_digits)%Z) in *. lia.
Qed.

Lemma sample_line_text (ip : str) (d : datetime) (meth pth : str)
  (status size : Z) (ua : str) :
  sample_line ip d meth pth status size ua
  = common_text ip (strftime d ++ lit " +0000") meth pth "1" "1"
      (py_str status) (py_str size)
    ++ combined_tail_text (lit "-") ua.
Proof.
  unfold sample_line, common_text, combined_tail_text.
  cbv zeta. cbn [lit list_ascii_of_string app].
  repeat first [rewrite <- app_assoc | progress cbn [app]]. reflexivity.
Qed.

Lemma sample_timestamp (d : datetime) :
  valid_datetime d = true ->
  forallb not_nl (strftime d ++ lit " +0000") = true /\
  without "]" (strftime d ++ lit " +0000") = true.
Proof.
  intros V. unfold without. rewrite !forallb_app. split.
  - rewrite (@strftime_forall not_nl d); try reflexivity;
      [apply digit_not_nl | exact V].
  - rewrite (@strftime_forall (fun x => negb (Ascii.eqb x "]")) d);
      try reflexivity; [apply digit_not_bracket | exact V].
Qed.

Lemma sample_line_parsed (ip : str) (d : datetime) (meth pth : str)
  (status size : Z) (ua : str) :
  dotted_quad ip -> valid_datetime d = true -> run_of is_upper meth ->
  forallb not_nl pth = true -> without dq pth = true ->
  (0 <= status < 10 ^ int_max_str_digits)%Z ->
  (0 <= size < 10 ^ int_max_str_digits)%Z ->
  forallb not_nl ua = true -> without dq ua = true ->
  parse_log_line (sample_line ip d meth pth status size ua)
  = Some (mk_LogEntry (sample_line ip d meth pth status size ua)
            d ip meth pth status size (dash_to_None ua) None).
Proof.
  intros Qip V Rm Np Wp Bst Bsz Nu Wu. rewrite sample_line_text.
  destruct (@sample_timestamp d V) as [Nts Wts].
  apply (@combined_line_parsed ip (strftime d ++ lit " +0000") meth pth
           "1" "1" (py_str status) (py_str size) (lit "-") ua d status size);
    try assumption; try reflexivity.
  - now apply (@parse_timestamp_strftime d (lit "+0000")).
  - now apply py_int_py_str.
  - now apply py_int_py_str.
Qed.

Lemma In_checked {A : Type} (check : A -> bool) (l : list A) (x : A) :
  forallb check l = true -> In x l -> check x = true.
Proof. intros F I. rewrite forallb_forall in F. now apply F. Qed.

Lemma dotted_quad_of (a b c d : string) :
  run_of is_digit (lit a) -> run_of is_digit (lit b) ->
  run_of is_digit (lit c) -> run_of is_digit (lit d) ->
  dotted_quad (lit a ++ lit "." ++ lit b ++ lit "." ++ lit c ++ lit "."
               ++ lit d).
Proof. intros. now exists (lit a), (lit b), (lit c), (lit d). Qed.

Ltac quad a b c d :=
  apply (@dotted_quad_of a b c d); (split; [discriminate | reflexivity]).

Lemma sample_ips_are_quads (ip : str) :
  In ip (ips ++ map lit ["192.168.1.100"; "10.0.0.100"; "192.168.1.200"]%string)
  -> dotted_quad ip.
Proof.
  intros [<-|[<-|[<-|[<-|[<-|[<-|[<-|[<-|[]]]]]]]]].
  - quad "192"%string "168"%string "1"%string "1"%string.
  - quad "192"%string "168"%string "1"%string "2"%string.
  - quad "192"%string "168"%string "1"%string "3"%string.
  - quad "10"%string "0"%string "0"%string "1"%string.
  - quad "10"%string "0"%string "0"%string "2"%string.
  - quad "192"%string "168"%string "1"%string "100"%string.
  - quad "10"%string "0"%string "0"%string "100"%string.
  - quad "192"%string "168"%string "1"%string "200"%string.
Qed.

Lemma not_found_path_plain (n : Z) :
  (1 <= n <= 100)%Z ->
  forallb not_nl (not_found_path n) = true /\
  without dq (not_found_path n) = true /\
  re_search sql_injection_pattern (not_found_path n) = false /\
  re_search path_traversal_pattern (not_found_path n) = false.
Proof.
  intros B. apply (@Z_range_cases
    (fun n => forallb not_nl (not_found_path n) = true /\
              without dq (not_found_path n) = true /\
              re_search sql_injection_pattern (not_found_path n) = false /\
              re_search path_traversal_pattern (not_found_path n) = false)
    1%Z 100); [|lia].
  intros i Hi.
  do 100 (destruct i as [|i]; [vm_compute; auto|]). exfalso; lia.
Qed.

Lemma drawn_fields (ip0 : str) (d0 : datetime) (meth0 pth0 : str)
  (status0 size0 : Z) (ua0 : str) :
  drawn ip0 d0 meth0 pth0 status0 size0 ua0 ->
  dotted_quad ip0 /\ valid_datetime d0 = true /\ run_of is_upper meth0 /\
  forallb not_nl pth0 = true /\ without dq pth0 = true /\
  (0 <= status0 <= 10000)%Z /\ (0 <= size0 <= 10000)%Z /\
  forallb not_nl ua0 = true /\ without dq ua0 = true /\
  dash_to_None ua0 = Some ua0.
Proof.
  assert (UA : forall ua, In ua user_agents ->
            forallb not_nl ua = true /\ without dq ua = true /\
            dash_to_None ua = Some ua).
  { intros ua [<-|[<-|[<-|[]]]]; vm_compute; auto. }
  assert (GET : run_of is_upper (lit "GET"))
    by (split; [discriminate | reflexivity]).
  intros D. destruct D as
    [ip d meth pth status size ua Iip [V _] Im Ip Ist Bsz Iua
    | d pth size ua [V _] Ip Bsz Iua
    | d pth size ua [V _] Ip Bsz Iua
    | d n size ua [V _] Bn Bsz Iua];
    destruct (UA ua Iua) as (U1 & U2 & U3).
  - split; [apply sample_ips_are_quads; apply in_or_app; now left|].
    split; [exact V|]. split.
    { destruct Im as [<-|[<-|[<-|[<-|[]]]]];
        (split; [discriminate | reflexivity]). }
    assert (P := @In_checked _ (fun p => forallb not_nl p && without dq p)
                   paths pth eq_refl Ip).
    apply andb_true_iff in P. destruct P as [P1 P2].
    assert (S := @In_checked _ (fun s => (0 <=? s)%Z && (s <=? 10000)%Z)
                   Sample.status_codes status eq_refl Ist).
    apply andb_true_iff in S. destruct S as [S1 S2].
    apply Z.leb_le in S1. apply Z.leb_le in S2.
    repeat split; try assumption; lia.
  - split; [apply sample_ips_are_quads; apply in_or_app; right; cbn; tauto|].
    assert (P := @In_checked _ (fun p => forallb not_nl p && without dq p)
                   sql_injection_paths pth eq_refl Ip).
    apply andb_true_iff in P. destruct P as [P1 P2].
    repeat split; try assumption; try lia; try discriminate.
  - split; [apply sample_ips_are_quads; apply in_or_app; right; cbn; tauto|].
    assert (P := @In_checked _ (fun p => forallb not_nl p && without dq p)
                   path_traversal_paths pth eq_refl Ip).
    apply andb_true_iff in P. destruct P as [P1 P2].
    repeat split; try assumption; try lia; try discriminate.
  - split; [apply sample_ips_are_quads; apply in_or_app; right; cbn; tauto|].
    destruct (@not_found_path_plain n Bn) as (P1 & P2 & _).
    repeat split; try assumption; try lia; try discriminate.
Qed.

(** X16: [parse_log_line] reads back every line that
    [generate_sample_log] can write.  Whatever the four loops draw
    (address, date in April 2023, method, path, status, size and user
    agent), the line put together by the f-string is parsed to the record
    of exactly these values, with the user agent and without referer. *)
Theorem sample_lines_are_read_back (ip : str) (d : datetime) (meth pth : str)
  (status size : Z) (ua : str) :
  drawn ip d meth pth status size ua ->
  parse_log_line (sample_line ip d meth pth status size ua)
  = Some (mk_LogEntry (sample_line ip d meth pth status size ua)
            d ip meth pth status size (Some ua) None).
Proof.
  intros D. apply drawn_fields in D.
  destruct D as (Qip & V & Rm & Np & Wp & Bst & Bsz & Nu & Wu & U).
  rewrite <- U. apply sample_line_parsed; try assumption;
    now apply small_numbers.
Qed.

Lemma sample_lines_are_read_back_witness :
  parse_log_line
    (sample_line (lit "10.0.0.1") (mk_datetime 2023 4 19 13 55 36)
       (lit "POST") (lit "/api/data") 201 4321
       (nth 2 user_agents []))
  = Some (mk_LogEntry
            (sample_line (lit "10.0.0.1") (mk_datetime 2023 4 19 13 55 36)
               (lit "POST") (lit "/api/data") 201 4321
               (nth 2 user_agents []))
            (mk_datetime 2023 4 19 13 55 36) (lit "10.0.0.1") (lit "POST")
            (lit "/api/data") 201 4321 (Some (nth 2 user_agents [])) None).
Proof.
  apply sample_lines_are_read_back. apply drawn_normal.
  - cbn. tauto.
  - repeat split.
  - cbn. tauto.
  - cbn. tauto.
  - cbn. tauto.
  - lia.
  - cbn. tauto.
Defined.

(** X17: the suspicious paths of [generate_sample_log] are found by the
    pattern they are meant for, and the other paths by none.  Each path
    of [sql_injection_paths] is found by the SQL pattern and not by the
    traversal pattern, each path of [path_traversal_paths] by the
    traversal pattern and not by the SQL pattern, and the ordinary paths
    and the paths [/not-found-n.html] by neither. *)
Theorem sample_paths_and_patterns (pth : str) :
  (In pth sql_injection_paths ->
   re_search sql_injection_pattern pth = true /\
   re_search path_traversal_pattern pth = false) /\
  (In pth path_traversal_paths ->
   re_search path_traversal_pattern pth = true /\
   re_search sql_injection_pattern pth = false) /\
  (In pth paths \/ (exists n, (1 <= n <= 100)%Z /\ pth = not_found_path n) ->
   re_search sql_injection_pattern pth = false /\
   re_search path_traversal_pattern pth = false).
Proof.
  split; [|split].
  - intros I.
    assert (C := @In_checked _
      (fun p => re_search sql_injection_pattern p
                && negb (re_search path_traversal_pattern p))
      sql_injection_paths pth ltac:(vm_compute; reflexivity) I).
    apply andb_true_iff in C. destruct C as [C1 C2].
    apply negb_true_iff in C2. now split.
  - intros I.
    assert (C := @In_checked _
      (fun p => re_search path_traversal_pattern p
                && negb (re_search sql_injection_pattern p))
      path_traversal_paths pth ltac:(vm_compute; reflexivity) I).
    apply andb_true_iff in C. destruct C as [C1 C2].
    apply negb_true_iff in C2. now split.
  - intros [I|[n [B ->]]].
    + assert (C := @In_checked _
        (fun p => negb (re_search sql_injection_pattern p)
                  && negb (re_search path_traversal_pattern p))
        paths pth ltac:(vm_compute; reflexivity) I).
      apply andb_true_iff in C. destruct C as [C1 C2].
      apply negb_true_iff in C1. apply negb_true_iff in C2. now split.
    + destruct (@not_found_path_plain n B) as (_ & _ & S & T). now split.
Qed.

(* ------------------------------------------------------------------ *)
(** ** The summary report *)

Lemma lex_compare_antisym (a b : list Z) :
  lex_compare a b = CompOpp (lex_compare b a).
Proof.
  revert b. induction a as [|x a IH]; intros [|y b]; simpl; try reflexivity.
  rewrite (Z.compare_antisym y x), IH.
  now destruct (y ?= x)%Z.
Qed.

Lemma dt_compare_antisym (a b : datetime) :
  dt_compare a b = CompOpp (dt_compare b a).
Proof. rewrite !dt_compare_lex. apply lex_compare_antisym. Qed.

Lemma dt_leb_refl (a : datetime) : dt_leb a a = true.
Proof.
  unfold dt_leb. assert (E := dt_compare_antisym a a).
  destruct (dt_compare a a); try reflexivity. discriminate E.
Qed.

Lemma dt_not_ltb (a b : datetime) : dt_ltb a b = false -> dt_leb b a = true.
Proof.
  unfold dt_ltb, dt_leb. rewrite (dt_compare_antisym b a).
  now destruct (dt_compare a b).
Qed.

Lemma dt_ltb_leb (a b : datetime) : dt_ltb a b = true -> dt_leb a b = true.
Proof. unfold dt_ltb, dt_leb. now destruct (dt_compare a b). Qed.

Lemma dt_gtb_leb (a b : datetime) : dt_gtb a b = true -> dt_leb b a = true.
Proof.
  unfold dt_gtb, dt_leb. rewrite (dt_compare_antisym b a).
  now destruct (dt_compare a b).
Qed.

Lemma dt_not_gtb (a b : datetime) : dt_gtb a b = false -> dt_leb a b = true.
Proof. unfold dt_gtb, dt_leb. now destruct (dt_compare a b). Qed.

Lemma py_min_spec (others : list datetime) :
  forall first,
    In (py_min first others) (first :: others) /\
    forall t, In t (first :: others) -> dt_leb (py_min first others) t = true.
Proof.
  induction others as [|x others IH]; intros first.
  - cbn. split; [now left|]. intros t [<-|[]]. apply dt_leb_refl.
  - unfold py_min. cbn [fold_left].
    fold (py_min (if dt_ltb x first then x else first) others).
    destruct (IH (if dt_ltb x first then x else first)) as [I L].
    assert (B : dt_leb (if dt_ltb x first then x else first) first = true /\
                dt_leb (if dt_ltb x first then x else first) x = true).
    { destruct (dt_ltb x first) eqn:E.
      - split; [now apply dt_ltb_leb | apply dt_leb_refl].
      - split; [apply dt_leb_refl | now apply dt_not_ltb]. }
    split.
    + destruct I as [<-|I]; [|right; now right].
      destruct (dt_ltb x first); [right; now left | now left].
    + pose proof (L _ (or_introl eq_refl)) as L0.
      intros t [<-|[<-|It]].
      * exact (dt_leb_trans _ _ _ L0 (proj1 B)).
      * exact (dt_leb_trans _ _ _ L0 (proj2 B)).
      * apply L. right; exact It.
Qed.

Lemma py_max_spec (others : list datetime) :
  forall first,
    In (py_max first others) (first :: others) /\
    forall t, In t (first :: others) -> dt_leb t (py_max first others) = true.
Proof.
  induction others as [|x others IH]; intros first.
  - cbn. split; [now left|]. intros t [<-|[]]. apply dt_leb_refl.
  - unfold py_max. cbn [fold_left].
    fold (py_max (if dt_gtb x first then x else first) others).
    destruct (IH (if dt_gtb x first then x else first)) as [I L].
    assert (B : dt_leb first (if dt_gtb x first then x else first) = true /\
                dt_leb x (if dt_gtb x first then x else first) = true).
    { destruct (dt_gtb x first) eqn:E.
      - split; [now apply dt_gtb_leb | apply dt_leb_refl].
      - split; [apply dt_leb_refl | now apply dt_not_gtb]. }
    split.
    + destruct I as [<-|I]; [|right; now right].
      destruct (dt_gtb x first); [right; now left | now left].
    + pose proof (L _ (or_introl eq_refl)) as L0.
      intros t [<-|[<-|It]].
      * exact (dt_leb_trans _ _ _ (proj1 B) L0).
      * exact (dt_leb_trans _ _ _ (proj2 B) L0).
      * apply L. right; exact It.
Qed.

Lemma category_counts {A : Type} (key : string) (l : list A) :
  Forall (fun item : string * nat => 0 < snd item)
    (map (fun item : string * list A => (fst item, length (snd item)))
       (category key l)).
Proof.
  destruct l as [|x l]; cbn; constructor; [cbn; lia | constructor].
Qed.

(** The average of a store that is not empty: the true division of the
    total by the number of records, or [OverflowError] when the quotient
    is beyond the floats. *)
Lemma average_cases (self : LogAnalyzer) :
  log_entries self <> [] ->
  (0 < Z.of_nat (length (log_entries self)))%Z /\
  ((float_limit * Z.of_nat (length (log_entries self))
    <= Z.abs (get_total_bandwidth self))%Z ->
   get_average_response_size self = Raised OverflowError) /\
  ((Z.abs (get_total_bandwidth self)
    < float_limit * Z.of_nat (length (log_entries self)))%Z ->
   get_average_response_size self
   = Returned (TrueDiv (get_total_bandwidth self)
                 (Z.of_nat (length (log_entries self))))).
Proof.
  intros N. unfold get_average_response_size, true_div.
  destruct (log_entries self) as [|e es] eqn:E; [congruence|].
  assert (P : (0 < Z.of_nat (length (e :: es)))%Z) by (cbn [length]; lia).
  split; [exact P|].
  destruct (Z.eqb_spec (Z.of_nat (length (e :: es))) 0) as [Z0|_]; [lia|].
  rewrite (Z.abs_eq (Z.of_nat (length (e :: es)))) by lia.
  destruct (Z.leb_spec (float_limit * Z.of_nat (length (e :: es)))
              (Z.abs (get_total_bandwidth self))) as [L|L].
  - split; [reflexivity|]. intros H. lia.
  - split; [|reflexivity]. intros H. lia.
Qed.

(** X18: the summary report.  The method returns the error dictionary
    exactly when the store is empty.  On a store that is not empty it
    raises [OverflowError] exactly when the average response size is
    beyond the floats, and nothing else; otherwise it returns the report:
    the report counts all the records, its date range starts at the
    earliest timestamp of the store and ends at the latest (both are
    timestamps of records, and every record lies between them), its
    average is the total bandwidth divided by the number of records, and
    its potential attacks are the numbers of records of the categories of
    [detect_potential_attacks], in the same order, none of them zero. *)
Theorem summary_report_spec (self : LogAnalyzer) :
  (generate_summary_report self = Returned No_log_entries_to_analyze <->
   log_entries self = []) /\
  (forall exc,
     generate_summary_report self = Raised exc <->
     log_entries self <> [] /\ exc = OverflowError /\
     (float_limit * Z.of_nat (length (log_entries self))
      <= Z.abs (get_total_bandwidth self))%Z) /\
  forall s, generate_summary_report self = Returned (Summary s) ->
    total_requests s = length (log_entries self) /\
    0 < total_requests s /\
    (exists t1 t2,
        earliest self t1 /\ latest self t2 /\
        date_range_start s = isoformat t1 /\
        date_range_end s = isoformat t2 /\
        span_days s = (td_days (dt_sub t2 t1),
                       TrueDiv (td_seconds (dt_sub t2 t1)) 86400)) /\
    total_bandwidth s = get_total_bandwidth self /\
    average_response_size s
    = TrueDiv (total_bandwidth s) (Z.of_nat (total_requests s)) /\
    (Z.abs (total_bandwidth s)
     < float_limit * Z.of_nat (total_requests s))%Z /\
    potential_attacks s
    = map (fun item : string * list LogEntry => (fst item, length (snd item)))
        (category "sql_injection" (flagged_by sql_injection_pattern self)
         ++ category "path_traversal"
              (flagged_by path_traversal_pattern self)
         ++ category "excessive_404s" (grouped_404s self)) /\
    Forall (fun item : string * nat => 0 < snd item) (potential_attacks s).
Proof.
  destruct (log_entries self) as [|e es] eqn:En.
  - unfold generate_summary_report. rewrite En.
    split; [tauto|]. split.
    + intros exc. split; [discriminate | intros [H _]; congruence].
    + intros s H. discriminate H.
  - assert (NE : log_entries self <> []) by (rewrite En; discriminate).
    destruct (@average_cases self NE) as (Pn & Over & Fits).
    unfold generate_summary_report. rewrite En. cbv zeta. rewrite <- En.
    destruct (Z.leb_spec (float_limit * Z.of_nat (length (log_entries self)))
                (Z.abs (get_total_bandwidth self))) as [L|L].
    + rewrite (Over L). split; [split; [discriminate | congruence]|]. split.
      * intros exc. split.
        -- intros H. injection H as <-. now repeat split.
        -- intros (_ & -> & _). reflexivity.
      * intros s H. discriminate H.
    + rewrite (Fits L). split; [split; [discriminate | congruence]|]. split.
      * intros exc. split; [discriminate|]. intros (_ & _ & H). lia.
      * intros s H. injection H as <-.
        cbn [total_requests date_range_start date_range_end span_days
             potential_attacks total_bandwidth average_response_size].
        split; [reflexivity|]. split; [lia|]. split.
        -- exists (py_min (timestamp e) (map timestamp es)),
             (py_max (timestamp e) (map timestamp es)).
           destruct (py_min_spec (map timestamp es) (timestamp e)) as [I1 L1].
           destruct (py_max_spec (map timestamp es) (timestamp e)) as [I2 L2].
           change (timestamp e :: map timestamp es)
             with (map timestamp (e :: es)) in *.
           unfold earliest, latest. rewrite En.
           repeat split; try reflexivity.
           ++ apply in_map_iff in I1. destruct I1 as [x [E I]]. now exists x.
           ++ intros x I. apply L1. now apply in_map.
           ++ apply in_map_iff in I2. destruct I2 as [x [E I]]. now exists x.
           ++ intros x I. apply L2. now apply in_map.
        -- split; [reflexivity|]. split; [reflexivity|]. split; [exact L|].
           rewrite detect_closed_form. split; [reflexivity|].
           rewrite !map_app, !Forall_app.
           repeat split; apply category_counts.
Qed.

(** The report is raised for a store that [parse_log_file] can load: one
    record whose response size has 400 digits. *)
Lemma summary_report_overflow :
  generate_summary_report
    (mk_LogAnalyzer
       [mk_LogEntry [] (mk_datetime 2023 4 19 13 55 36) (lit "192.168.1.1")
          (lit "GET") (lit "/index.html") 200 (10 ^ 399) None None])
  = Raised OverflowError.
Proof. vm_compute. reflexivity. Qed.

(* ------------------------------------------------------------------ *)
(** ** The time span of the report *)

Lemma year_step (y : Z) :
  (1 <= y <= 9999)%Z ->
  (days_before_year (y + 1)
   = days_before_year y + (if is_leap y then 366 else 365))%Z.
Proof.
  intros B.
  assert (C : forallb (fun i => (days_before_year (i + 1 + 1)
                                 =? days_before_year (i + 1)
                                    + (if is_leap (i + 1) then 366 else 365))%Z)
                (range (Z.to_nat 9999)) = true) by (vm_compute; reflexivity).
  rewrite forallb_forall in C. specialize (C (y - 1)%Z).
  replace (y - 1 + 1)%Z with y in C by lia.
  apply Z.eqb_eq. apply C. unfold range. apply in_map_iff.
  exists (Z.to_nat (y - 1)). split; [lia|]. apply in_seq. lia.
Qed.

Lemma days_before_year_mono (n : nat) (y : Z) :
  (1 <= y)%Z -> (y + Z.of_nat n <= 10000)%Z ->
  (days_before_year y + 365 * Z.of_nat n
   <= days_before_year (y + Z.of_nat n))%Z.
Proof.
  intros B. induction n as [|n IH]; intros H.
  - replace (y + Z.of_nat 0)%Z with y by lia. lia.
  - rewrite Nat2Z.inj_succ in *.
    replace (y + Z.succ (Z.of_nat n))%Z with (y + Z.of_nat n + 1)%Z by lia.
    rewrite year_step by lia.
    specialize (IH ltac:(lia)).
    destruct (is_leap (y + Z.of_nat n)); lia.
Qed.

(** The days of a year before a date and on it, month by month. *)
Lemma month_steps (y m1 m2 : Z) :
  (1 <= m1 <= 12)%Z -> (1 <= m2 <= 12)%Z -> (m1 < m2)%Z ->
  (days_before_month y m1 + days_in_month y m1 <= days_before_month y m2)%Z.
Proof.
  intros B1 B2. revert m2 B2.
  apply (@Z_range_cases
    (fun m1 => forall m2, (1 <= m2 <= 12)%Z -> (m1 < m2)%Z ->
       (days_before_month y m1 + days_in_month y m1
        <= days_before_month y m2)%Z) 1%Z 12); [|lia].
  intros i Hi m2 B2.
  apply (@Z_range_cases
    (fun m2 => (1 + Z.of_nat i < m2)%Z ->
       (days_before_month y (1 + Z.of_nat i)
        + days_in_month y (1 + Z.of_nat i)
        <= days_before_month y m2)%Z) 1%Z 12); [|lia].
  intros j Hj. unfold days_before_month, days_in_month.
  do 12 (destruct i as [|i];
         [do 12 (destruct j as [|j];
                 [destruct (is_leap y); vm_compute; intros; congruence|]);
          exfalso; lia|]).
  exfalso; lia.
Qed.

Lemma year_length (y m1 : Z) :
  (1 <= m1 <= 12)%Z ->
  (0 <= days_before_month y m1 /\
   days_before_month y m1 + days_in_month y m1
   <= (if is_leap y then 366 else 365))%Z.
Proof.
  intros B1.
  apply (@Z_range_cases
    (fun m1 => (0 <= days_before_month y m1 /\
                days_before_month y m1 + days_in_month y m1
                <= (if is_leap y then 366 else 365))%Z) 1%Z 12); [|lia].
  intros i Hi. unfold days_before_month, days_in_month.
  do 12 (destruct i as [|i];
         [destruct (is_leap y); vm_compute; split; congruence|]).
  exfalso; lia.
Qed.

Lemma valid_fields (d : datetime) :
  valid_datetime d = true ->
  (1 <= year d <= 9999 /\ 1 <= month d <= 12 /\
   1 <= day d <= days_in_month (year d) (month d) /\
   0 <= hour d <= 23 /\ 0 <= minute d <= 59 /\ 0 <= second d <= 59)%Z.
Proof.
  unfold valid_datetime. intros V.
  repeat (apply andb_true_iff in V; destruct V as [V ?]).
  repeat match goal with H : (_ <=? _)%Z = true |- _ =>
    apply Z.leb_le in H end.
  lia.
Qed.

Lemma toordinal_mono (a b : datetime) :
  valid_datetime a = true -> valid_datetime b = true ->
  date_compare a b = Lt -> (toordinal a < toordinal b)%Z.
Proof.
  intros Va Vb. apply valid_fields in Va, Vb.
  destruct Va as (Ya & Ma & Da & _). destruct Vb as (Yb & Mb & Db & _).
  unfold date_compare, toordinal.
  destruct (Z.compare_spec (year a) (year b)) as [Ey|Ly|Gy]; cbn [then_cmp];
    [|intros _|discriminate].
  - destruct (Z.compare_spec (month a) (month b)) as [Em|Lm|Gm];
      cbn [then_cmp]; [|intros _|discriminate].
    + intros L. apply (proj1 (Z.compare_lt_iff _ _)) in L. rewrite Ey, Em. lia.
    + pose proof (@month_steps (year b) (month a) (month b) Ma Mb Lm).
      rewrite Ey in *. lia.
  - pose proof (@year_length (year a) (month a) Ma) as [_ La].
    pose proof (@year_length (year b) (month b) Mb) as [Lb _].
    pose proof (@year_step (year a) Ya) as S.
    pose proof (@days_before_year_mono
                  (Z.to_nat (year b - (year a + 1))) (year a + 1)
                  ltac:(lia) ltac:(lia)) as M.
    replace (year a + 1 + Z.of_nat (Z.to_nat (year b - (year a + 1))))%Z
      with (year b) in M by lia.
    destruct (is_leap (year a)); lia.
Qed.

Lemma dt_leb_cases (a b : datetime) :
  dt_leb a b = true ->
  date_compare a b = Lt \/
  (year a = year b /\ month a = month b /\ day a = day b /\
   ((hour a < hour b)%Z \/
    (hour a = hour b /\
     ((minute a < minute b)%Z \/
      (minute a = minute b /\ (second a <= second b)%Z))))).
Proof.
  unfold dt_leb, dt_compare, date_compare.
  destruct (Z.compare_spec (year a) (year b)); cbn [then_cmp];
    try (intros; now left); try discriminate.
  destruct (Z.compare_spec (month a) (month b)); cbn [then_cmp];
    try (intros; now left); try discriminate.
  destruct (Z.compare_spec (day a) (day b)); cbn [then_cmp];
    try (intros; now left); try discriminate.
  intros Hle. right. repeat (split; [assumption|]).
  destruct (Z.compare_spec (hour a) (hour b)); cbn [then_cmp] in Hle;
    try discriminate; [|now left].
  right. split; [assumption|].
  destruct (Z.compare_spec (minute a) (minute b)); cbn [then_cmp] in Hle;
    try discriminate; [|now left].
  right. split; [assumption|].
  destruct (Z.compare_spec (second a) (second b)); try discriminate Hle; lia.
Qed.

Lemma dt_sub_not_negative (a b : datetime) :
  valid_datetime a = true -> valid_datetime b = true ->
  dt_leb a b = true ->
  (0 <= td_days (dt_sub b a) /\ 0 <= td_seconds (dt_sub b a) < 86400)%Z.
Proof.
  intros Va Vb L. unfold dt_sub. cbn [td_days td_seconds].
  split; [|apply Z.mod_pos_bound; lia].
  pose proof (@valid_fields a Va) as (_ & _ & _ & Ha & Ma & Sa).
  pose proof (@valid_fields b Vb) as (_ & _ & _ & Hb & Mb & Sb).
  apply dt_leb_cases in L. destruct L as [L|(Ey & Em & Ed & T)].
  - pose proof (@toordinal_mono a b Va Vb L) as O.
    assert (D : (-1 <= (seconds_of_day b - seconds_of_day a) / 86400)%Z).
    { apply Z.div_le_lower_bound; [lia|]. unfold seconds_of_day. lia. }
    lia.
  - assert (O : toordinal b = toordinal a).
    { unfold toordinal. now rewrite Ey, Em, Ed. }
    assert (D : (0 <= (seconds_of_day b - seconds_of_day a) / 86400)%Z).
    { apply Z.div_pos; [|lia]. unfold seconds_of_day. lia. }
    lia.
Qed.

(** X19: the time span of the summary report is never negative.  For a
    store of datetimes that is not empty, the days of the span are not
    negative and its seconds lie in a day: the report subtracts the
    earliest timestamp from the latest. *)
Theorem summary_span_is_not_negative (self : LogAnalyzer) (s : summary) :
  well_formed self -> generate_summary_report self = Returned (Summary s) ->
  exists days secs,
    span_days s = (days, TrueDiv secs 86400) /\
    (0 <= days)%Z /\ (0 <= secs < 86400)%Z.
Proof.
  unfold generate_summary_report, well_formed.
  destruct self as [entries]. cbn [log_entries].
  destruct entries as [|e es]; [discriminate|].
  intros W H. cbv zeta in H.
  destruct (get_average_response_size (mk_LogAnalyzer (e :: es)))
    as [average|exc]; [|discriminate H].
  injection H as <-. cbn [span_days].
  destruct (py_min_spec (map timestamp es) (timestamp e)) as [I1 L1].
  destruct (py_max_spec (map timestamp es) (timestamp e)) as [I2 L2].
  assert (V : forall t, In t (timestamp e :: map timestamp es) ->
                        valid_datetime t = true).
  { change (timestamp e :: map timestamp es) with (map timestamp (e :: es)).
    intros t I. apply in_map_iff in I. destruct I as [x [<- I]].
    rewrite Forall_forall in W. now apply W. }
  destruct (@dt_sub_not_negative
              (py_min (timestamp e) (map timestamp es))
              (py_max (timestamp e) (map timestamp es))
              (V _ I1) (V _ I2)) as [D S].
  { apply dt_leb_trans with (b := timestamp e).
    - apply L1. now left.
    - apply L2. now left. }
  eexists. eexists. split; [reflexivity|]. split; [exact D | exact S].
Qed.

Lemma summary_span_is_not_negative_witness :
  exists s days secs,
    generate_summary_report two_records = Returned (Summary s) /\
    span_days s = (days, TrueDiv secs 86400) /\
    (0 <= days)%Z /\ (0 <= secs < 86400)%Z.
Proof.
  eexists.
  assert (W : well_formed two_records)
    by (repeat constructor).
  destruct (@summary_span_is_not_negative two_records _ W eq_refl)
    as (days & secs & E & D & S).
  exists days, secs. split; [reflexivity|]. now split.
Defined.

(* ------------------------------------------------------------------ *)
(** ** The filters of the command line *)

Lemma filter_true {A : Type} (l : list A) : filter (fun _ => true) l = l.
Proof. induction l as [|a l IH]; simpl; [reflexivity | now rewrite IH]. Qed.

Lemma filter_fuse {A : Type} (p q : A -> bool) (l : list A) :
  filter q (filter p l) = filter (fun a => p a && q a) l.
Proof.
  induction l as [|a l IH]; simpl; [reflexivity|].
  destruct (p a); simpl; [|exact IH]. destruct (q a); now rewrite IH.
Qed.

Lemma filter_same {A : Type} (p q : A -> bool) (l : list A) :
  (forall a, p a = q a) -> filter p l = filter q l.
Proof.
  intros E. induction l as [|a l IH]; simpl; [reflexivity|].
  now rewrite E, IH.
Qed.

(** A filter that an option switches on. *)
Lemma stage_filter {A V : Type} (o : option V) (f : V -> A -> bool)
  (l : list A) :
  match o with Some v => comprehension (f v) l | None => l end
  = filter (fun e => match o with Some v => f v e | None => true end) l.
Proof.
  destruct o; [apply comprehension_filter | symmetry; apply filter_true].
Qed.

Lemma stage_filter2 {A V W : Type} (o : option V) (g : V -> option W)
  (f : W -> A -> bool) (l : list A) :
  match o with
  | Some v => match g v with
              | Some w => comprehension (f w) l
              | None => l
              end
  | None => l
  end
  = filter (fun e => match o with
                     | Some v => match g v with
                                 | Some w => f w e
                                 | None => true
                                 end
                     | None => true
                     end) l.
Proof.
  destruct o as [v|]; [|symmetry; apply filter_true].
  destruct (g v); [apply comprehension_filter | symmetry; apply filter_true].
Qed.

Section FiltersFacts.
Variable compiled : Type.
Variable re_compile : str -> outcome compiled.
Variable compiled_search : compiled -> str -> bool.

Lemma path_filter_failure (args : Namespace) (l : list LogEntry)
  (exc : exception) :
  path_failure re_compile args = Some exc ->
  path_filter re_compile compiled_search args l = Raised exc /\
  exc <> re_error.
Proof.
  unfold path_failure, path_filter.
  destruct (given_text (filter_path args)) as [pattern|]; [|discriminate].
  destruct (re_compile pattern) as [regex|[]]; try discriminate;
    intros H; injection H as <-; split; (reflexivity || discriminate).
Qed.

Lemma path_filter_ok (args : Namespace) (l : list LogEntry) :
  path_failure re_compile args = None ->
  path_filter re_compile compiled_search args l
  = Returned
      (filter (fun e =>
                 match given_text (filter_path args) with
                 | Some pattern =>
                     match re_compile pattern with
                     | Returned regex => compiled_search regex (path e)
                     | Raised _ => true
                     end
                 | None => true
                 end) l).
Proof.
  unfold path_failure, path_filter.
  destruct (given_text (filter_path args)) as [pattern|];
    [|intros _; now rewrite filter_true].
  destruct (re_compile pattern) as [regex|[]]; try discriminate; intros _.
  - now rewrite comprehension_filter.
  - now rewrite filter_true.
Qed.

(** The filters before the end date, as one, when the path option does
    not fail. *)
Lemma apply_filters_stages (log_entries : list LogEntry) (args : Namespace) :
  path_failure re_compile args = None ->
  apply_filters re_compile compiled_search log_entries args
  = let filtered :=
      filter (fun e =>
        match given_text (filter_ip args) with
        | Some ip => Str.eqb (ip_address e) ip
        | None => true
        end &&
        match given_text (filter_method args) with
        | Some meth => Str.eqb (method e) (str_upper meth)
        | None => true
        end &&
        match given_number (filter_status args) with
        | Some status => Z.eqb (status_code e) status
        | None => true
        end &&
        match given_text (filter_path args) with
        | Some pattern =>
            match re_compile pattern with
            | Returned regex => compiled_search regex (path e)
            | Raised _ => true
            end
        | None => true
        end &&
        match given_text (start_date args) with
        | Some text =>
            match strptime_date text with
            | Some start => dt_leb start (timestamp e)
            | None => true
            end
        | None => true
        end) log_entries in
    match given_text (end_date args) with
    | Some text =>
        match strptime_date text with
        | Some day_given =>
            match add_one_day day_given with
            | Some end_ =>
                Returned (filter (fun entry => dt_leb (timestamp entry) end_)
                            filtered)
            | None => Raised OverflowError
            end
        | None => Returned filtered
        end
    | None => Returned filtered
    end.
Proof.
  intros PF. unfold apply_filters. cbv zeta.
  rewrite (stage_filter (given_text (filter_ip args))
             (fun ip entry => Str.eqb (ip_address entry) ip)).
  rewrite (stage_filter (given_text (filter_method args))
             (fun meth entry => Str.eqb (method entry) (str_upper meth))).
  rewrite (stage_filter (given_number (filter_status args))
             (fun status entry => Z.eqb (status_code entry) status)).
  rewrite (@path_filter_ok args _ PF).
  rewrite (stage_filter2 (given_text (start_date args)) strptime_date
             (fun start entry => dt_leb start (timestamp entry))).
  rewrite !filter_fuse.
  assert (E : forall l : list LogEntry,
    filter (fun a =>
      match given_text (filter_ip args) with
      | Some ip => Str.eqb (ip_address a) ip
      | None => true
      end &&
      (match given_text (filter_method args) with
       | Some meth => Str.eqb (method a) (str_upper meth)
       | None => true
       end &&
       (match given_number (filter_status args) with
        | Some status => Z.eqb (status_code a) status
        | None => true
        end &&
        (match given_text (filter_path args) with
         | Some pattern =>
             match re_compile pattern with
             | Returned regex => compiled_search regex (path a)
             | Raised _ => true
             end
         | None => true
         end &&
         match given_text (start_date args) with
         | Some text =>
             match strptime_date text with
             | Some start => dt_leb start (timestamp a)
             | None => true
             end
         | None => true
         end)))) l
    = filter (fun e =>
      match given_text (filter_ip args) with
      | Some ip => Str.eqb (ip_address e) ip
      | None => true
      end &&
      match given_text (filter_method args) with
      | Some meth => Str.eqb (method e) (str_upper meth)
      | None => true
      end &&
      match given_number (filter_status args) with
      | Some status => Z.eqb (status_code e) status
      | None => true
      end &&
      match given_text (filter_path args) with
      | Some pattern =>
          match re_compile pattern with
          | Returned regex => compiled_search regex (path e)
          | Raised _ => true
          end
      | None => true
      end &&
      match given_text (start_date args) with
      | Some text =>
          match strptime_date text with
          | Some start => dt_leb start (timestamp e)
          | None => true
          end
      | None => true
      end) l).
  { intros l. apply filter_same. intros a. now rewrite !andb_assoc. }
  first [rewrite E | rewrite <- E].
  destruct (given_text (end_date args)) as [text|]; [|reflexivity].
  destruct (strptime_date text) as [d|]; [|reflexivity].
  destruct (add_one_day d) as [e_|]; [|reflexivity].
  now rewrite comprehension_filter.
Qed.

Lemma apply_filters_path_failure (log_entries : list LogEntry)
  (args : Namespace) (exc : exception) :
  path_failure re_compile args = Some exc ->
  apply_filters re_compile compiled_search log_entries args = Raised exc.
Proof.
  intros PF. unfold apply_filters. cbv zeta.
  now rewrite (proj1 (@path_filter_failure args _ exc PF)).
Qed.

Lemma apply_filters_wanted (log_entries : list LogEntry) (args : Namespace)
  (l : list LogEntry) :
  apply_filters re_compile compiled_search log_entries args = Returned l ->
  l = filter (wanted re_compile compiled_search args) log_entries.
Proof.
  destruct (path_failure re_compile args) as [exc|] eqn:PF.
  { rewrite (@apply_filters_path_failure log_entries args _ PF). discriminate. }
  rewrite (@apply_filters_stages log_entries args PF). cbv zeta. unfold wanted.
  destruct (given_text (end_date args)) as [text|].
  - destruct (strptime_date text) as [d|].
    + destruct (add_one_day d) as [e_|]; [|discriminate].
      intros H. injection H as <-. rewrite filter_fuse. reflexivity.
    + intros H. injection H as <-. apply filter_same. intros e.
      now rewrite andb_true_r.
  - intros H. injection H as <-. apply filter_same. intros e.
    now rewrite andb_true_r.
Qed.

Lemma apply_filters_raised (log_entries : list LogEntry) (args : Namespace)
  (exc : exception) :
  apply_filters re_compile compiled_search log_entries args = Raised exc <->
  path_failure re_compile args = Some exc \/
  (path_failure re_compile args = None /\ exc = OverflowError /\
   exists text d,
     given_text (end_date args) = Some text /\
     strptime_date text = Some d /\ add_one_day d = None).
Proof.
  destruct (path_failure re_compile args) as [exc0|] eqn:PF.
  { rewrite (@apply_filters_path_failure log_entries args _ PF). split.
    - intros H. injection H as <-. now left.
    - intros [H|[H _]]; [now injection H as <- | discriminate H]. }
  rewrite (@apply_filters_stages log_entries args PF). cbv zeta.
  destruct (given_text (end_date args)) as [text|].
  - destruct (strptime_date text) as [d|] eqn:E.
    + destruct (add_one_day d) as [e_|] eqn:E'.
      * split; [discriminate|].
        intros [H|(_ & _ & t & d' & E1 & E2 & E3)]; [discriminate H|].
        injection E1 as <-. congruence.
      * split.
        -- intros H. injection H as <-. right.
           split; [reflexivity|]. split; [reflexivity|]. now exists text, d.
        -- intros [H|(_ & -> & _)]; [discriminate H | reflexivity].
    + split; [discriminate|].
      intros [H|(_ & _ & t & d' & E1 & E2 & E3)]; [discriminate H|].
      injection E1 as <-. congruence.
  - split; [discriminate|].
    intros [H|(_ & _ & t & d' & E1 & _)]; [discriminate H | discriminate E1].
Qed.

End FiltersFacts.

Lemma last_day (d : datetime) :
  valid_datetime d = true -> add_one_day d = None ->
  year d = 9999%Z /\ month d = 12%Z /\ day d = 31%Z.
Proof.
  intros V E. pose proof (@valid_fields d V) as (Y & M & D & _).
  unfold add_one_day in E.
  destruct (Z.ltb_spec (day d) (days_in_month (year d) (month d)));
    [discriminate E|].
  destruct (Z.ltb_spec (month d) 12); [discriminate E|].
  destruct (Z.ltb_spec (year d) 9999); [discriminate E|].
  assert (Em : month d = 12%Z) by lia.
  assert (Ey : year d = 9999%Z) by lia.
  rewrite Em, Ey in *. change (days_in_month 9999 12) with 31%Z in *. lia.
Qed.

Lemma strptime_date_valid (text : str) (d : datetime) :
  strptime_date text = Some d ->
  valid_datetime d = true /\
  hour d = 0%Z /\ minute d = 0%Z /\ second d = 0%Z.
Proof.
  unfold strptime_date.
  destruct (re_match _ text) as [[g [|? ?]]|]; try discriminate.
  destruct (py_int (group g 0)) as [y|]; [|discriminate].
  destruct (py_int (group g 1)) as [mo|]; [|discriminate].
  destruct (py_int (skip_blank (group g 2))) as [dd|]; [|discriminate].
  unfold make_datetime.
  destruct (valid_datetime (mk_datetime y mo dd 0 0 0)) eqn:V; [|discriminate].
  intros H. injection H as <-. now repeat split.
Qed.

(** X20: the filters of the command line act as one filter.  Whatever
    options are given, the records that [apply_filters] hands to the new
    analyzer are the loaded records that every given and understood
    option asks for, in the order of the file, a subsequence of the
    loaded records.  The method is left by an exception in two cases
    only: [re.compile] raises on the path option something that is not
    [re.error], which then leaves the method; or else the end date is
    the last day of the year 9999, whose day after raises
    [OverflowError]. *)
Theorem apply_filters_is_one_filter (compiled : Type)
  (re_compile : str -> outcome compiled)
  (compiled_search : compiled -> str -> bool)
  (log_entries : list LogEntry) (args : Namespace) :
  (forall l,
      apply_filters re_compile compiled_search log_entries args = Returned l ->
      l = filter (wanted re_compile compiled_search args) log_entries /\
      subseq l log_entries) /\
  (forall exc,
      apply_filters re_compile compiled_search log_entries args = Raised exc <->
      path_failure re_compile args = Some exc \/
      (path_failure re_compile args = None /\ exc = OverflowError /\
       exists text,
         given_text (end_date args) = Some text /\
         strptime_date text = Some (mk_datetime 9999 12 31 0 0 0))).
Proof.
  split.
  - intros l H. apply apply_filters_wanted in H. split; [exact H|].
    rewrite H. apply filter_subseq.
  - intros exc. rewrite apply_filters_raised. split.
    + intros [H|(PF & -> & text & d & E1 & E2 & E3)]; [now left|].
      right. split; [exact PF|]. split; [reflexivity|].
      exists text. split; [exact E1|]. rewrite E2. f_equal.
      destruct (@strptime_date_valid text d E2) as (V & Hh & Hm & Hs).
      destruct (@last_day d V E3) as (Ey & Em & Ed).
      destruct d as [y mo dd h mi s]. cbn in *. now subst.
    + intros [H|(PF & -> & text & E1 & E2)]; [now left|].
      right. split; [exact PF|]. split; [reflexivity|].
      exists text, (mk_datetime 9999 12 31 0 0 0). now repeat split.
Qed.

(** X21: the filters of the command line agree with the filter methods
    of the analyzer where both apply, and differ where [re.error] is
    raised.  With one option given, [apply_filters] keeps the records
    that [filter_by_ip], [filter_by_method], [filter_by_status_code] or
    [filter_by_path_pattern] returns.  When [re.compile] raises
    [re.error] on the pattern, [filter_by_path_pattern] raises it while
    [apply_filters] keeps all records; any other exception of
    [re.compile] leaves both.  A status of 0 and an empty text count as
    not given. *)
Theorem command_line_filters_and_analyzer_filters (compiled : Type)
  (re_compile : str -> outcome compiled)
  (compiled_search : compiled -> str -> bool) (self : LogAnalyzer) :
  (forall ip, ip <> [] ->
     exists l,
       apply_filters re_compile compiled_search (log_entries self)
         (mk_Namespace (Some ip) None None None None None) = Returned l /\
       filter_by_ip self ip = (Returned l, self)) /\
  (forall meth, meth <> [] ->
     exists l,
       apply_filters re_compile compiled_search (log_entries self)
         (mk_Namespace None (Some meth) None None None None) = Returned l /\
       filter_by_method self meth = (Returned l, self)) /\
  (forall code, code <> 0%Z ->
     exists l,
       apply_filters re_compile compiled_search (log_entries self)
         (mk_Namespace None None (Some code) None None None) = Returned l /\
       filter_by_status_code self code = (Returned l, self)) /\
  (forall pattern, pattern <> [] ->
     match re_compile pattern with
     | Returned _ =>
         exists l,
           apply_filters re_compile compiled_search (log_entries self)
             (mk_Namespace None None None (Some pattern) None None)
           = Returned l /\
           filter_by_path_pattern re_compile compiled_search self pattern
           = (Returned l, self)
     | Raised re_error =>
         apply_filters re_compile compiled_search (log_entries self)
           (mk_Namespace None None None (Some pattern) None None)
         = Returned (log_entries self) /\
         filter_by_path_pattern re_compile compiled_search self pattern
         = (Raised re_error, self)
     | Raised exc =>
         apply_filters re_compile compiled_search (log_entries self)
           (mk_Namespace None None None (Some pattern) None None)
         = Raised exc /\
         filter_by_path_pattern re_compile compiled_search self pattern
         = (Raised exc, self)
     end) /\
  apply_filters re_compile compiled_search (log_entries self)
    (mk_Namespace (Some []) (Some []) (Some 0%Z) (Some []) (Some []) (Some []))
  = Returned (log_entries self).
Proof.
  split; [|split; [|split; [|split]]].
  - intros [|c ip] N; [congruence|]. eexists. split; reflexivity.
  - intros [|c meth] N; [congruence|]. eexists. split; reflexivity.
  - intros code N. unfold apply_filters, path_filter, given_number, filter_status.
    cbn [given_text filter_ip filter_method filter_path start_date end_date].
    destruct (Z.eqb_spec code 0) as [E|_]; [congruence|].
    eexists. split; reflexivity.
  - intros [|c pattern] N; [congruence|].
    unfold apply_filters, path_filter, filter_by_path_pattern.
    cbn [given_text given_number filter_ip filter_method filter_status
         filter_path start_date end_date].
    destruct (re_compile (c :: pattern)) as [regex|[]].
    + eexists. split; reflexivity.
    + split; reflexivity.
    + split; reflexivity.
    + split; reflexivity.
    + split; reflexivity.
    + split; reflexivity.
  - reflexivity.
Qed.

(* ------------------------------------------------------------------ *)
(** ** The end date of the command line *)

Lemma date_lt_iff (a b : datetime) :
  date_compare a b = Lt <->
  (year a < year b \/
   (year a = year b /\
    (month a < month b \/ (month a = month b /\ day a < day b))))%Z.
Proof.
  unfold date_compare.
  destruct (Z.compare_spec (year a) (year b)),
    (Z.compare_spec (month a) (month b)),
    (Z.compare_spec (day a) (day b)); cbn [then_cmp];
    split; intros; try discriminate; try reflexivity; lia.
Qed.

Lemma date_le_iff (a b : datetime) :
  date_compare a b <> Gt <->
  (year a < year b \/
   (year a = year b /\
    (month a < month b \/ (month a = month b /\ day a <= day b))))%Z.
Proof.
  unfold date_compare.
  destruct (Z.compare_spec (year a) (year b)),
    (Z.compare_spec (month a) (month b)),
    (Z.compare_spec (day a) (day b)); cbn [then_cmp];
    split; intros; try discriminate; try congruence; lia.
Qed.

Lemma dt_compare_date (a b : datetime) :
  dt_compare a b
  = then_cmp (date_compare a b)
      (then_cmp (hour a ?= hour b)%Z
         (then_cmp (minute a ?= minute b)%Z (second a ?= second b)%Z)).
Proof.
  unfold dt_compare, date_compare.
  now destruct (year a ?= year b)%Z, (month a ?= month b)%Z,
    (day a ?= day b)%Z.
Qed.

Lemma dt_leb_iff (a b : datetime) :
  valid_datetime a = true -> valid_datetime b = true ->
  dt_leb a b = true <->
  date_compare a b = Lt \/
  (date_compare a b = Eq /\ (seconds_of_day a <= seconds_of_day b)%Z).
Proof.
  intros Va Vb.
  pose proof (@valid_fields a Va) as (_ & _ & _ & Ha & Ma & Sa).
  pose proof (@valid_fields b Vb) as (_ & _ & _ & Hb & Mb & Sb).
  unfold dt_leb, seconds_of_day. rewrite dt_compare_date.
  destruct (date_compare a b); cbn [then_cmp].
  - destruct (Z.compare_spec (hour a) (hour b)) as [e1|l1|g1],
      (Z.compare_spec (minute a) (minute b)) as [e2|l2|g2],
      (Z.compare_spec (second a) (second b)) as [e3|l3|g3]; cbn [then_cmp];
      split; intros Hx; try discriminate Hx; try reflexivity;
      try (right; split; [reflexivity | lia]);
      destruct Hx as [Hx|[_ Hx]]; try discriminate Hx; lia.
  - split; [now left | reflexivity].
  - split; [discriminate | intros [H|[H _]]; discriminate H].
Qed.

(** The day after a date is the next date of the calendar. *)
Lemma add_one_day_next (d d' t : datetime) :
  valid_datetime d = true -> valid_datetime t = true ->
  add_one_day d = Some d' ->
  (date_compare t d' = Lt <-> date_compare t d <> Gt) /\
  hour d' = hour d /\ minute d' = minute d /\ second d' = second d.
Proof.
  intros Vd Vt.
  pose proof (@valid_fields d Vd) as (Yd & Md & Dd & _).
  pose proof (@valid_fields t Vt) as (Yt & Mt & Dt & _).
  assert (K : year t = year d -> month t = month d ->
              (day t <= days_in_month (year d) (month d))%Z).
  { intros E1 E2. rewrite <- E1, <- E2. lia. }
  unfold add_one_day. rewrite date_lt_iff, date_le_iff.
  destruct (Z.ltb_spec (day d) (days_in_month (year d) (month d))) as [L|L].
  - intros H. injection H as <-. cbn [year month day hour minute second].
    split; [lia | auto].
  - destruct (Z.ltb_spec (month d) 12) as [L2|L2].
    + intros H. injection H as <-. cbn [year month day hour minute second].
      split; [lia | auto].
    + destruct (Z.ltb_spec (year d) 9999) as [L3|L3]; [|discriminate].
      intros H. injection H as <-. cbn [year month day hour minute second].
      split; [lia | auto].
Qed.

Lemma strptime_date_midnight (text : str) (d : datetime) :
  strptime_date text = Some d ->
  valid_datetime d = true /\ seconds_of_day d = 0%Z.
Proof.
  unfold strptime_date.
  destruct (re_match _ text) as [[g [|? ?]]|]; try discriminate.
  destruct (py_int (group g 0)) as [y|]; [|discriminate].
  destruct (py_int (group g 1)) as [mo|]; [|discriminate].
  destruct (py_int (skip_blank (group g 2))) as [dd|]; [|discriminate].
  unfold make_datetime.
  destruct (valid_datetime (mk_datetime y mo dd 0 0 0)) eqn:V; [|discriminate].
  intros H. injection H as <-. split; [exact V | reflexivity].
Qed.

Lemma until_next_midnight (d d' t : datetime) :
  valid_datetime d = true -> seconds_of_day d = 0%Z ->
  valid_datetime t = true -> add_one_day d = Some d' ->
  dt_leb t d' = true <-> date_compare t d <> Gt \/ t = d'.
Proof.
  intros Vd Sd Vt A.
  destruct (@add_one_day_next d d' t Vd Vt A) as (N & Eh & Em & Es).
  assert (Vd' : valid_datetime d' = true).
  { pose proof (@valid_fields d Vd) as (Yd & Md & Dd & Hd & Mid & Secd).
    revert A. unfold add_one_day.
    destruct (Z.ltb_spec (day d) (days_in_month (year d) (month d))) as [L|L].
    - intros H. injection H as <-. unfold valid_datetime.
      cbn [year month day hour minute second].
      repeat (apply andb_true_iff; split); apply Z.leb_le; lia.
    - destruct (Z.ltb_spec (month d) 12) as [L2|L2].
      + intros H. injection H as <-. unfold valid_datetime.
        cbn [year month day hour minute second].
        assert (1 <= days_in_month (year d) (month d + 1))%Z.
        { unfold days_in_month.
          destruct (month d + 1 =? 2)%Z; [destruct (is_leap (year d)); lia|].
          destruct ((month d + 1 =? 4) || (month d + 1 =? 6)
                    || (month d + 1 =? 9) || (month d + 1 =? 11))%Z; lia. }
        repeat (apply andb_true_iff; split); apply Z.leb_le; lia.
      + destruct (Z.ltb_spec (year d) 9999) as [L3|L3]; [|discriminate].
        intros H. injection H as <-. unfold valid_datetime.
        cbn [year month day hour minute second].
        change (days_in_month (year d + 1) 1) with 31%Z.
        repeat (apply andb_true_iff; split); apply Z.leb_le; lia. }
  rewrite (@dt_leb_iff t d' Vt Vd'), N.
  assert (S' : seconds_of_day d' = 0%Z).
  { unfold seconds_of_day in *. now rewrite Eh, Em, Es. }
  pose proof (@valid_fields t Vt) as (_ & _ & _ & Ht & Mit & Sect).
  pose proof (@valid_fields d' Vd') as (_ & _ & _ & Hd' & Mid' & Secd').
  split.
  - intros [H|[H S]]; [now left | right].
    apply (proj1 (date_compare_Eq _ _)) in H. destruct H as (E1 & E2 & E3).
    unfold seconds_of_day in S, S'.
    destruct t, d'. cbn in *. f_equal; lia.
  - intros [H | -> ]; [now left | right].
    split; [|lia]. apply date_compare_Eq. auto.
Qed.

(** X22: the end date of the command line is inclusive, and one second
    more.  When only [--end-date] is given and names a day that has a day
    after it, the records kept are those of that day or of an earlier
    day, and also a record stamped at midnight of the day after. *)
Theorem end_date_keeps_the_day_and_the_next_midnight (compiled : Type)
  (re_compile : str -> outcome compiled)
  (compiled_search : compiled -> str -> bool)
  (self : LogAnalyzer) (text : str) (day_given end_ : datetime) :
  well_formed self -> text <> [] ->
  strptime_date text = Some day_given ->
  add_one_day day_given = Some end_ ->
  exists l,
    apply_filters re_compile compiled_search (log_entries self)
      (mk_Namespace None None None None None (Some text)) = Returned l /\
    forall e, In e l <->
      In e (log_entries self) /\
      (date_compare (timestamp e) day_given <> Gt \/ timestamp e = end_).
Proof.
  intros W N P A. destruct text as [|c text]; [congruence|].
  unfold apply_filters, path_filter.
  cbn [given_text given_number filter_ip filter_method filter_status
       filter_path start_date end_date].
  rewrite P, A. eexists. split; [reflexivity|].
  intros e. rewrite comprehension_filter, filter_In.
  destruct (@strptime_date_midnight _ _ P) as [Vd Sd].
  split.
  - intros [I L]. split; [exact I|].
    unfold well_formed in W. rewrite Forall_forall in W.
    now apply (@until_next_midnight day_given end_ (timestamp e) Vd Sd (W e I) A).
  - intros [I L]. split; [exact I|].
    unfold well_formed in W. rewrite Forall_forall in W.
    now apply (@until_next_midnight day_given end_ (timestamp e) Vd Sd (W e I) A).
Qed.

Lemma end_date_keeps_the_day_and_the_next_midnight_witness :
  exists l,
    apply_filters (fun _ : str => @Raised unit re_error) (fun _ _ => false)
      (log_entries two_records)
      (mk_Namespace None None None None None (Some (lit "2023-04-19")))
    = Returned l /\
    (In second_entry l <->
     In second_entry (log_entries two_records) /\
     (date_compare (timestamp second_entry) (mk_datetime 2023 4 19 0 0 0) <> Gt
      \/ timestamp second_entry = mk_datetime 2023 4 20 0 0 0)).
Proof.
  destruct (@end_date_keeps_the_day_and_the_next_midnight unit
              (fun _ => Raised re_error) (fun _ _ => false) two_records
              (lit "2023-04-19") (mk_datetime 2023 4 19 0 0 0)
              (mk_datetime 2023 4 20 0 0 0))
    as [l [E H]].
  - repeat constructor.
  - discriminate.
  - vm_compute; reflexivity.
  - reflexivity.
  - exists l. split; [exact E | apply H].
Defined.

(** The day after, by day numbers: [add_one_day] is the date whose
    ordinal is one more. *)
Lemma add_one_day_ordinal (d d' : datetime) :
  valid_datetime d = true -> add_one_day d = Some d' ->
  toordinal d' = (toordinal d + 1)%Z.
Proof.
  intros V. pose proof (@valid_fields d V) as (Y & M & D & _).
  unfold add_one_day, toordinal.
  destruct (Z.ltb_spec (day d) (days_in_month (year d) (month d))) as [L|L].
  - intros H. injection H as <-. cbn [year month day]. lia.
  - destruct (Z.ltb_spec (month d) 12) as [L2|L2].
    + intros H. injection H as <-. cbn [year month day].
      assert (S : (days_before_month (year d) (month d + 1)
                   = days_before_month (year d) (month d)
                     + days_in_month (year d) (month d))%Z).
      { apply (@Z_range_cases
          (fun m => (days_before_month (year d) (m + 1)
                     = days_before_month (year d) m
                       + days_in_month (year d) m)%Z) 1%Z 11); [|lia].
        intros i Hi. unfold days_before_month, days_in_month.
        do 11 (destruct i as [|i];
               [destruct (is_leap (year d)); vm_compute; reflexivity|]).
        exfalso; lia. }
      lia.
    + destruct (Z.ltb_spec (year d) 9999) as [L3|L3]; [|discriminate].
      intros H. injection H as <-. cbn [year month day].
      assert (Em : month d = 12%Z) by lia. rewrite Em in *.
      rewrite (@year_step (year d) Y).
      unfold days_before_month, days_in_month in *.
      change (Z.to_nat 12) with 12%nat. change (Z.to_nat 1) with 1%nat.
      destruct (is_leap (year d)); cbn in *; lia.
Qed.

(* ------------------------------------------------------------------ *)
(** ** Bandwidth, and the filters among themselves *)




Lemma upper_upper (c : ascii) : upper (upper c) = upper c.
Proof. destruct c as [[] [] [] [] [] [] [] []]; vm_compute; reflexivity. Qed.

Lemma str_upper_idem (s : str) : str_upper (str_upper s) = str_upper s.
Proof.
  unfold str_upper. rewrite map_map. apply map_ext. intros c.
  apply upper_upper.
Qed.

(** X24: the filter methods among themselves.  Filtering by one status
    code is filtering by the range from that code to itself; a range of
    codes whose start is above its end returns nothing; the method
    filter does not depend on the case of its argument; and a filter
    applied to its own result returns that result again. *)
Theorem filters_among_themselves (self : LogAnalyzer) :
  (forall code,
     filter_by_status_code self code
     = filter_by_status_code_range self code code) /\
  (forall start_code end_code, (end_code < start_code)%Z ->
     filter_by_status_code_range self start_code end_code
     = (Returned [], self)) /\
  (forall meth,
     filter_by_method self (str_upper meth) = filter_by_method self meth) /\
  (forall ip l,
     filter_by_ip self ip = (Returned l, self) ->
     filter_by_ip (mk_LogAnalyzer l) ip = (Returned l, mk_LogAnalyzer l)).
Proof.
  split; [|split; [|split]].
  - intros code. unfold filter_by_status_code, filter_by_status_code_range.
    rewrite !comprehension_filter. do 2 f_equal.
    apply filter_same. intros e. unfold in_code_range.
    destruct (Z.eqb_spec (status_code e) code) as [->|N].
    + now rewrite Z.leb_refl.
    + destruct (Z.leb_spec code (status_code e)),
        (Z.leb_spec (status_code e) code); cbn; try reflexivity. lia.
  - intros s e L. unfold filter_by_status_code_range.
    rewrite comprehension_filter. do 2 f_equal.
    apply filter_none. intros x _. unfold in_code_range.
    destruct (Z.leb_spec s (status_code x)), (Z.leb_spec (status_code x) e);
      cbn; try reflexivity. lia.
  - intros meth. unfold filter_by_method. now rewrite str_upper_idem.
  - intros ip l H. unfold filter_by_ip in *. cbn [log_entries].
    rewrite comprehension_filter in *. injection H as <-.
    do 2 f_equal. rewrite filter_fuse. apply filter_same. intros e.
    now destruct (Str.eqb (ip_address e) ip).
Qed.
